(** * Graph bookkeeping and type inference of package [model]

    A shallow embedding of [dev/model/graph.go]: the registry of nodes and
    channels, the pin caches ([RefreshChannelsPins]), deletion
    ([DeleteChannel], [DeleteNode]) and the flood-fill inference pass
    ([InferTypes], [inferChannelType], [applyTypeParams]).

    Conventions of the embedding.
    - A Go [map[K]V] is a [gmap K V]; a [map[K]struct{}] is a [gset K].  A
      nil map is not distinguished from an empty one (writes to a nil map are
      outside the model).
    - [g.Nodes] and [g.Channels] hold pointers.  Every registry key owns its
      object (no two keys alias one object), so an object is represented by
      the value stored under its key and a [*Channel] by that key.
    - Go leaves the order of [range] over a map unspecified.  The loops below
      are folds over lists; the top-level operations instantiate them with
      [map_to_list] and [elements], the loop lemmas are stated for the lists
      themselves.  The inference pass is also given with the order of every
      loop over a map taken from a [Schedule] ([InferTypes_in]); what compares
      two passes is stated for every schedule.
    - [LoadJSON] takes the registries as the decoder fills them in, in which
      the value under a key can be a nil pointer.  In a [Graph] every key
      owns a non-nil object.
    - A [panic] is the result [None] of the bookkeeping operations and the
      outcome [Panic] of the inference pass. *)

From Stdlib Require Import Ascii String.
From stdpp Require Import base option list strings gmap fin_maps fin_sets.

Open Scope string_scope.
Open Scope list_scope.
Open Scope nat_scope.

(** ** Keys *)

(** [NodePin]: a (node name, pin name) pair, the key of [Channel.Pins]. *)
Record NodePin := mkNodePin { np_Node : string; np_Pin : string }.

Global Instance NodePin_eq_dec : EqDecision NodePin.
Proof. solve_decision. Defined.

Global Instance NodePin_countable : Countable NodePin.
Proof.
  refine (inj_countable' (λ np, (np_Node np, np_Pin np))
                         (λ p, mkNodePin p.1 p.2) _).
  by intros [].
Defined.

(** [source.TypeParam]: a type parameter identifier scoped to a node; the
    key of [source.TypeInferenceMap] ([tp.Scope], [tp.Ident] in [InferTypes]). *)
Record TypeParam := mkTypeParam { Scope : string; Ident : string }.

Global Instance TypeParam_eq_dec : EqDecision TypeParam.
Proof. solve_decision. Defined.

Global Instance TypeParam_countable : Countable TypeParam.
Proof.
  refine (inj_countable' (λ tp, (Scope tp, Ident tp))
                         (λ p, mkTypeParam p.1 p.2) _).
  by intros [].
Defined.

(** ** The interface of package [source]

    Modelled from the spec: the package [dev/source] ([Type], [NewType],
    [MustNewType], [Type.Refine], [Type.Lithify], [Type.String],
    [TypeInferenceMap.Infer]) is not part of the sources at hand.  The graph
    code uses it through the operations below; what the specification says
    about them is collected in [SourceLaws].

    - [NewType scope t] parses the declared type [t], scoping its type
      parameters to [scope]; it can fail.
    - [Infer m p q] unifies [p] with [q] and records what it learns in the
      map (updated in place in Go, returned here) together with the error it
      reports; [q] is a pointer that can be nil.
    - [Refine m t] substitutes the bindings of [m] into [t] (in place in Go)
      and reports whether [t] changed; it can fail.
    - [Lithify def t] replaces what is still free in [t] by [def].
    - [free_idents t] is the number of free type-parameter identifiers of
      [t]. *)
Class Source := {
  SType : Type;
  SError : Type;
  NewType : string → string → SError + SType;
  typeEmptyInterface : SType;
  Infer : gmap TypeParam SType → SType → option SType →
          gmap TypeParam SType * option SError;
  Refine : gmap TypeParam SType → SType → SError + SType * bool;
  Lithify : SType → SType → SType;
  TypeString : SType → string;
  free_idents : SType → nat;
}.

(** Modelled from the spec: "substituting known bindings into an expression";
    "only actual changes trigger re-enqueue"; "each successful unification
    strictly reduces the number of free identifiers"; "force every ... type
    that still contains a free identifier to the universal/default top
    type". *)
Class SourceLaws (Src : Source) := {
  Refine_unchanged m t t' : Refine m t = inr (t', false) → t' = t;
  Refine_progress m t t' :
    Refine m t = inr (t', true) → free_idents t' < free_idents t;
  Lithify_closed t : free_idents (Lithify typeEmptyInterface t) = 0;
}.

(** The sentinel stored in [Node.Connections] for an unconnected pin. *)
Definition unconnected : string := "nil".

(** A loop whose body can panic. *)
Fixpoint for_each {A S : Type} (body : S → A → option S) (l : list A) (s : S)
  : option S :=
  match l with
  | [] => Some s
  | x :: l' => match body s x with
               | Some s' => for_each body l' s'
               | None => None
               end
  end.

Section graph.
Context {Src : Source}.

(** ** Data model *)

(** [Node].  [PartPins] is the result of [n.Pins()]: pin name to the declared
    type of the pin.  [pinTypes] and [typeParams] are rebuilt by each
    inference pass. *)
Record Node := mkNode {
  NodeName : string;
  PartPins : gmap string string;
  Connections : gmap string string;
  pinTypes : gmap string SType;
  typeParams : gmap string string;
}.

(** [Channel].  [ChanType] is the pointer [c.Type]: it is nil or the pin-type
    object the channel adopted, named by the node key and pin that own it. *)
Record Channel := mkChannel {
  ChanName : string;
  Pins : gset NodePin;
  ChanType : option NodePin;
}.

Record Graph := mkGraph {
  Nodes : gmap string Node;
  Channels : gmap string Channel;
  types : gmap TypeParam SType;
}.

Definition set_Connections (f : gmap string string → gmap string string)
    (n : Node) : Node :=
  mkNode (NodeName n) (PartPins n) (f (Connections n)) (pinTypes n) (typeParams n).

Definition set_pinTypes (f : gmap string SType → gmap string SType)
    (n : Node) : Node :=
  mkNode (NodeName n) (PartPins n) (Connections n) (f (pinTypes n)) (typeParams n).

Definition set_typeParams (f : gmap string string → gmap string string)
    (n : Node) : Node :=
  mkNode (NodeName n) (PartPins n) (Connections n) (pinTypes n) (f (typeParams n)).

Definition set_Pins (f : gset NodePin → gset NodePin) (c : Channel) : Channel :=
  mkChannel (ChanName c) (f (Pins c)) (ChanType c).

Definition set_ChanType (t : option NodePin) (c : Channel) : Channel :=
  mkChannel (ChanName c) (Pins c) t.

Definition set_Nodes (f : gmap string Node → gmap string Node) (g : Graph) : Graph :=
  mkGraph (f (Nodes g)) (Channels g) (types g).

Definition set_Channels (f : gmap string Channel → gmap string Channel)
    (g : Graph) : Graph :=
  mkGraph (Nodes g) (f (Channels g)) (types g).

Definition set_types (m : gmap TypeParam SType) (g : Graph) : Graph :=
  mkGraph (Nodes g) (Channels g) m.

(** Modelled from the spec: [Channel.AddPin] and [Channel.RemovePin] are not
    part of the sources at hand; the channel "caches the set of pins
    currently wired to it", so they insert and delete the pair. *)
Definition AddPin (c : Channel) (node pin : string) : Channel :=
  set_Pins (λ ps, {[mkNodePin node pin]} ∪ ps) c.

Definition RemovePin (c : Channel) (node pin : string) : Channel :=
  set_Pins (λ ps, ps ∖ {[mkNodePin node pin]}) c.

(** ** DeleteChannel *)

(** The body of the loop of [DeleteChannel]:
    [n := g.Nodes[np.Node]; if n == nil { panic }; n.Connections[np.Pin] = "nil"]. *)
Definition disconnect_pin (nodes : gmap string Node) (np : NodePin)
  : option (gmap string Node) :=
  match nodes !! np_Node np with
  | None => None
  | Some n =>
      Some (<[np_Node np := set_Connections <[np_Pin np := unconnected]> n]> nodes)
  end.

Definition DeleteChannel (g : Graph) (ch : Channel) : option Graph :=
  match for_each disconnect_pin (elements (Pins ch)) (Nodes g) with
  | None => None
  | Some nodes =>
      Some (mkGraph nodes (delete (ChanName ch) (Channels g)) (types g))
  end.

(** ** DeleteNode *)

(** The body of the first loop of [DeleteNode], on the connection entry
    [(p, cn)] of the node named [name].  The state is the registry of
    channels and [rem], the channels marked for deletion (pointers in Go,
    registry keys here). *)
Definition unwire_pin (name : string) (cleanupChans : bool)
    (s : gmap string Channel * list string) (pc : string * string)
  : gmap string Channel * list string :=
  if decide (pc.2 = unconnected) then s
  else match s.1 !! pc.2 with
       | None => s
       | Some ch =>
           let ch' := RemovePin ch name pc.1 in
           (<[pc.2 := ch']> s.1,
            if cleanupChans && bool_decide (size (Pins ch') < 2)
            then s.2 ++ [pc.2] else s.2)
       end.

(** [DeleteNode].  [rem] holds pointers: [DeleteChannel] sees each marked
    channel as the first loop left it, also when the channel is marked twice
    or was already taken out of the registry, hence the marked keys are
    resolved in the registry as it is after the first loop. *)
Definition DeleteNode (g : Graph) (n : Node) (cleanupChans : bool) : option Graph :=
  let s := foldl (unwire_pin (NodeName n) cleanupChans) (Channels g, [])
                 (map_to_list (Connections n)) in
  let g1 := mkGraph (delete (NodeName n) (Nodes g)) s.1 (types g) in
  for_each DeleteChannel (omap (λ cn, s.1 !! cn) s.2) g1.

(** ** RefreshChannelsPins *)

(** First loop: [ch.Pins = make(map[NodePin]struct{})] for every channel. *)
Definition reset_caches (chans : gmap string Channel) : gmap string Channel :=
  set_Pins (λ _, ∅) <$> chans.

(** Body of the inner loop of the second loop, on the connection entry
    [(p, co)] of the node named [name]. *)
Definition add_connection (name : string) (chans : gmap string Channel)
    (pc : string * string) : gmap string Channel :=
  match chans !! pc.2 with
  | None => chans
  | Some ch => <[pc.2 := AddPin ch name pc.1]> chans
  end.

Definition add_node_pins (chans : gmap string Channel) (kn : string * Node)
  : gmap string Channel :=
  foldl (add_connection (NodeName kn.2)) chans (map_to_list (Connections kn.2)).

(** The first two loops: the caches as rebuilt from the connections. *)
Definition rebuild_caches (g : Graph) : Graph :=
  set_Channels
    (λ chans, foldl add_node_pins (reset_caches chans) (map_to_list (Nodes g))) g.

(** Body of the third loop at the registry key [k].  The loop ranges over a
    map that [DeleteChannel] shrinks: an entry removed before it is reached
    is not produced. *)
Definition prune_channel (g : Graph) (k : string) : option Graph :=
  match Channels g !! k with
  | None => Some g
  | Some ch => if decide (size (Pins ch) < 2) then DeleteChannel g ch else Some g
  end.

Definition RefreshChannelsPins (g : Graph) : option Graph :=
  let g1 := rebuild_caches g in
  for_each prune_channel (map_to_list (Channels g1)).*1 g1.

(** ** Well-formedness of a graph *)

(** "Each node and channel should cache it's own name" ([LoadJSON]). *)
Definition names_cached (g : Graph) : Prop :=
  map_Forall (λ k n, NodeName n = k) (Nodes g) ∧
  map_Forall (λ k c, ChanName c = k) (Channels g).

(** The sentinel is not the name of a channel. *)
Definition sentinel_free (g : Graph) : Prop := Channels g !! unconnected = None.

(** The pin caches are those [RefreshChannelsPins] builds. *)
Definition caches_fresh (g : Graph) : Prop :=
  Channels (rebuild_caches g) = Channels g.

(** The pins wired to the channel [k] according to the connection maps. *)
Definition wired (g : Graph) (k : string) (np : NodePin) : Prop :=
  ∃ key n, Nodes g !! key = Some n ∧ np_Node np = NodeName n ∧
           Connections n !! np_Pin np = Some k.

(** The same set, computed: the pins a list of connection entries of the
    node named [name] wires to [k], and their union over the nodes. *)
Definition conn_pins (name k : string) (cs : list (string * string))
  : list NodePin :=
  omap (λ pc : string * string,
          if decide (pc.2 = k) then Some (mkNodePin name pc.1) else None) cs.

Definition node_wired_pins (k : string) (n : Node) : gset NodePin :=
  list_to_set (conn_pins (NodeName n) k (map_to_list (Connections n))).

Definition wired_pins (g : Graph) (k : string) : gset NodePin :=
  ⋃ (node_wired_pins k <$> (map_to_list (Nodes g)).*2).

(** The pins of the channels among [ks] that the third loop of
    [RefreshChannelsPins] deletes. *)
Definition doomed (chans : gmap string Channel) (ks : list string)
  : gset NodePin :=
  ⋃ (omap (λ k, ch ← chans !! k;
                 if decide (size (Pins ch) < 2) then Some (Pins ch) else None) ks).

(** The cache of a channel without the pins of the node [name]. *)
Definition without_node (name : string) (c : Channel) : Channel :=
  set_Pins (filter (λ np, np_Node np ≠ name)) c.

(** The connections of the node under key [k] after the pins [X] were
    disconnected. *)
Definition pins_of (X : gset NodePin) (k : string) : gset string :=
  set_omap (λ np, if decide (np_Node np = k) then Some (np_Pin np) else None) X.

Definition disconnected (X : gset NodePin) (k : string) (n : Node) : Node :=
  set_Connections (λ cs, gset_to_gmap unconnected (pins_of X k) ∪ cs) n.

Definition disconnect_all (X : gset NodePin) (nodes : gmap string Node)
  : gmap string Node :=
  map_imap (λ k n, Some (disconnected X k n)) nodes.

(** The node [n] with every connection entry that names no channel of [g]
    replaced by the sentinel. *)
Definition dangling_as_unconnected (g : Graph) (n : Node) : Node :=
  set_Connections
    (fmap (λ cn, if decide (is_Some (Channels g !! cn)) then cn else unconnected))
    n.

(** The graph [DeleteNode] leaves once the node is out of every cache and out
    of the registry, before any marked channel is deleted. *)
Definition unwired (g : Graph) (n : Node) : Graph :=
  mkGraph (delete (NodeName n) (Nodes g))
          (without_node (NodeName n) <$> Channels g) (types g).

(** What [RefreshChannelsPins] computes on a graph whose objects cache their
    names. *)
Definition refreshed (g : Graph) : Graph :=
  let g1 := rebuild_caches g in
  mkGraph (disconnect_all (doomed (Channels g1) (map_to_list (Channels g1)).*1)
                          (Nodes g))
          (filter (λ kc : string * Channel, 2 ≤ size (Pins kc.2))
          (Channels g1))
          (types g).

(** ** Type inference *)

(** The errors [InferTypes] returns: a [*TypeIncompatibilityError] (its
    [Source] can be nil) or an error of package [source] handed on as it
    is. *)
Inductive Error :=
  | TypeIncompatibilityError (Summary : string) (Source : option SError)
  | SourceError (err : SError).

(** Outcomes of the inference pass: a result, a returned error, a panic
    (nil dereference), or the loop bound of the embedding reached. *)
Inductive outcome (A : Type) :=
  | Ok (a : A)
  | Raise (err : Error)
  | Panic
  | OutOfFuel.
Global Arguments Ok {A} a.
Global Arguments Raise {A} err.
Global Arguments Panic {A}.
Global Arguments OutOfFuel {A}.

Global Instance outcome_ret : MRet outcome := @Ok.
Global Instance outcome_bind : MBind outcome := λ A B f x,
  match x with
  | Ok a => f a
  | Raise err => Raise err
  | Panic => Panic
  | OutOfFuel => OutOfFuel
  end.

Global Instance outcome_fmap : FMap outcome := λ A B f x,
  match x with
  | Ok a => Ok (f a)
  | Raise err => Raise err
  | Panic => Panic
  | OutOfFuel => OutOfFuel
  end.

(** A loop whose body can return an error or panic. *)
Fixpoint for_range {A S : Type} (body : S → A → outcome S) (l : list A) (s : S)
  : outcome S :=
  match l with
  | [] => Ok s
  | x :: l' => s' ← body s x; for_range body l' s'
  end.

(** The pin-type object of pin [r]: [g.Nodes[r.Node].pinTypes[r.Pin]]. *)
Definition getPinType (g : Graph) (r : NodePin) : option SType :=
  n ← Nodes g !! np_Node r; pinTypes n !! np_Pin r.

(** In-place update of the pin-type object of pin [r]. *)
Definition setPinType (r : NodePin) (t : SType) (g : Graph) : Graph :=
  set_Nodes (alter (set_pinTypes <[np_Pin r := t]>) (np_Node r)) g.

(** The body of the loop of [applyTypeParams] on the pin [pn] with type [pt];
    the state is [n.pinTypes] and [next].  [n.Connections[pn]] is [""] when
    the pin has no entry. *)
Definition refine_pin (conns : gmap string string) (tys : gmap TypeParam SType)
    (s : gmap string SType * gset string) (pp : string * SType)
  : outcome (gmap string SType * gset string) :=
  match Refine tys pp.2 with
  | inl err => Raise (SourceError err)
  | inr (pt', changed) =>
      let pts := <[pp.1 := pt']> s.1 in
      if negb changed then Ok (pts, s.2)
      else
        let ch := default "" (conns !! pp.1) in
        if decide (ch = "" ∨ ch = unconnected) then Ok (pts, s.2)
        else Ok (pts, {[ch]} ∪ s.2)
  end.

(** [applyTypeParams]: the node with its pin types refined, and [next]. *)
Definition applyTypeParams (n : Node) (tys : gmap TypeParam SType)
  : outcome (Node * gset string) :=
  s ← for_range (refine_pin (Connections n) tys) (map_to_list (pinTypes n))
                (pinTypes n, ∅);
  Ok (set_pinTypes (λ _, s.1) n, s.2).

(** [g.Channels[cn]] as a pointer: nil when [cn] names no channel. *)
Definition chan_ptr (g : Graph) (cn : string) : option string :=
  if decide (is_Some (Channels g !! cn)) then Some cn else None.

(** The body of the loop of [inferChannelType] for the channel under key [c]
    on the pin [np]; the state is the graph and [next].

    The result of [g.types.Infer] is discarded, and the [err] tested after
    it is the named result of the function, which is nil at that point: the
    branch returning "channel connected to incompatible types" is never
    taken.  [c.Type] always points to a pin-type object of the pass, the case
    [getPinType g r = None] has no counterpart in Go. *)
Definition infer_pin (c : string) (s : Graph * gset (option string))
    (np : NodePin) : outcome (Graph * gset (option string)) :=
  let g := s.1 in
  match Nodes g !! np_Node np, Channels g !! c with
  | Some n, Some ch =>
      let ptype := pinTypes n !! np_Pin np in
      match ChanType ch with
      | None =>
          let adopted := match ptype with Some _ => Some np | None => None end in
          Ok (set_Channels <[c := set_ChanType adopted ch]> g, {[Some c]} ∪ s.2)
      | Some r =>
          match getPinType g r with
          | None => Panic
          | Some ctype =>
              let tys := (Infer (types g) ctype ptype).1 in
              match Refine tys ctype with
              | inl err =>
                  Raise (TypeIncompatibilityError
                           "channel type refinement failed" (Some err))
              | inr (ctype', _) =>
                  let g1 := setPinType r ctype' (set_types tys g) in
                  match Nodes g1 !! np_Node np with
                  | None => Panic
                  | Some n1 =>
                      '(n2, nxcn) ← applyTypeParams n1 tys;
                      Ok (set_Nodes <[np_Node np := n2]> g1,
                          set_map (chan_ptr g) nxcn ∪ s.2)
                  end
              end
          end
      end
  | _, _ => Panic
  end.

(** [inferChannelType] on a channel pointer ([None] is nil). *)
Definition inferChannelType (g : Graph) (c : option string)
  : outcome (Graph * gset (option string)) :=
  match c with
  | None => Panic
  | Some k =>
      match Channels g !! k with
      | None => Panic
      | Some ch => for_range (infer_pin k) (elements (Pins ch)) (g, ∅)
      end
  end.

(** The flood-fill loop [for len(q) > 0 { ... }]; [fuel] bounds the number
    of iterations. *)
Fixpoint flood (fuel : nat) (q : list (option string)) (g : Graph)
  : outcome Graph :=
  match q with
  | [] => Ok g
  | c :: q' =>
      match fuel with
      | 0 => OutOfFuel
      | S fuel' =>
          '(g', next) ← inferChannelType g c;
          flood fuel' (q' ++ elements next) g'
      end
  end.

(** [pt, err := source.NewType(n.Name, p.Type)] for one declared pin. *)
Definition new_pin_type (name : string) (pts : gmap string SType)
    (pd : string * string) : outcome (gmap string SType) :=
  match NewType name pd.2 with
  | inl err => Raise (SourceError err)
  | inr pt => Ok (<[pd.1 := pt]> pts)
  end.

(** The body of the first loop of [InferTypes]. *)
Definition reset_node (nodes : gmap string Node) (kn : string * Node)
  : outcome (gmap string Node) :=
  pts ← for_range (new_pin_type (NodeName kn.2)) (map_to_list (PartPins kn.2)) ∅;
  Ok (<[kn.1 := set_pinTypes (λ _, pts) kn.2]> nodes).

(** [InferTypes] up to the flood fill: a fresh inference map, pin types
    instantiated from the declarations, channel types reset. *)
Definition InferTypes_setup (g : Graph) : outcome Graph :=
  nodes ← for_range reset_node (map_to_list (Nodes g)) (Nodes g);
  Ok (mkGraph nodes (set_ChanType None <$> Channels g) ∅).

(** [c.Type.Lithify(typeEmptyInterface)]; on a nil [c.Type] nothing is
    changed. *)
Definition lithify_channel (g : Graph) (kc : string * Channel) : Graph :=
  match ChanType kc.2 with
  | None => g
  | Some r =>
      match getPinType g r with
      | Some t => setPinType r (Lithify typeEmptyInterface t) g
      | None => g
      end
  end.

Definition lithify_node (n : Node) : Node :=
  set_typeParams (λ _, ∅) (set_pinTypes (fmap (Lithify typeEmptyInterface)) n).

(** [g.Nodes[tp.Scope].typeParams[tp.Ident] = typ.String()]. *)
Definition publish (nodes : gmap string Node) (b : TypeParam * SType)
  : outcome (gmap string Node) :=
  match nodes !! Scope b.1 with
  | None => Panic
  | Some n =>
      Ok (<[Scope b.1 := set_typeParams <[Ident b.1 := TypeString b.2]> n]> nodes)
  end.

(** [InferTypes] after the flood fill. *)
Definition InferTypes_finish (g : Graph) : outcome Graph :=
  let g1 := foldl lithify_channel g (map_to_list (Channels g)) in
  nodes ← for_range publish (map_to_list (types g1)) (lithify_node <$> Nodes g1);
  Ok (mkGraph nodes (Channels g1) (types g1)).

(** [InferTypes]: [Ok g'] when it returns nil, leaving the graph [g'];
    [Raise err] when it returns [err]. *)
Definition InferTypes (fuel : nat) (g : Graph) : outcome Graph :=
  g1 ← InferTypes_setup g;
  g2 ← flood fuel (Some <$> (map_to_list (Channels g1)).*1) g1;
  InferTypes_finish g2.

(** What code generation reads after a pass: the type of a channel, the type
    of a pin, the bindings of a node; and the number of free identifiers of
    all pin types, the quantity the termination argument counts. *)
Definition channel_type (g : Graph) (c : string) : option SType :=
  ch ← Channels g !! c; r ← ChanType ch; getPinType g r.

Definition pin_type (g : Graph) (node pin : string) : option SType :=
  getPinType g (mkNodePin node pin).

Definition bindings (g : Graph) (node : string) : option (gmap string string) :=
  typeParams <$> Nodes g !! node.

Definition sum_map {K A} `{Countable K} (f : A → nat) (m : gmap K A) : nat :=
  map_fold (λ _ x acc, f x + acc) 0 m.

Definition total_free (g : Graph) : nat :=
  sum_map (λ n, sum_map free_idents (pinTypes n)) (Nodes g).

(** The channels that have not adopted a type yet. *)
Definition unset_channels (g : Graph) : nat :=
  sum_map (λ c, match ChanType c with Some _ => 0 | None => 1 end) (Channels g).

(** What a pass never changes: names, declarations, connections, the pins
    that have a type, the registry of channels and their caches. *)
Definition node_skel (n : Node) :=
  (NodeName n, PartPins n, Connections n, dom (pinTypes n)).

Definition chan_skel (c : Channel) := (ChanName c, Pins c).

Definition skeleton (g : Graph) :=
  (node_skel <$> Nodes g, chan_skel <$> Channels g).

(** A pin of a registered node is declared by the part of the node (the
    connection maps are kept to the pins of the part); it has a pin type. *)
Definition pin_declared (g : Graph) (np : NodePin) : Prop :=
  match Nodes g !! np_Node np with
  | Some n => np_Pin np ∈ dom (PartPins n)
  | None => True
  end.

Definition pin_typed (g : Graph) (np : NodePin) : Prop :=
  match Nodes g !! np_Node np with
  | Some n => np_Pin np ∈ dom (pinTypes n)
  | None => True
  end.

Global Instance pin_declared_dec g np : Decision (pin_declared g np).
Proof. unfold pin_declared. destruct (Nodes g !! np_Node np); apply _. Defined.

Global Instance pin_typed_dec g np : Decision (pin_typed g np).
Proof. unfold pin_typed. destruct (Nodes g !! np_Node np); apply _. Defined.

(** Every cached pin is declared; every cached pin has a type. *)
Definition pins_declared (g : Graph) : Prop :=
  map_Forall (λ _ ch, set_Forall (pin_declared g) (Pins ch)) (Channels g).

Definition pins_typed (g : Graph) : Prop :=
  map_Forall (λ _ ch, set_Forall (pin_typed g) (Pins ch)) (Channels g).

(** The pin types [InferTypes] instantiates for a node. *)
Definition fresh_pin_types (n : Node) : outcome (gmap string SType) :=
  for_range (new_pin_type (NodeName n)) (map_to_list (PartPins n)) ∅.

(** A graph without its transient type state. *)
Definition forget_node (n : Node) : Node :=
  set_typeParams (λ _, ∅) (set_pinTypes (λ _, ∅) n).

Definition forget_types (g : Graph) : Graph :=
  mkGraph (forget_node <$> Nodes g) (set_ChanType None <$> Channels g) ∅.

Definition clear_params (g : Graph) : Graph :=
  set_Nodes (fmap (set_typeParams (λ _, ∅))) g.


(** The potential of the flood fill: free identifiers plus channels without
    a type. *)
Definition potential (g : Graph) : nat := total_free g + unset_channels g.

(** A number of iterations that suffices for the flood fill of [g]. *)
Definition fuel_bound (g : Graph) : nat :=
  match InferTypes_setup g with
  | Ok g1 => 2 * size (Channels g) + total_free g1 + 1
  | _ => 0
  end.

(** A node without the declaration and the type of its pin [p]; a graph
    without the declaration and the type of the pin [r]. *)
Definition erase_node (p : string) (n : Node) : Node :=
  mkNode (NodeName n) (delete p (PartPins n)) (Connections n)
         (delete p (pinTypes n)) (typeParams n).

Definition erase_pin (r : NodePin) (g : Graph) : Graph :=
  set_Nodes (alter (erase_node (np_Pin r)) (np_Node r)) g.

(** What [erase_pin r] does to the node under key [k]. *)
Definition erase_at (r : NodePin) (k : string) (n : Node) : Node :=
  if decide (k = np_Node r) then erase_node (np_Pin r) n else n.

(** The pin [r] is connected to nothing: its node, if registered, maps it to
    the sentinel or to no channel name at all. *)
Definition pin_unconnected (g : Graph) (r : NodePin) : Prop :=
  match Nodes g !! np_Node r with
  | Some n => default "" (Connections n !! np_Pin r) = ""
              ∨ default "" (Connections n !! np_Pin r) = unconnected
  | None => True
  end.

(** The pin [r] is in no pin cache, and no channel type points to it. *)
Definition pin_uncached (g : Graph) (r : NodePin) : Prop :=
  map_Forall (λ _ ch, (r ∉ Pins ch) ∧ ChanType ch ≠ Some r) (Channels g).

Definition pin_not_cached (g : Graph) (r : NodePin) : Prop :=
  map_Forall (λ _ ch, r ∉ Pins ch) (Channels g).

End graph.

(** ** The pass under any iteration order

    Go leaves the order in which [range] visits the entries of a map
    unspecified, and two executions of one loop can visit them in different
    orders.  The definitions above visit them in the order of [map_to_list]
    and [elements].  The definitions below take the order of every loop over
    a map from a [Schedule].

    [permute code l] is the order the code [code] gives to the entries [l]:
    the entry at index [i] first, then the others as the rest of the code
    orders them; the entries left when the code ends, or when an index is
    out of range, keep their order.  Every code gives a permutation of [l],
    and every permutation of [l] is given by a code. *)
Fixpoint permute {A : Type} (code : list nat) (l : list A) : list A :=
  match code with
  | [] => l
  | i :: code' =>
      match l !! i with
      | Some x => x :: permute code' (delete i l)
      | None => l
      end
  end.

(** The orders of the loops of one call of [InferTypes].  Every loop over a
    map runs at most once for each argument of its field:
    - [order_nodes]: [for _, n := range g.Nodes] of the first loop;
    - [order_decls k]: [for pn, p := range pins] for the node under key [k];
    - [order_queue]: [for _, c := range g.Channels] that fills the queue;
    - [order_pins i]: [for np := range c.Pins] in the worklist step number [i];
    - [order_refine i np]: [for pn, pt := range n.pinTypes] of the call of
      [applyTypeParams] made for the pin [np] in step number [i];
    - [order_next i]: [for c := range next] in step number [i];
    - [order_lithify]: [for _, c := range g.Channels] after the flood fill;
    - [order_publish]: [for tp, typ := range g.types].
    The loop [for cn := range nxcn] inserts into a set, and the loop over the
    nodes after the flood fill updates each node on its own. *)
Record Schedule := mkSchedule {
  order_nodes : list nat;
  order_decls : string → list nat;
  order_queue : list nat;
  order_pins : nat → list nat;
  order_refine : nat → NodePin → list nat;
  order_next : nat → list nat;
  order_lithify : list nat;
  order_publish : list nat;
}.

(** The schedule of the definitions above: every loop in the order of
    [map_to_list] and [elements]. *)
Definition in_order : Schedule :=
  mkSchedule [] (λ _, []) [] (λ _, []) (λ _ _, []) (λ _, []) [] [].

(** The schedule that differs from [in_order] in the loops over [c.Pins]
    only, which start with the second pin. *)
Definition second_pin_first : Schedule :=
  mkSchedule [] (λ _, []) [] (λ _, [1]) (λ _ _, []) (λ _, []) [] [].

Section any_order.
Context {Src : Source}.

(** [applyTypeParams], its loop in the order [code]. *)
Definition applyTypeParams_in (code : list nat) (n : Node)
    (tys : gmap TypeParam SType) : outcome (Node * gset string) :=
  s ← for_range (refine_pin (Connections n) tys)
                (permute code (map_to_list (pinTypes n))) (pinTypes n, ∅);
  Ok (set_pinTypes (λ _, s.1) n, s.2).

(** The body of the loop of [inferChannelType], as [infer_pin], with the
    order of the loop of [applyTypeParams] taken from [refine_order]. *)
Definition infer_pin_in (refine_order : NodePin → list nat) (c : string)
    (s : Graph * gset (option string)) (np : NodePin)
  : outcome (Graph * gset (option string)) :=
  let g := s.1 in
  match Nodes g !! np_Node np, Channels g !! c with
  | Some n, Some ch =>
      let ptype := pinTypes n !! np_Pin np in
      match ChanType ch with
      | None =>
          let adopted := match ptype with Some _ => Some np | None => None end in
          Ok (set_Channels <[c := set_ChanType adopted ch]> g, {[Some c]} ∪ s.2)
      | Some r =>
          match getPinType g r with
          | None => Panic
          | Some ctype =>
              let tys := (Infer (types g) ctype ptype).1 in
              match Refine tys ctype with
              | inl err =>
                  Raise (TypeIncompatibilityError
                           "channel type refinement failed" (Some err))
              | inr (ctype', _) =>
                  let g1 := setPinType r ctype' (set_types tys g) in
                  match Nodes g1 !! np_Node np with
                  | None => Panic
                  | Some n1 =>
                      '(n2, nxcn) ← applyTypeParams_in (refine_order np) n1 tys;
                      Ok (set_Nodes <[np_Node np := n2]> g1,
                          set_map (chan_ptr g) nxcn ∪ s.2)
                  end
              end
          end
      end
  | _, _ => Panic
  end.

(** [inferChannelType], its loop over [c.Pins] in the order [pins_order]. *)
Definition inferChannelType_in (pins_order : list nat)
    (refine_order : NodePin → list nat) (g : Graph) (c : option string)
  : outcome (Graph * gset (option string)) :=
  match c with
  | None => Panic
  | Some k =>
      match Channels g !! k with
      | None => Panic
      | Some ch =>
          for_range (infer_pin_in refine_order k)
                    (permute pins_order (elements (Pins ch))) (g, ∅)
      end
  end.

(** The flood fill from its step number [i] on. *)
Fixpoint flood_in (σ : Schedule) (i fuel : nat) (q : list (option string))
    (g : Graph) : outcome Graph :=
  match q with
  | [] => Ok g
  | c :: q' =>
      match fuel with
      | 0 => OutOfFuel
      | S fuel' =>
          '(g', next) ← inferChannelType_in (order_pins σ i) (order_refine σ i) g c;
          flood_in σ (S i) fuel'
                   (q' ++ permute (order_next σ i) (elements next)) g'
      end
  end.

(** The pin types instantiated for a node, its declarations in the order
    [code]. *)
Definition fresh_pin_types_in (code : list nat) (n : Node)
  : outcome (gmap string SType) :=
  for_range (new_pin_type (NodeName n))
            (permute code (map_to_list (PartPins n))) ∅.

Definition reset_node_in (decls_order : string → list nat)
    (nodes : gmap string Node) (kn : string * Node)
  : outcome (gmap string Node) :=
  pts ← fresh_pin_types_in (decls_order kn.1) kn.2;
  Ok (<[kn.1 := set_pinTypes (λ _, pts) kn.2]> nodes).

Definition InferTypes_setup_in (σ : Schedule) (g : Graph) : outcome Graph :=
  nodes ← for_range (reset_node_in (order_decls σ))
                    (permute (order_nodes σ) (map_to_list (Nodes g))) (Nodes g);
  Ok (mkGraph nodes (set_ChanType None <$> Channels g) ∅).

Definition InferTypes_finish_in (σ : Schedule) (g : Graph) : outcome Graph :=
  let g1 := foldl lithify_channel g
                  (permute (order_lithify σ) (map_to_list (Channels g))) in
  nodes ← for_range publish (permute (order_publish σ) (map_to_list (types g1)))
                    (lithify_node <$> Nodes g1);
  Ok (mkGraph nodes (Channels g1) (types g1)).

(** [InferTypes] under the schedule [σ]. *)
Definition InferTypes_in (σ : Schedule) (fuel : nat) (g : Graph)
  : outcome Graph :=
  g1 ← InferTypes_setup_in σ g;
  g2 ← flood_in σ 0 fuel
          (Some <$> (permute (order_queue σ) (map_to_list (Channels g1))).*1) g1;
  InferTypes_finish_in σ g2.

End any_order.

(** ** A model of package [source]

    Modelled from the spec: a type is "an expression tree that may contain
    free, per-node-scoped type-parameter identifiers"; unification binds "any
    free identifier on either side to a concrete sub-expression or to the
    other side's identifier" and reports "a conflict between two concrete,
    incompatible type names"; refinement substitutes the known bindings;
    lithification forces what is still free to the default type.  In a
    declared type a parameter is written [$Ident] (as in the graph documents,
    e.g. ["input_type": "$AnyIn"]); [[]T] and [*T] are the composite types
    of the model. *)
Inductive texpr :=
  | TName (name : string)
  | TParam (tp : TypeParam)
  | TCon (ctor : string) (elem : texpr).

Global Instance texpr_eq_dec : EqDecision texpr.
Proof. solve_decision. Defined.

Fixpoint texpr_parse (scope : string) (s : string) : string + texpr :=
  match s with
  | EmptyString => inl "empty type expression"
  | String c s' =>
      if Ascii.eqb c "$"%char then
        if decide (s' = "") then inl "empty type parameter"
        else inr (TParam (mkTypeParam scope s'))
      else if Ascii.eqb c "*"%char then
        match texpr_parse scope s' with
        | inl err => inl err
        | inr t => inr (TCon "*" t)
        end
      else
        match s' with
        | String c' s'' =>
            if Ascii.eqb c "["%char && Ascii.eqb c' "]"%char then
              match texpr_parse scope s'' with
              | inl err => inl err
              | inr t => inr (TCon "[]" t)
              end
            else inr (TName s)
        | EmptyString => inr (TName s)
        end
  end.

Fixpoint texpr_free (t : texpr) : nat :=
  match t with
  | TName _ => 0
  | TParam _ => 1
  | TCon _ elem => texpr_free elem
  end.

(** Substitution of the bindings that are concrete. *)
Fixpoint texpr_subst (m : gmap TypeParam texpr) (t : texpr) : texpr :=
  match t with
  | TName _ => t
  | TParam tp =>
      match m !! tp with
      | Some u => if decide (texpr_free u = 0) then u else t
      | None => t
      end
  | TCon ctor elem => TCon ctor (texpr_subst m elem)
  end.

Fixpoint texpr_unify (m : gmap TypeParam texpr) (p q : texpr)
  : gmap TypeParam texpr * option string :=
  match p, q with
  | TParam a, TParam b =>
      if decide (a = b) then (m, None) else (<[a := q]> m, None)
  | TParam a, _ => (<[a := q]> m, None)
  | _, TParam b => (<[b := p]> m, None)
  | TName x, TName y =>
      if decide (x = y) then (m, None) else (m, Some "mismatched type names")
  | TCon c p', TCon d q' =>
      if decide (c = d) then texpr_unify m p' q'
      else (m, Some "mismatched type constructors")
  | _, _ => (m, Some "mismatched type shapes")
  end.

Definition texpr_infer (m : gmap TypeParam texpr) (p : texpr) (q : option texpr)
  : gmap TypeParam texpr * option string :=
  match q with
  | None => (m, Some "nil type")
  | Some q => texpr_unify m (texpr_subst m p) (texpr_subst m q)
  end.

Definition texpr_refine (m : gmap TypeParam texpr) (t : texpr)
  : string + texpr * bool :=
  inr (texpr_subst m t, bool_decide (texpr_subst m t ≠ t)).

Fixpoint texpr_lithify (def t : texpr) : texpr :=
  match t with
  | TName _ => t
  | TParam _ => def
  | TCon ctor elem => TCon ctor (texpr_lithify def elem)
  end.

Fixpoint texpr_string (t : texpr) : string :=
  match t with
  | TName name => name
  | TParam tp => String "$"%char (Ident tp)
  | TCon ctor elem => String.append ctor (texpr_string elem)
  end.

Definition texpr_source : Source := {|
  SType := texpr;
  SError := string;
  NewType := texpr_parse;
  typeEmptyInterface := TName "interface{}";
  Infer := texpr_infer;
  Refine := texpr_refine;
  Lithify := texpr_lithify;
  TypeString := texpr_string;
  free_idents := texpr_free;
|}.

(** ** Example graphs *)

(** A node as the loader leaves it: no pin types, no bindings yet. *)
Definition node (name : string) (pins conns : list (string * string))
  : @Node texpr_source :=
  mkNode name (list_to_map pins) (list_to_map conns) ∅ ∅.

Definition channel (name : string) (pins : list (string * string))
  : Channel :=
  mkChannel name (list_to_set ((λ p, mkNodePin p.1 p.2) <$> pins)) None.

Definition graph (nodes : list (@Node texpr_source))
    (chans : list Channel) : @Graph texpr_source :=
  mkGraph (list_to_map ((λ n, (NodeName n, n)) <$> nodes))
          (list_to_map ((λ c, (ChanName c, c)) <$> chans)) ∅.

(** Scenario A: a generic output wired to an [int] input. *)
Definition generic_to_int : Graph :=
  graph [node "X" [("out", "$T")] [("out", "c")];
         node "Y" [("in", "int")] [("in", "c")]]
        [channel "c" [("X", "out"); ("Y", "in")]].

(** Two pins of one channel declared [int] and [string]. *)
Definition int_to_string : Graph :=
  graph [node "X" [("out", "int")] [("out", "c")];
         node "Y" [("in", "string")] [("in", "c")]]
        [channel "c" [("X", "out"); ("Y", "in")]].

(** Scenario C: a broadcaster fed [int], one output wired, three outputs
    unconnected. *)
Definition broadcaster : Graph :=
  graph [node "S" [("output", "int")] [("output", "feed")];
         node "B" [("input", "$T"); ("output0", "$T"); ("output1", "$T");
                   ("output2", "$T"); ("output3", "$T")]
                  [("input", "feed"); ("output0", "out");
                   ("output1", "nil"); ("output2", "nil"); ("output3", "nil")];
         node "R" [("in", "$U")] [("in", "out")]]
        [channel "feed" [("S", "output"); ("B", "input")];
         channel "out" [("B", "output0"); ("R", "in")]].

(** The same broadcaster with its unconnected [output2] declared [string]. *)
Definition broadcaster_string : Graph :=
  graph [node "S" [("output", "int")] [("output", "feed")];
         node "B" [("input", "$T"); ("output0", "$T"); ("output1", "$T");
                   ("output2", "string"); ("output3", "$T")]
                  [("input", "feed"); ("output0", "out");
                   ("output1", "nil"); ("output2", "nil"); ("output3", "nil")];
         node "R" [("in", "$U")] [("in", "out")]]
        [channel "feed" [("S", "output"); ("B", "input")];
         channel "out" [("B", "output0"); ("R", "in")]].

(** Scenario D: a channel wired to one pin only, next to a sound one. *)
Definition one_pin_channel : Graph :=
  graph [node "X" [("out", "int")] [("out", "c")];
         node "Y" [("in", "int"); ("aux", "int")] [("in", "c"); ("aux", "d")];
         node "Z" [("in", "int")] [("in", "ghost")]]
        [channel "c" [("X", "out"); ("Y", "in")];
         channel "d" [("Y", "aux")]].

(** A generic output wired to a generic input. *)
Definition generic_to_generic : Graph :=
  graph [node "X" [("out", "$T")] [("out", "c")];
         node "Y" [("in", "$U")] [("in", "c")]]
        [channel "c" [("X", "out"); ("Y", "in")]].

(** A node with two pins connected to nothing, in a graph without
    channels. *)
Definition no_channels : Graph :=
  graph [node "X" [("in", "int"); ("out", "$T")] [("in", "nil"); ("out", "nil")]]
        [].

(** A channel registered under the name of the sentinel: the connection
    entries ["nil"] of [A.a] and [B.b] name it, and its cache is the one
    [RefreshChannelsPins] builds.  [ty] is the declared type of [A.a]. *)
Definition sentinel_channel (ty : string) : Graph :=
  graph [node "A" [("a", ty)] [("a", "nil")];
         node "B" [("b", "$T")] [("b", "nil")]]
        [channel "nil" [("A", "a"); ("B", "b")]].

(** A channel under the name of the sentinel next to a channel wired to one
    pin. *)
Definition sentinel_refresh : Graph :=
  graph [node "A" [("a", "int")] [("a", "c")];
         node "B" [("b", "int")] [("b", "nil")];
         node "C" [("c", "int")] [("c", "nil")]]
        [channel "c" [("A", "a")];
         channel "nil" [("B", "b"); ("C", "c")]].

(** A pin cache that is out of date: [A.a] is connected to nothing and still
    in the cache of [c]. *)
Definition stale_cache : Graph :=
  graph [node "A" [("a", "int")] [("a", "nil")];
         node "B" [("b", "int")] [("b", "c")];
         node "C" [("c", "int")] [("c", "c")]]
        [channel "c" [("A", "a"); ("B", "b"); ("C", "c")]].

(** A channel registered under the key [c] whose cached name is [d], wired
    to two pins and wired to one pin. *)
Definition misnamed_pair : Graph :=
  mkGraph (list_to_map [("A", node "A" [("a", "int")] [("a", "c")]);
                        ("B", node "B" [("b", "int")] [("b", "c")])])
          (list_to_map [("c", channel "d" [("A", "a"); ("B", "b")])]) ∅.

Definition misnamed_single : Graph :=
  mkGraph (list_to_map [("A", node "A" [("a", "int")] [("a", "c")])])
          (list_to_map [("c", channel "d" [("A", "a")])]) ∅.

(** "Each worklist step either strictly reduces the number of free
    type-parameter identifiers system-wide or proves incompatibility." *)
Definition step_makes_progress `{Src : Source} (g : Graph) (c : option string)
  : Prop :=
  match inferChannelType g c with
  | Ok (g', _) => total_free g' < total_free g
  | Raise (TypeIncompatibilityError _ _) => True
  | _ => False
  end.

(** The graph an operation leaves when it returns ([g] itself otherwise). *)
Definition result_or {A} `{Src : Source} (d : A) (r : outcome A) : A :=
  match r with Ok a => a | _ => d end.

(** The graph a pass starts its flood fill from, the graph one worklist step
    leaves, and the graph a pass leaves. *)
Definition after_setup `{Src : Source} (g : Graph) : Graph :=
  result_or g (InferTypes_setup g).

Definition after_step `{Src : Source} (g : Graph) (c : option string) : Graph :=
  result_or g (fst <$> inferChannelType g c).

Definition after_pass `{Src : Source} (fuel : nat) (g : Graph) : Graph :=
  result_or g (InferTypes fuel g).

Definition after_pass_in `{Src : Source} (σ : Schedule) (fuel : nat) (g : Graph)
  : Graph :=
  result_or g (InferTypes_in σ fuel g).

(** The graph [RefreshChannelsPins] leaves and the graph [DeleteNode] leaves
    ([g] itself when they panic). *)
Definition after_refresh `{Src : Source} (g : Graph) : Graph :=
  default g (RefreshChannelsPins g).

Definition after_delete `{Src : Source} (g : Graph) (n : Node)
    (cleanupChans : bool) : Graph :=
  default g (DeleteNode g n cleanupChans).

Global Instance Node_eq_dec `{Src : Source} `{!EqDecision SType}
  : EqDecision Node.
Proof. solve_decision. Defined.

Global Instance Channel_eq_dec : EqDecision Channel.
Proof. solve_decision. Defined.

Global Instance Graph_eq_dec `{Src : Source} `{!EqDecision SType}
  : EqDecision Graph.
Proof. solve_decision. Defined.

Global Instance Error_eq_dec `{Src : Source} `{!EqDecision SError}
  : EqDecision Error.
Proof. solve_decision. Defined.

Global Instance outcome_eq_dec `{Src : Source} `{!EqDecision SError}
    `{!EqDecision A} : EqDecision (outcome A).
Proof. solve_decision. Defined.

Global Instance names_cached_dec `{Src : Source} (g : Graph)
  : Decision (names_cached g).
Proof. unfold names_cached. apply _. Defined.

Global Instance sentinel_free_dec `{Src : Source} (g : Graph)
  : Decision (sentinel_free g).
Proof. unfold sentinel_free. apply _. Defined.

Global Instance caches_fresh_dec `{Src : Source} (g : Graph)
  : Decision (caches_fresh g).
Proof. unfold caches_fresh. apply _. Defined.

Global Instance pins_declared_dec `{Src : Source} (g : Graph)
  : Decision (pins_declared g).
Proof. unfold pins_declared. apply _. Defined.

Global Instance pins_typed_dec `{Src : Source} (g : Graph)
  : Decision (pins_typed g).
Proof. unfold pins_typed. apply _. Defined.

Global Instance pin_unconnected_dec `{Src : Source} (g : Graph) r
  : Decision (pin_unconnected g r).
Proof. unfold pin_unconnected. destruct (Nodes g !! np_Node r); apply _. Defined.

Global Instance pin_not_cached_dec `{Src : Source} (g : Graph) r
  : Decision (pin_not_cached g r).
Proof. unfold pin_not_cached. apply _. Defined.

(** ** Further operations of [graph.go] *)

(** ** PackageName *)

(** [strings.LastIndex(s, sep)] for a separator [sep] of the single byte [c]:
    the index of the last byte of [s] equal to [c], or -1.  [i] is the index
    of the first byte of [s], [last] the result for the bytes before it. *)
Fixpoint last_index_from (i : Z) (c : ascii) (s : string) (last : Z) : Z :=
  match s with
  | EmptyString => last
  | String a s' =>
      last_index_from (i + 1) c s' (if Ascii.eqb a c then i else last)
  end.

Definition LastIndex (s : string) (c : ascii) : Z := last_index_from 0 c s (-1).

(** The slice [s[i:]], for [0 <= i <= len(s)]. *)
Fixpoint slice_from (i : nat) (s : string) : string :=
  match i, s with
  | 0, _ => s
  | S i', String _ s' => slice_from i' s'
  | S _, EmptyString => EmptyString
  end.

(** [g.PackageName()], a function of [g.PackagePath]. *)
Definition PackageName (PackagePath : string) : string :=
  let i := LastIndex PackagePath "/"%char in
  if (i <? 0)%Z then PackagePath
  else slice_from (Z.to_nat (i + 1)) PackagePath.

(** The byte [c] occurs in [s]. *)
Fixpoint contains_byte (c : ascii) (s : string) : bool :=
  match s with
  | EmptyString => false
  | String a s' => Ascii.eqb a c || contains_byte c s'
  end.

(** ** AllImports *)

(** The import line of package [sync], with its quotes. *)
Definition sync_import : string :=
  String (ascii_of_nat 34) ("sync" +:+ String (ascii_of_nat 34) EmptyString).

Section imports.
Context {Src : Source}.

(** [Imports n] stands for [n.Part.Imports()].  A [source.StringSet] is a set
    of strings, [Add] inserts, and [Slice] lists the elements once each in
    an unspecified order. *)
Variable Imports : Node → list string.

Definition add_imports (m : gset string) (kn : string * Node) : gset string :=
  foldl (λ m i, {[i]} ∪ m) m (Imports kn.2).

Definition AllImports (g : Graph) : list string :=
  elements (foldl add_imports {[sync_import]} (map_to_list (Nodes g))).

End imports.

Section load.
Context {Src : Source}.

(** ** NewGraph and LoadJSON *)

(** [NewGraph]: no nodes, no channels, and the nil inference map. *)
Definition NewGraph : Graph := mkGraph ∅ ∅ ∅.

Definition set_NodeName (k : string) (n : Node) : Node :=
  mkNode k (PartPins n) (Connections n) (pinTypes n) (typeParams n).

Definition set_ChanName (k : string) (c : Channel) : Channel :=
  mkChannel k (Pins c) (ChanType c).

(** The graph with the name of every node and channel set to its key: what
    the two loops of [LoadJSON] leave when no object is nil. *)
Definition cache_names (g : Graph) : Graph :=
  mkGraph
    (foldl (λ nodes kn, <[kn.1 := set_NodeName kn.1 kn.2]> nodes)
           (Nodes g) (map_to_list (Nodes g)))
    (foldl (λ chans kc, <[kc.1 := set_ChanName kc.1 kc.2]> chans)
           (Channels g) (map_to_list (Channels g)))
    (types g).

(** The registries as [dec.Decode] fills them in.  The values of [g.Nodes]
    and [g.Channels] are pointers, and the JSON value [null] under a key
    leaves a nil pointer there: [None]. *)
Record Document := mkDocument {
  DocNodes : gmap string (option Node);
  DocChannels : gmap string (option Channel);
}.

(** The document of a graph: every object as it is, none nil. *)
Definition document (g : Graph) : Document :=
  mkDocument (Some <$> Nodes g) (Some <$> Channels g).

(** The bodies of [for k, c := range g.Channels { c.Name = k }] and
    [for k, n := range g.Nodes { n.Name = k }]: the assignment panics on a
    nil pointer.  The state collects the objects named so far. *)
Definition name_channel (chans : gmap string Channel)
    (kc : string * option Channel) : option (gmap string Channel) :=
  match kc.2 with
  | None => None
  | Some c => Some (<[kc.1 := set_ChanName kc.1 c]> chans)
  end.

Definition name_node (nodes : gmap string Node) (kn : string * option Node)
  : option (gmap string Node) :=
  match kn.2 with
  | None => None
  | Some n => Some (<[kn.1 := set_NodeName kn.1 n]> nodes)
  end.

(** [LoadJSON] after [dec.Decode(g)]: [decoded] is the error of the decoder
    or the registries it filled in; [g.types] is left nil. *)
Definition LoadJSON {E : Type} (decoded : E + Document) : option (E + Graph) :=
  match decoded with
  | inl err => Some (inl err)
  | inr d =>
      match for_each name_channel (map_to_list (DocChannels d)) ∅ with
      | None => None
      | Some chans =>
          match for_each name_node (map_to_list (DocNodes d)) ∅ with
          | None => None
          | Some nodes => inr <$> RefreshChannelsPins (mkGraph nodes chans ∅)
          end
      end
  end.

End load.

Section wiring.
Context {Src : Source}.

(** The wiring of a graph: the names, the declared pins and the connection
    maps of the nodes, the names and the pin caches of the channels. *)
Definition node_wiring (n : Node) := (NodeName n, PartPins n, Connections n).

Definition wiring (g : Graph) :=
  (node_wiring <$> Nodes g, chan_skel <$> Channels g).

(** Every declared pin type of every node is accepted by [source.NewType]. *)
Definition accepted (name ty : string) : bool :=
  match NewType name ty with inr _ => true | inl _ => false end.

Definition declarations_parse (g : Graph) : Prop :=
  map_Forall (λ _ n,
    map_Forall (λ _ ty, accepted (NodeName n) ty = true) (PartPins n)) (Nodes g).


(** A channel without a type none of whose cached pins has a pin type. *)
Definition untyped_at (k : string) (g : Graph) : Prop :=
  ∃ ch, Channels g !! k = Some ch ∧ ChanType ch = None ∧ Pins ch ≠ ∅ ∧
    ∀ np n, np ∈ Pins ch → Nodes g !! np_Node np = Some n →
            pinTypes n !! np_Pin np = None.

(** Every typed channel points to the pin type of a pin of its cache. *)
Definition adopted_ok (g : Graph) : Prop :=
  ∀ k ch r, Channels g !! k = Some ch → ChanType ch = Some r →
            r ∈ Pins ch ∧ is_Some (getPinType g r).

(** Every cached pin of a registered node has a pin type. *)
Definition cached_typed (g : Graph) : Prop :=
  ∀ k ch np n, Channels g !! k = Some ch → np ∈ Pins ch →
               Nodes g !! np_Node np = Some n →
               is_Some (pinTypes n !! np_Pin np).

(** The channel under the key [c] has a type. *)
Definition typed_at (c : string) (g : Graph) : Prop :=
  ∃ ch r, Channels g !! c = Some ch ∧ ChanType ch = Some r.

(** Every cached pin names a registered node. *)
Definition cached_exist (g : Graph) : Prop :=
  map_Forall (λ _ ch,
    set_Forall (λ np, is_Some (Nodes g !! np_Node np)) (Pins ch)) (Channels g).

(** Every connection entry is empty, the sentinel, or the name of a
    registered channel. *)
Definition no_dangling (g : Graph) : Prop :=
  map_Forall (λ _ n,
    map_Forall (λ _ cn, cn = "" ∨ cn = unconnected ∨ is_Some (Channels g !! cn))
               (Connections n)) (Nodes g).

(** The entries of a worklist are registered channels. *)
Definition registered (g : Graph) (c : option string) : Prop :=
  ∃ k, c = Some k ∧ is_Some (Channels g !! k).

End wiring.

(** ** Documents

    Graphs as the decoder leaves them: no cached names, no pin caches.
    [broadcast_gather] is the document [examples/broadcast_gather]; the
    pins of its Broadcast and Gather parts are typed by one type parameter
    each. *)
Definition decoded_node (pins conns : list (string * string))
  : @Node texpr_source :=
  mkNode "" (list_to_map pins) (list_to_map conns) ∅ ∅.

Definition decoded (nodes : list (string * @Node texpr_source))
    (chans : list string) : @Graph texpr_source :=
  mkGraph (list_to_map nodes)
          (list_to_map ((λ k, (k, mkChannel "" ∅ None)) <$> chans)) ∅.

Definition broadcast_gather : Graph :=
  decoded
    [("Broadcast",
      decoded_node [("input", "$T"); ("output0", "$T"); ("output1", "$T");
                    ("output2", "$T"); ("output3", "$T")]
                   [("input", "channel2"); ("output0", "channel0");
                    ("output1", "channel4"); ("output2", "nil");
                    ("output3", "nil")]);
     ("Gather",
      decoded_node [("input0", "$T"); ("input1", "$T"); ("input2", "$T");
                    ("output", "$T")]
                   [("input0", "nil"); ("input1", "channel0");
                    ("input2", "channel4"); ("output", "channel3")]);
     ("Print every input",
      decoded_node [("inputs", "$AnyIn"); ("outputs", "$AnyOut")]
                   [("inputs", "channel3"); ("outputs", "nil")]);
     ("Send 42 once and close",
      decoded_node [("output", "int")] [("output", "channel2")])]
    ["channel0"; "channel2"; "channel3"; "channel4"].

Definition loaded (doc : @Graph texpr_source) : Graph :=
  match LoadJSON (E:=string) (inr (document doc)) with
  | Some (inr g) => g
  | _ => doc
  end.

Definition dangling_output : Graph :=
  decoded
    [("X", decoded_node [("out", "int")] [("out", "c")]);
     ("Y", decoded_node [("in", "$T"); ("out", "$T")]
                        [("in", "c"); ("out", "ghost")])]
    ["c"].

Definition undeclared_pins : Graph :=
  decoded
    [("X", decoded_node [("out", "int")] [("a", "c")]);
     ("Y", decoded_node [("in", "int")] [("b", "c")])]
    ["c"].

Definition misnamed_node : Graph :=
  mkGraph (list_to_map [("X", node "Z" [("out", "$T")] [("out", "c")]);
                        ("Y", node "Y" [("in", "int")] [("in", "c")])])
          (list_to_map [("c", channel "c" [("X", "out"); ("Y", "in")])]) ∅.

Definition bad_declaration : Graph :=
  graph [node "X" [("out", "$")] [("out", "nil")]] [].

(** A document whose channel [c] is the JSON value [null]. *)
Definition null_channel : @Document texpr_source :=
  mkDocument (Some <$> Nodes dangling_output) {[ "c" := None ]}.


Global Instance declarations_parse_dec `{Src : Source} (g : Graph)
  : Decision (declarations_parse g).
Proof. unfold declarations_parse. apply _. Defined.

Global Instance cached_exist_dec `{Src : Source} (g : Graph)
  : Decision (cached_exist g).
Proof. unfold cached_exist. apply _. Defined.

Global Instance no_dangling_dec `{Src : Source} (g : Graph)
  : Decision (no_dangling g).
Proof. unfold no_dangling. apply _. Defined.

(** * The editors of package [view]

    [view/views.go] edits the channels and the nodes of a graph of the
    earlier package [graph] through forms.  A channel has the fields the
    handler uses: [Name], [Type] (a string there) and [Cap]; a node has its
    name, its [Wait] flag and its part, which is a [parts.Code] with its
    code or another part.  The request is its method and its form ([None]
    when [r.ParseForm] fails; [FormValue] of a missing key is the empty
    string); the response is its status, the redirection, or the page.
    [strconv.Atoi], [strings.TrimSpace], [Node.Refresh] and the templates
    are parameters. *)
Module view.

Record Channel := mkChannel { Name : string; Type_ : string; Cap : Z }.

Global Instance view_Channel_eq_dec : EqDecision Channel.
Proof. solve_decision. Defined.

Record Request := mkRequest {
  Method : string;
  Form : option (string → string);
}.

Inductive Response :=
  | HttpError (code : nat)
  | SeeOther (name : string)
  | Page.

Inductive Part :=
  | Code (code : string)
  | OtherPart.

Record Node := mkNode { NodeName : string; Wait : bool; NodePart : Part }.

Global Instance view_Part_eq_dec : EqDecision Part.
Proof. solve_decision. Defined.

Global Instance view_Node_eq_dec : EqDecision Node.
Proof. solve_decision. Defined.

(** [identifierRE]: [^[_a-zA-Z][_a-zA-Z0-9]*$] (in Go [$] matches at the end
    of the text only). *)
Definition is_letter (c : ascii) : bool :=
  let n := nat_of_ascii c in
  ((65 <=? n) && (n <=? 90)) || ((97 <=? n) && (n <=? 122)) || (n =? 95).

Definition is_digit (c : ascii) : bool :=
  let n := nat_of_ascii c in (48 <=? n) && (n <=? 57).

Fixpoint all_bytes (p : ascii → bool) (s : string) : bool :=
  match s with
  | EmptyString => true
  | String c s' => p c && all_bytes p s'
  end.

Definition identifierRE (s : string) : bool :=
  match s with
  | EmptyString => false
  | String c s' => is_letter c && all_bytes (λ c, is_letter c || is_digit c) s'
  end.

Section handlers.

(** [strconv.Atoi]: the integer, or [None] for an error. *)
Variable Atoi : string → option Z.

(** [renderChannelEditor(w, g, e)]: whether the template executes. *)
Variable render : gmap string Channel → option Channel → bool.

(** The end of the handler: the page, or status 500. *)
Definition show (chans : gmap string Channel) (e : option Channel)
  : gmap string Channel * Response :=
  (chans, if render chans e then Page else HttpError 500).

(** [Channel(g, name, w, r)] on the registry [g.Channels].  [e] is a pointer:
    an update of its fields is seen under the key it is registered under. *)
Definition ChannelHandler (chans : gmap string Channel) (name : string)
    (r : Request) : gmap string Channel * Response :=
  let e := chans !! name in
  if bool_decide (name ≠ "new") && bool_decide (e = None)
  then (chans, HttpError 404)
  else if bool_decide (Method r = "POST") then
    let e0 := default (mkChannel "" "" 0) e in
    match Form r with
    | None => (chans, HttpError 400)
    | Some form =>
        let nn := form "Name" in
        if negb (identifierRE nn) then (chans, HttpError 400)
        else
          match Atoi (form "Cap") with
          | None => (chans, HttpError 400)
          | Some ci =>
              if (ci <? 0)%Z then (chans, HttpError 400)
              else
                let update (e' : Channel) :=
                  match e with
                  | Some _ => <[name := e']> chans
                  | None => chans
                  end in
                if bool_decide (nn = Name e0)
                then
                  let e1 := mkChannel (Name e0) (form "Type") ci in
                  show (update e1) (Some e1)
                else
                  let e2 := mkChannel nn (form "Type") ci in
                  (<[nn := e2]> (delete (Name e0) (update e2)), SeeOther nn)
          end
    end
  else show chans e.

(** [strings.TrimSpace]. *)
Variable TrimSpace : string → string.

(** [n.Refresh()]: the node it leaves, and whether it returns an error. *)
Variable Refresh : Node → Node * bool.

(** [renderNodeEditor(w, g, n)]: whether the template executes. *)
Variable renderNode : gmap string Node → Node → bool.

Definition showNode (nodes : gmap string Node) (n : Node)
  : gmap string Node * Response :=
  (nodes, if renderNode nodes n then Page else HttpError 500).

(** The fields the form sets before the node is refreshed. *)
Definition edited (form : string → string) (n : Node) : Node :=
  mkNode (NodeName n) (bool_decide (form "Wait" = "on"))
         (match NodePart n with
          | Code _ => Code (form "Code")
          | OtherPart => OtherPart
          end).

(** [Node(g, name, w, r)] on the registry [g.Nodes].  [n] is a pointer: what
    the handler writes to its fields is seen under the key [name]. *)
Definition NodeHandler (nodes : gmap string Node) (name : string)
    (r : Request) : gmap string Node * Response :=
  match nodes !! name with
  | None => (nodes, HttpError 404)
  | Some n =>
      if bool_decide (Method r = "POST") then
        match Form r with
        | None => (nodes, HttpError 400)
        | Some form =>
            let nm := TrimSpace (form "Name") in
            if bool_decide (nm = "") then (nodes, HttpError 400)
            else
              let n2 := (Refresh (edited form n)).1 in
              if (Refresh (edited form n)).2
              then (<[name := n2]> nodes, HttpError 400)
              else if bool_decide (nm = NodeName n2)
              then showNode (<[name := n2]> nodes) n2
              else
                let n3 := mkNode nm (Wait n2) (NodePart n2) in
                (<[nm := n3]> (delete (NodeName n2) (<[name := n3]> nodes)),
                 SeeOther nm)
        end
      else showNode nodes n
  end.

(** The form of a request that passes the checks of the handler. *)
Definition valid_form (r : Request) : Prop :=
  ∃ form ci, Form r = Some form ∧ identifierRE (form "Name") = true ∧
             Atoi (form "Cap") = Some ci ∧ (0 ≤ ci)%Z.

(** The registry holds every channel under its name, the names are
    identifiers and the capacities are not negative. *)
Definition well_formed (chans : gmap string Channel) : Prop :=
  map_Forall (λ k c, Name c = k ∧ identifierRE k = true ∧ (0 ≤ Cap c)%Z) chans.

End handlers.

(** A registry with one channel, and a request that renames it. *)
Definition example_registry : gmap string Channel :=
  {[ "foo" := mkChannel "foo" "int" 0 ]}.

Definition example_form (key : string) : string :=
  if decide (key = "Name") then "bar"
  else if decide (key = "Cap") then "1"
  else if decide (key = "Type") then "string" else "".

Definition example_request : Request := mkRequest "POST" (Some example_form).

Definition example_Atoi (s : string) : option Z :=
  if decide (s = "1") then Some 1%Z else None.

(** A registry with one node whose part is a [parts.Code], and a [Refresh]
    that fails. *)
Definition example_nodes : gmap string Node :=
  {[ "foo" := mkNode "foo" false (Code "old") ]}.

Global Instance view_well_formed_dec chans : Decision (well_formed chans).
Proof. unfold well_formed. apply _. Defined.

End view.

(** Closed decidable facts about the example graphs are settled by
    evaluation. *)
Ltac by_compute := refine (bool_decide_unpack _ _); vm_compute; exact I.

Arguments rebuild_caches : simpl never.
Arguments refreshed : simpl never.

(** * Properties *)

Section for_each.
Context {A S : Type}.
Implicit Types (body : S → A → option S) (l : list A).

Lemma for_each_app body l1 l2 s :
  for_each body (l1 ++ l2) s = for_each body l1 s ≫= for_each body l2.
Proof.
  revert s. induction l1 as [|x l1 IH]; intros s; simpl; [done|].
  destruct (body s x); simpl; auto.
Qed.

(** An invariant kept by every step that does not panic is kept by the loop. *)
Lemma for_each_inv (P : S → Prop) body l s s' :
  (∀ s x s', x ∈ l → P s → body s x = Some s' → P s') →
  P s → for_each body l s = Some s' → P s'.
Proof.
  revert s. induction l as [|x l IH]; intros s Hstep Hs; simpl.
  - by intros [= <-].
  - destruct (body s x) as [s1|] eqn:Hb; [|done].
    apply IH.
    + intros ???? ; apply Hstep. by right.
    + eapply Hstep; [|done..]. by left.
Qed.

(** A loop none of whose steps can panic under an invariant returns. *)
Lemma for_each_total (P : S → Prop) body l s :
  (∀ s x, x ∈ l → P s → ∃ s', body s x = Some s' ∧ P s') →
  P s → ∃ s', for_each body l s = Some s' ∧ P s'.
Proof.
  revert s. induction l as [|x l IH]; intros s Hstep Hs; simpl; [by eauto|].
  destruct (Hstep s x) as (s1 & -> & Hs1); [by left|done|].
  apply IH; [|done]. intros ????; apply Hstep; [by right|done].
Qed.

End for_each.

Section bookkeeping.
Context {Src : Source}.
Implicit Types (g : Graph) (n : Node) (ch : Channel) (np : NodePin).
Implicit Types (nodes : gmap string Node) (chans : gmap string Channel).
Implicit Types (X : gset NodePin).

(** *** DeleteChannel *)

Lemma elem_of_pins_of X k p : p ∈ pins_of X k ↔ mkNodePin k p ∈ X.
Proof.
  unfold pins_of. rewrite elem_of_set_omap. split.
  - intros ([k' p'] & Hin & Heq). simpl in Heq. case_decide; simplify_eq/=. done.
  - intros Hin. exists (mkNodePin k p). split; [done|]. simpl.
    by rewrite decide_True.
Qed.

Lemma lookup_disconnected X k n p :
  Connections (disconnected X k n) !! p =
    if decide (mkNodePin k p ∈ X) then Some unconnected else Connections n !! p.
Proof.
  unfold disconnected; simpl. rewrite lookup_union, lookup_gset_to_gmap.
  case_decide as Hin.
  - rewrite option_guard_True by (by apply elem_of_pins_of).
    by destruct (Connections n !! p).
  - rewrite option_guard_False by (by rewrite elem_of_pins_of).
    by destruct (Connections n !! p).
Qed.

Lemma Node_eq n1 n2 :
  NodeName n1 = NodeName n2 → PartPins n1 = PartPins n2 →
  Connections n1 = Connections n2 → pinTypes n1 = pinTypes n2 →
  typeParams n1 = typeParams n2 → n1 = n2.
Proof. destruct n1, n2; simpl; by intros -> -> -> -> ->. Qed.

Lemma disconnected_empty k n : disconnected ∅ k n = n.
Proof.
  apply Node_eq; try done. apply map_eq; intros p.
  rewrite lookup_disconnected. by rewrite decide_False by set_solver.
Qed.

Lemma disconnected_step X np k n :
  disconnected X k
    (if decide (k = np_Node np)
     then set_Connections <[np_Pin np := unconnected]> n else n)
  = disconnected ({[np]} ∪ X) k n.
Proof.
  apply Node_eq; try (by case_decide).
  apply map_eq; intros p. rewrite !lookup_disconnected.
  destruct np as [k' p']; simpl.
  destruct (decide (mkNodePin k p ∈ X)) as [Hin|Hin].
  { rewrite decide_True by set_solver. done. }
  destruct (decide (k = k')) as [->|Hk]; simpl.
  - destruct (decide (p = p')) as [->|Hp].
    + rewrite decide_True by set_solver. by rewrite lookup_insert_eq.
    + rewrite decide_False by set_solver. by rewrite lookup_insert_ne.
  - rewrite decide_False by set_solver. done.
Qed.

Lemma disconnect_all_lookup X nodes k :
  disconnect_all X nodes !! k = disconnected X k <$> nodes !! k.
Proof. unfold disconnect_all. rewrite map_lookup_imap. by destruct (nodes !! k). Qed.

Lemma disconnect_pins_Some (l : list NodePin) nodes :
  (∀ np, np ∈ l → is_Some (nodes !! np_Node np)) →
  for_each disconnect_pin l nodes = Some (disconnect_all (list_to_set l) nodes).
Proof.
  revert nodes. induction l as [|np l IH]; intros nodes Hl; simpl.
  - f_equal. apply map_eq; intros k. rewrite disconnect_all_lookup.
    destruct (nodes !! k); simpl; [|done]. by rewrite disconnected_empty.
  - unfold disconnect_pin at 1.
    destruct (Hl np) as [n Hn]; [by left|]. rewrite Hn.
    rewrite IH.
    + f_equal. apply map_eq; intros k. rewrite !disconnect_all_lookup.
      destruct (decide (k = np_Node np)) as [->|Hk].
      * rewrite lookup_insert_eq, Hn. simpl. f_equal.
        rewrite <-(disconnected_step _ np). by rewrite decide_True.
      * rewrite lookup_insert_ne by done.
        destruct (nodes !! k); simpl; [|done]. f_equal.
        rewrite <-(disconnected_step _ np). by rewrite decide_False.
    + intros np' Hin. destruct (decide (np_Node np' = np_Node np)) as [->|Hne].
      * rewrite lookup_insert_eq. eauto.
      * rewrite lookup_insert_ne by done. apply Hl. by right.
Qed.

Lemma disconnect_pins_None (l : list NodePin) nodes np :
  np ∈ l → nodes !! np_Node np = None →
  for_each disconnect_pin l nodes = None.
Proof.
  revert nodes. induction l as [|np' l IH]; intros nodes Hin Hnone.
  - by apply elem_of_nil in Hin.
  - simpl. unfold disconnect_pin at 1.
    destruct (nodes !! np_Node np') as [n'|] eqn:Hn'; [|done].
    apply elem_of_cons in Hin as [->|Hin]; [congruence|].
    apply IH; [done|].
    rewrite lookup_insert_ne; [done|]. congruence.
Qed.

Lemma DeleteChannel_Some g ch :
  (∀ np, np ∈ Pins ch → is_Some (Nodes g !! np_Node np)) →
  DeleteChannel g ch =
    Some (mkGraph (disconnect_all (Pins ch) (Nodes g))
                  (delete (ChanName ch) (Channels g)) (types g)).
Proof.
  intros Hex. unfold DeleteChannel.
  rewrite disconnect_pins_Some by (intros ? ?%elem_of_elements; auto).
  by rewrite list_to_set_elements_L.
Qed.

(** C9. [DeleteChannel c] on a channel whose cache names existing nodes only
    returns; afterwards the connection entry of every (node, pin) of the
    cache is the sentinel ["nil"], every other connection entry is as before,
    and the registry has lost the entry [c.Name] and nothing else.  When some
    pin of the cache names a node that is not in the registry,
    [DeleteChannel] panics. *)
Theorem DeleteChannel_spec g ch :
  ((∀ np, np ∈ Pins ch → is_Some (Nodes g !! np_Node np)) →
   ∃ g', DeleteChannel g ch = Some g' ∧
     Channels g' = delete (ChanName ch) (Channels g) ∧
     dom (Nodes g') = dom (Nodes g) ∧
     (∀ np, np ∈ Pins ch →
        ∃ n', Nodes g' !! np_Node np = Some n' ∧
              Connections n' !! np_Pin np = Some unconnected) ∧
     (∀ k p n, Nodes g !! k = Some n → mkNodePin k p ∉ Pins ch →
        ∃ n', Nodes g' !! k = Some n' ∧
              Connections n' !! p = Connections n !! p)) ∧
  ((∃ np, np ∈ Pins ch ∧ Nodes g !! np_Node np = None) →
   DeleteChannel g ch = None).
Proof.
  split.
  - intros Hex. eexists. split; [by apply DeleteChannel_Some|]. simpl.
    split; [done|]. split; [|split].
    + apply set_eq; intros k. rewrite !elem_of_dom, disconnect_all_lookup.
      by rewrite fmap_is_Some.
    + intros np Hin. destruct (Hex np Hin) as [n Hn].
      exists (disconnected (Pins ch) (np_Node np) n).
      rewrite disconnect_all_lookup, Hn. split; [done|].
      rewrite lookup_disconnected. destruct np; simpl in *.
      by rewrite decide_True.
    + intros k p n Hn Hnotin. exists (disconnected (Pins ch) k n).
      rewrite disconnect_all_lookup, Hn. split; [done|].
      rewrite lookup_disconnected. by rewrite decide_False.
  - intros (np & Hin & Hnone). unfold DeleteChannel.
    erewrite disconnect_pins_None; [done| |done]. by apply elem_of_elements.
Qed.

(** *** RefreshChannelsPins: the rebuilt caches *)

Lemma Channel_eq (c1 c2 : Channel) :
  ChanName c1 = ChanName c2 → Pins c1 = Pins c2 → ChanType c1 = ChanType c2 →
  c1 = c2.
Proof. destruct c1, c2; simpl; by intros -> -> ->. Qed.

Lemma elem_of_conn_pins name k cs np :
  np ∈ conn_pins name k cs ↔ np_Node np = name ∧ (np_Pin np, k) ∈ cs.
Proof.
  unfold conn_pins. rewrite list_elem_of_omap. split.
  - intros ([p co] & Hin & Heq); simpl in *. case_decide; simplify_eq/=. done.
  - intros [<- Hin]. exists (np_Pin np, k). split; [done|]. simpl.
    rewrite decide_True by done. by destruct np.
Qed.

Lemma add_connections_lookup name cs chans k :
  foldl (add_connection name) chans cs !! k =
    set_Pins (λ ps, list_to_set (conn_pins name k cs) ∪ ps) <$> chans !! k.
Proof.
  revert chans. induction cs as [|[p co] cs IH]; intros chans; simpl.
  - destruct (chans !! k) as [[]|]; simpl; [|done].
    f_equal. apply Channel_eq; simpl; [done| |done]. set_solver.
  - rewrite IH. unfold add_connection; simpl.
    destruct (chans !! co) as [ch|] eqn:Hco.
    + destruct (decide (co = k)) as [->|Hne].
      * rewrite lookup_insert_eq, Hco. simpl. f_equal.
        apply Channel_eq; simpl; [done| |done]. set_solver.
      * rewrite lookup_insert_ne by done. done.
    + destruct (decide (co = k)) as [->|Hne]; [by rewrite Hco|done].
Qed.

Lemma add_nodes_lookup (ns : list (string * Node)) chans k :
  foldl add_node_pins chans ns !! k =
    set_Pins (λ ps, ⋃ (node_wired_pins k <$> ns.*2) ∪ ps) <$> chans !! k.
Proof.
  revert chans. induction ns as [|[key n] ns IH]; intros chans; simpl.
  - destruct (chans !! k) as [[]|]; simpl; [|done].
    f_equal. apply Channel_eq; simpl; [done| |done]. set_solver.
  - rewrite IH. unfold add_node_pins; simpl.
    rewrite add_connections_lookup.
    destruct (chans !! k) as [ch|]; simpl; [|done]. f_equal.
    apply Channel_eq; simpl; [done| |done].
    unfold node_wired_pins. set_solver.
Qed.

Lemma rebuild_caches_lookup g k :
  Channels (rebuild_caches g) !! k =
    set_Pins (λ _, wired_pins g k) <$> Channels g !! k.
Proof.
  unfold rebuild_caches; simpl. rewrite add_nodes_lookup.
  unfold reset_caches. rewrite lookup_fmap.
  destruct (Channels g !! k) as [ch|]; simpl; [|done]. f_equal.
  apply Channel_eq; simpl; [done| |done]. unfold wired_pins. set_solver.
Qed.

Lemma elem_of_wired_pins g k np : np ∈ wired_pins g k ↔ wired g k np.
Proof.
  unfold wired_pins, wired. rewrite elem_of_union_list. split.
  - intros (X & HX & Hin).
    apply list_elem_of_fmap in HX as (n & -> & Hn).
    apply list_elem_of_fmap in Hn as ([key n'] & -> & Hn).
    apply elem_of_map_to_list in Hn.
    unfold node_wired_pins in Hin.
    rewrite elem_of_list_to_set, elem_of_conn_pins in Hin.
    destruct Hin as [Hname Hc]. apply elem_of_map_to_list in Hc.
    exists key, n'. done.
  - intros (key & n & Hn & Hname & Hc).
    exists (node_wired_pins k n). split.
    + apply list_elem_of_fmap. exists n. split; [done|].
      apply list_elem_of_fmap. exists (key, n). split; [done|].
      by apply elem_of_map_to_list.
    + unfold node_wired_pins.
      rewrite elem_of_list_to_set, elem_of_conn_pins. split; [done|].
      by apply elem_of_map_to_list.
Qed.

Lemma rebuild_caches_Nodes g : Nodes (rebuild_caches g) = Nodes g.
Proof. done. Qed.

Lemma rebuild_caches_names g : names_cached g → names_cached (rebuild_caches g).
Proof.
  intros [Hn Hc]. split; [done|]. intros k ch.
  rewrite rebuild_caches_lookup. intros (ch0 & Hch0 & ->)%fmap_Some.
  simpl. by apply Hc.
Qed.

(** *** RefreshChannelsPins: the pruning loop *)

Lemma disconnect_all_empty nodes : disconnect_all ∅ nodes = nodes.
Proof.
  apply map_eq; intros k. rewrite disconnect_all_lookup.
  destruct (nodes !! k); simpl; [|done]. by rewrite disconnected_empty.
Qed.

Lemma disconnect_all_union X Y nodes :
  disconnect_all X (disconnect_all Y nodes) = disconnect_all (X ∪ Y) nodes.
Proof.
  apply map_eq; intros k. rewrite !disconnect_all_lookup.
  destruct (nodes !! k) as [n|]; simpl; [|done]. f_equal.
  apply Node_eq; try done. apply map_eq; intros p.
  rewrite !lookup_disconnected.
  destruct (decide (mkNodePin k p ∈ X)), (decide (mkNodePin k p ∈ Y)),
    (decide (mkNodePin k p ∈ X ∪ Y)); set_solver.
Qed.

Lemma disconnect_all_is_Some X nodes k :
  is_Some (disconnect_all X nodes !! k) ↔ is_Some (nodes !! k).
Proof. by rewrite disconnect_all_lookup, fmap_is_Some. Qed.

Lemma doomed_delete chans k ks :
  k ∉ ks → doomed (delete k chans) ks = doomed chans ks.
Proof.
  intros Hk. unfold doomed. f_equal.
  induction ks as [|k' ks IH]; [done|].
  apply not_elem_of_cons in Hk as [Hne Hk]. csimpl.
  rewrite lookup_delete_ne by done. by rewrite IH.
Qed.

Lemma elem_of_doomed chans ks np :
  np ∈ doomed chans ks ↔
  ∃ k ch, k ∈ ks ∧ chans !! k = Some ch ∧ size (Pins ch) < 2 ∧ np ∈ Pins ch.
Proof.
  unfold doomed. rewrite elem_of_union_list. split.
  - intros (X & HX & Hnp). apply list_elem_of_omap in HX as (k & Hk & HX).
    destruct (chans !! k) as [ch|] eqn:Hch; simpl in HX; [|done].
    case_decide; simplify_eq. eauto 10.
  - intros (k & ch & Hk & Hch & Hsmall & Hnp). exists (Pins ch). split; [|done].
    apply list_elem_of_omap. exists k. split; [done|]. rewrite Hch; simpl.
    by rewrite decide_True.
Qed.

Lemma prune_loop ks g :
  NoDup ks →
  map_Forall (λ k c, ChanName c = k) (Channels g) →
  (∀ k ch np, Channels g !! k = Some ch → np ∈ Pins ch →
              is_Some (Nodes g !! np_Node np)) →
  for_each prune_channel ks g =
    Some (mkGraph (disconnect_all (doomed (Channels g) ks) (Nodes g))
                  (filter (λ kc : string * Channel, kc.1 ∈ ks → (2 ≤ size (Pins kc.2))%nat)
                          (Channels g))
                  (types g)).
Proof.
  revert g. induction ks as [|k ks IH]; intros g Hnd Hnames Hex.
  { simpl. f_equal. unfold doomed; simpl. rewrite disconnect_all_empty.
    rewrite map_filter_id; [by destruct g|]. intros ?? _ Hin; simpl in Hin.
    by apply elem_of_nil in Hin. }
  apply NoDup_cons in Hnd as [Hk Hnd]. simpl. unfold prune_channel at 1.
  destruct (Channels g !! k) as [ch|] eqn:Hch.
  - destruct (decide (size (Pins ch) < 2)) as [Hsmall|Hbig].
    + rewrite DeleteChannel_Some by eauto.
      assert (ChanName ch = k) as -> by (by apply Hnames in Hch).
      rewrite IH; simpl; [|done|by apply map_Forall_delete|].
      * f_equal. f_equal.
        -- rewrite disconnect_all_union, doomed_delete by done.
           f_equal. unfold doomed; simpl. rewrite Hch; simpl.
           rewrite decide_True by done. simpl. set_solver.
        -- apply map_filter_strong_ext_1. intros i x; simpl.
           rewrite lookup_delete_Some, elem_of_cons. split.
           ++ intros (Hi & Hne & Hx). split; [|done]. intros [->|?]; [done|auto].
           ++ intros (Hi & Hx). destruct (decide (k = i)) as [->|Hne].
              ** simplify_eq. specialize (Hi (or_introl eq_refl)). lia.
              ** split; [auto|done].
      * intros k' ch' np (_ & Hch')%lookup_delete_Some Hnp.
        apply disconnect_all_is_Some. eauto.
    + rewrite IH by done. f_equal. f_equal.
      * f_equal. unfold doomed; simpl. rewrite Hch; simpl.
        by rewrite decide_False by done.
      * apply map_filter_ext. intros i x Hx; simpl. rewrite elem_of_cons.
        split; [|by auto]. intros Hi [->|?]; [|auto]. simplify_eq. lia.
  - rewrite IH by done. f_equal. f_equal.
    + f_equal. unfold doomed; simpl. by rewrite Hch.
    + apply map_filter_ext. intros i x Hx; simpl. rewrite elem_of_cons.
      split; [|by auto]. intros Hi [->|?]; [congruence|auto].
Qed.

Lemma wired_pins_node_exists g k np :
  map_Forall (λ k n, NodeName n = k) (Nodes g) →
  np ∈ wired_pins g k →
  ∃ n, Nodes g !! np_Node np = Some n ∧ NodeName n = np_Node np ∧
       Connections n !! np_Pin np = Some k.
Proof.
  intros Hnames (key & n & Hn & Hname & Hc)%elem_of_wired_pins.
  assert (NodeName n = key) by (by apply Hnames in Hn).
  exists n. by rewrite Hname; subst key.
Qed.

Lemma RefreshChannelsPins_refreshed g :
  names_cached g → RefreshChannelsPins g = Some (refreshed g).
Proof.
  intros Hnames. unfold RefreshChannelsPins. cbv zeta.
  pose proof (rebuild_caches_names _ Hnames) as [Hn1 Hc1].
  rewrite prune_loop; [|apply NoDup_fst_map_to_list|done|].
  - unfold refreshed. f_equal. f_equal.
    apply map_filter_ext. intros i x Hx; simpl. split; [|by auto].
    intros Hi. apply Hi. apply list_elem_of_fmap. exists (i, x).
    split; [done|]. by apply elem_of_map_to_list.
  - intros k ch np. rewrite rebuild_caches_lookup.
    intros (ch0 & Hch0 & ->)%fmap_Some; simpl. intros Hnp.
    destruct (wired_pins_node_exists g k np) as (n & Hn & _); [by apply Hnames|done|].
    eauto.
Qed.

Lemma refreshed_Channels g :
  Channels (refreshed g) =
    filter (λ kc : string * Channel, 2 ≤ size (Pins kc.2))
           (Channels (rebuild_caches g)).
Proof. done. Qed.

Lemma refreshed_Nodes g :
  Nodes (refreshed g) =
    disconnect_all (doomed (Channels (rebuild_caches g))
                           (map_to_list (Channels (rebuild_caches g))).*1)
                   (Nodes g).
Proof. done. Qed.

Lemma refreshed_lookup_Some g k ch :
  Channels (refreshed g) !! k = Some ch ↔
  2 ≤ size (wired_pins g k) ∧
  ∃ ch0, Channels g !! k = Some ch0 ∧ ch = set_Pins (λ _, wired_pins g k) ch0.
Proof.
  rewrite refreshed_Channels.
  rewrite map_lookup_filter_Some, rebuild_caches_lookup, fmap_Some; simpl.
  split.
  - intros [(ch0 & Hch0 & ->) Hbig]. simpl in Hbig. eauto.
  - intros [Hbig (ch0 & Hch0 & ->)]. simpl. eauto.
Qed.

(** C3. On a graph whose nodes and channels cache their names,
    [RefreshChannelsPins] returns; every channel still in the registry holds
    its rebuilt cache (the pins the connection maps wire to it), which has at
    least two pins; and every channel whose rebuilt cache has fewer than two
    pins is gone from the registry. *)
Theorem RefreshChannelsPins_prunes g :
  names_cached g →
  ∃ g', RefreshChannelsPins g = Some g' ∧
    (∀ k ch, Channels g' !! k = Some ch →
       2 ≤ size (Pins ch) ∧ Channels (rebuild_caches g) !! k = Some ch ∧
       ∀ np, np ∈ Pins ch ↔ wired g k np) ∧
    (∀ k ch, Channels (rebuild_caches g) !! k = Some ch →
       size (Pins ch) < 2 → Channels g' !! k = None).
Proof.
  intros Hnames. exists (refreshed g).
  split; [by apply RefreshChannelsPins_refreshed|]. split.
  - intros k ch (Hbig & ch0 & Hch0 & ->)%refreshed_lookup_Some.
    split; [done|]. split.
    + by rewrite rebuild_caches_lookup, Hch0.
    + intros np. apply elem_of_wired_pins.
  - intros k ch Hch Hsmall. rewrite refreshed_Channels.
    apply map_lookup_filter_None. right. intros ch' Hch'. simplify_eq/=. lia.
Qed.

(** *** RefreshChannelsPins: idempotence *)

Lemma refreshed_names g : names_cached g → names_cached (refreshed g).
Proof.
  intros [Hn Hc]. split.
  - intros k n'. rewrite refreshed_Nodes, disconnect_all_lookup.
    intros (n & Hn' & ->)%fmap_Some. simpl. by apply Hn.
  - intros k ch (_ & ch0 & Hch0 & ->)%refreshed_lookup_Some. simpl.
    by apply Hc.
Qed.

Lemma refreshed_wired g k ch :
  names_cached g → sentinel_free g →
  Channels (refreshed g) !! k = Some ch →
  wired_pins (refreshed g) k = wired_pins g k.
Proof.
  intros [Hn Hc] Hsent Hk. pose proof Hk as Hk'.
  apply refreshed_lookup_Some in Hk' as (Hbig & ch0 & Hch0 & ->).
  apply set_eq; intros [key pin]. rewrite !elem_of_wired_pins. split.
  - intros (key' & n' & Hn' & Hname & Hconn); cbn [np_Node np_Pin] in *.
    rewrite refreshed_Nodes, disconnect_all_lookup in Hn'.
    apply fmap_Some in Hn' as (n & Hnode & ->).
    rewrite lookup_disconnected in Hconn. case_decide as HD.
    + unfold sentinel_free in Hsent. congruence.
    + by exists key', n.
  - intros (key' & n & Hnode & Hname & Hconn); cbn [np_Node np_Pin] in *.
    assert (key' = key) as -> by (apply Hn in Hnode; congruence).
    exists key, (disconnected
      (doomed (Channels (rebuild_caches g))
              (map_to_list (Channels (rebuild_caches g))).*1) key n).
    split; [|split; [done|]].
    + by rewrite refreshed_Nodes, disconnect_all_lookup, Hnode.
    + rewrite lookup_disconnected. rewrite decide_False; [done|].
      intros (k2 & ch2 & _ & Hch2 & Hsmall & Hin)%elem_of_doomed.
      rewrite rebuild_caches_lookup in Hch2.
      apply fmap_Some in Hch2 as (c2 & Hc2 & ->).
      cbn [Pins set_Pins] in *.
      destruct (wired_pins_node_exists g k2 (mkNodePin key pin))
        as (n2 & Hn2 & _ & Hconn2); [done..|]. cbn [np_Node np_Pin] in *.
      assert (k2 = k) as -> by congruence. lia.
Qed.

Lemma refreshed_caches_fresh g :
  names_cached g → sentinel_free g → caches_fresh (refreshed g).
Proof.
  intros Hnames Hsent. unfold caches_fresh.
  apply map_eq; intros k. rewrite rebuild_caches_lookup.
  destruct (Channels (refreshed g) !! k) as [ch|] eqn:Hk; simpl; [|done].
  f_equal. erewrite refreshed_wired by done.
  apply refreshed_lookup_Some in Hk as (_ & ch0 & _ & ->).
  by apply Channel_eq.
Qed.

Lemma refreshed_pruned g k ch :
  Channels (refreshed g) !! k = Some ch → 2 ≤ size (Pins ch).
Proof. by intros (? & ? & ? & ->)%refreshed_lookup_Some. Qed.

Lemma refreshed_idemp g :
  names_cached g → sentinel_free g → refreshed (refreshed g) = refreshed g.
Proof.
  intros Hnames Hsent.
  pose proof (refreshed_caches_fresh g Hnames Hsent) as Hfresh.
  unfold caches_fresh in Hfresh.
  unfold refreshed at 1. cbv zeta. rewrite Hfresh.
  rewrite map_filter_id by (intros ???; simpl; by eapply refreshed_pruned).
  replace (doomed _ _) with (∅ : gset NodePin).
  - rewrite disconnect_all_empty. by destruct (refreshed g).
  - symmetry. apply set_eq; intros np. rewrite elem_of_doomed. split.
    + intros (k & ch & _ & Hch & Hsmall & _).
      apply refreshed_pruned in Hch. lia.
    + set_solver.
Qed.

(** C7, as amended.  On a graph whose objects cache their names and none
    of whose channels is registered under the sentinel, a second
    [RefreshChannelsPins] returns the graph the first one returned: the
    same registry, the same pin caches, the same connection maps. *)
Theorem RefreshChannelsPins_idempotent g :
  names_cached g → sentinel_free g →
  ∃ g', RefreshChannelsPins g = Some g' ∧ RefreshChannelsPins g' = Some g'.
Proof.
  intros Hnames Hsent. exists (refreshed g).
  split; [by apply RefreshChannelsPins_refreshed|].
  rewrite RefreshChannelsPins_refreshed by (by apply refreshed_names).
  by rewrite refreshed_idemp.
Qed.

(** *** DeleteNode: the disconnecting loop *)

Lemma unwire_pin_skip name b (s : gmap string Channel * list string) p cn :
  cn = unconnected ∨ s.1 !! cn = None → unwire_pin name b s (p, cn) = s.
Proof.
  intros Hcn. unfold unwire_pin; simpl. case_decide; [done|].
  destruct Hcn as [?| ->]; done.
Qed.

Lemma unwire_loop_chans name b cs chans rem k :
  (foldl (unwire_pin name b) (chans, rem) cs).1 !! k =
    if decide (k = unconnected) then chans !! k
    else set_Pins (λ ps, ps ∖ list_to_set (conn_pins name k cs)) <$> chans !! k.
Proof.
  revert chans rem. induction cs as [|[p co] cs IH]; intros chans rem.
  { simpl. case_decide; [done|]. destruct (chans !! k) as [ch|]; simpl; [|done].
    f_equal. apply Channel_eq; simpl; [done| |done]. set_solver. }
  cbn [foldl]. unfold unwire_pin at 2; cbn [fst snd].
  destruct (decide (co = unconnected)) as [->|Hco].
  { rewrite IH. case_decide as Hk; [done|]. unfold conn_pins; simpl.
    by rewrite decide_False by done. }
  destruct (chans !! co) as [ch|] eqn:Hch.
  - rewrite IH. case_decide as Hk.
    + rewrite lookup_insert_ne by congruence. done.
    + destruct (decide (co = k)) as [->|Hne].
      * rewrite lookup_insert_eq, Hch. simpl. f_equal.
        apply Channel_eq; simpl; [done| |done].
        unfold conn_pins; simpl. rewrite decide_True by done. simpl.
        set_solver.
      * rewrite lookup_insert_ne by done. unfold conn_pins; simpl.
        by rewrite decide_False by done.
  - rewrite IH. case_decide as Hk; [done|].
    destruct (decide (co = k)) as [->|Hne]; [by rewrite Hch|].
    unfold conn_pins; simpl. by rewrite decide_False by done.
Qed.

(** The channels the loop marks: with [cleanupChans], those the node is
    connected to whose cache ends up with fewer than two pins. *)
Lemma unwire_loop_rem name b cs chans rem :
  ∃ marks, (foldl (unwire_pin name b) (chans, rem) cs).2 = rem ++ marks ∧
    ∀ k, k ∈ marks ↔
      b = true ∧ k ≠ unconnected ∧ (∃ p, (p, k) ∈ cs) ∧
      ∃ ch, chans !! k = Some ch ∧
            size (Pins ch ∖ list_to_set (conn_pins name k cs)) < 2.
Proof.
  revert chans rem. induction cs as [|[p co] cs IH]; intros chans rem.
  { exists []. split; [by rewrite app_nil_r|]. intros k. split.
    - by intros ?%elem_of_nil.
    - intros (_ & _ & [p Hp] & _). by apply elem_of_nil in Hp. }
  cbn [foldl]. unfold unwire_pin at 2; cbn [fst snd].
  assert (∀ k, k ≠ co →
    conn_pins name k ((p, co) :: cs) = conn_pins name k cs) as Hother.
  { intros k Hk. unfold conn_pins; simpl. by rewrite decide_False by done. }
  assert (∀ k, k ≠ co → (∃ p', (p', k) ∈ (p, co) :: cs) ↔ ∃ p', (p', k) ∈ cs)
    as Htouch.
  { intros k Hk. split; intros [p' Hp'].
    - apply elem_of_cons in Hp' as [?|?]; [congruence|eauto].
    - exists p'. by right. }
  destruct (decide (co = unconnected)) as [->|Hco].
  { destruct (IH chans rem) as (marks & -> & Hmarks). exists marks.
    split; [done|]. intros k. rewrite Hmarks.
    destruct (decide (k = unconnected)) as [->|Hk]; [naive_solver|].
    by rewrite Hother, Htouch by done. }
  destruct (chans !! co) as [ch|] eqn:Hch.
  - destruct (IH (<[co:=RemovePin ch name p]> chans)
                 (if b && bool_decide (size (Pins (RemovePin ch name p)) < 2)
                  then rem ++ [co] else rem)) as (marks & -> & Hmarks).
    exists ((if b && bool_decide (size (Pins (RemovePin ch name p)) < 2)
             then [co] else []) ++ marks).
    split.
    { destruct (b && _); [by rewrite <-app_assoc|done]. }
    intros k. rewrite elem_of_app, Hmarks.
    destruct (decide (k = co)) as [->|Hk].
    + rewrite lookup_insert_eq, Hch.
      assert (Pins (RemovePin ch name p) ∖ list_to_set (conn_pins name co cs)
              = Pins ch ∖ list_to_set (conn_pins name co ((p, co) :: cs)))
        as HF.
      { unfold conn_pins; simpl. rewrite decide_True by done. simpl.
        set_solver. }
      split.
      * intros [Hhead|(Hb & _ & _ & ch' & [= <-] & Hsize)].
        -- destruct b; simpl in Hhead; [|by apply elem_of_nil in Hhead].
           case_bool_decide as Hsm; [|by apply elem_of_nil in Hhead].
           split; [done|]. split; [done|]. split; [exists p; by left|].
           exists ch. split; [done|]. rewrite <-HF.
           eapply Nat.le_lt_trans; [|exact Hsm].
           apply subseteq_size. set_solver.
        -- split; [done|]. split; [done|]. split; [exists p; by left|].
           exists ch. split; [done|]. by rewrite <-HF.
      * intros (-> & _ & _ & ch' & [= <-] & Hsize). rewrite <-HF in Hsize.
        destruct (conn_pins name co cs) as [|np l] eqn:Hcp.
        -- left. simpl. rewrite bool_decide_true; [by left|].
           simpl in Hsize.
           by replace (Pins (RemovePin ch name p) ∖ ∅)
             with (Pins (RemovePin ch name p)) in Hsize by set_solver.
        -- right. split; [done|]. split; [done|]. split.
           ++ assert (np ∈ conn_pins name co cs) as Hnp by (rewrite Hcp; by left).
              apply elem_of_conn_pins in Hnp as [_ Hnp]. eauto.
           ++ exists (RemovePin ch name p). done.
    + rewrite lookup_insert_ne by done. rewrite Hother, Htouch by done.
      split; [|by auto]. intros [Hhead|?]; [|done].
      destruct (b && _); [|by apply elem_of_nil in Hhead].
      apply list_elem_of_singleton in Hhead. done.
  - destruct (IH chans rem) as (marks & -> & Hmarks). exists marks.
    split; [done|]. intros k. rewrite Hmarks.
    destruct (decide (k = co)) as [->|Hk].
    + rewrite Hch. naive_solver.
    + by rewrite Hother, Htouch by done.
Qed.

(** *** DeleteNode: deleting the marked channels *)

Lemma delete_channels_Some (chs : list Channel) g :
  (∀ ch np, ch ∈ chs → np ∈ Pins ch → is_Some (Nodes g !! np_Node np)) →
  for_each DeleteChannel chs g =
    Some (mkGraph (disconnect_all (⋃ (Pins <$> chs)) (Nodes g))
                  (filter (λ kc : string * Channel, kc.1 ∉ ChanName <$> chs)
                          (Channels g))
                  (types g)).
Proof.
  revert g. induction chs as [|ch chs IH]; intros g Hex.
  { simpl. rewrite disconnect_all_empty, map_filter_id; [by destruct g|].
    intros ??? Hin; simpl in Hin. by apply elem_of_nil in Hin. }
  simpl. rewrite DeleteChannel_Some by (intros; eapply Hex; [by left|done]).
  rewrite IH; simpl.
  - f_equal. f_equal.
    + rewrite disconnect_all_union. f_equal. set_solver.
    + apply map_filter_strong_ext_1. intros i x; simpl.
      rewrite lookup_delete_Some, elem_of_cons. naive_solver.
  - intros ch' np Hch' Hnp. apply disconnect_all_is_Some.
    eapply Hex; [by right|done].
Qed.

(** *** DeleteNode on a graph with fresh caches *)

Lemma fresh_cache g k ch :
  caches_fresh g → Channels g !! k = Some ch → Pins ch = wired_pins g k.
Proof.
  unfold caches_fresh. intros Hfresh Hch.
  assert (Channels (rebuild_caches g) !! k = Some ch) as Hr by (by rewrite Hfresh).
  rewrite rebuild_caches_lookup, Hch in Hr. injection Hr as Hr.
  apply (f_equal Pins) in Hr. by simpl in Hr.
Qed.

Section delete_node.
Context (g : Graph) (n : Node) (b : bool).
Context (Hnames : names_cached g) (Hsent : sentinel_free g).
Context (Hfresh : caches_fresh g) (Hn : Nodes g !! NodeName n = Some n).

Lemma cache_minus_node k ch :
  Channels g !! k = Some ch →
  Pins ch ∖ list_to_set (conn_pins (NodeName n) k (map_to_list (Connections n)))
  = Pins (without_node (NodeName n) ch).
Proof.
  intros Hch. simpl. apply set_eq; intros np.
  rewrite elem_of_difference, elem_of_list_to_set, elem_of_conn_pins.
  rewrite elem_of_filter, elem_of_map_to_list.
  split; [|naive_solver]. intros [Hnp Hnot]. split; [|done].
  intros Hname. apply Hnot. split; [done|].
  rewrite (fresh_cache g k ch) in Hnp by done.
  destruct Hnames as [Hnn _].
  destruct (wired_pins_node_exists g k np Hnn Hnp) as (n' & Hn' & _ & Hc).
  rewrite Hname in Hn'. by simplify_eq.
Qed.

Lemma unwire_registry :
  (foldl (unwire_pin (NodeName n) b) (Channels g, [])
         (map_to_list (Connections n))).1
  = without_node (NodeName n) <$> Channels g.
Proof.
  apply map_eq; intros k. rewrite unwire_loop_chans, lookup_fmap.
  case_decide as Hk.
  - subst k. unfold sentinel_free in Hsent. by rewrite Hsent.
  - destruct (Channels g !! k) as [ch|] eqn:Hch; simpl; [|done]. f_equal.
    apply Channel_eq; [done| |done].
    cbn [Pins set_Pins]. by rewrite (cache_minus_node k ch).
Qed.

Lemma unwire_marks k :
  k ∈ (foldl (unwire_pin (NodeName n) b) (Channels g, [])
             (map_to_list (Connections n))).2 ↔
  b = true ∧ (∃ p, Connections n !! p = Some k) ∧
  ∃ ch, Channels g !! k = Some ch ∧
        size (Pins (without_node (NodeName n) ch)) < 2.
Proof.
  destruct (unwire_loop_rem (NodeName n) b (map_to_list (Connections n))
              (Channels g) []) as (marks & -> & Hmarks).
  rewrite app_nil_l, Hmarks. split.
  - intros (Hb & _ & [p Hp] & ch & Hch & Hsize).
    split; [done|]. split; [exists p; by apply elem_of_map_to_list|].
    exists ch. split; [done|]. by rewrite <-(cache_minus_node k ch).
  - intros (Hb & [p Hp] & ch & Hch & Hsize). split; [done|]. split.
    { intros ->. unfold sentinel_free in Hsent. congruence. }
    split; [exists p; by apply elem_of_map_to_list|].
    exists ch. split; [done|]. by rewrite (cache_minus_node k ch).
Qed.

(** The channel objects [DeleteNode] hands to [DeleteChannel]. *)
Lemma marked_channels ch' :
  ch' ∈ omap (λ cn, (without_node (NodeName n) <$> Channels g) !! cn)
        (foldl (unwire_pin (NodeName n) b) (Channels g, [])
               (map_to_list (Connections n))).2 ↔
  ∃ k ch, Channels g !! k = Some ch ∧ ch' = without_node (NodeName n) ch ∧
    b = true ∧ (∃ p, Connections n !! p = Some k) ∧
    size (Pins (without_node (NodeName n) ch)) < 2.
Proof.
  rewrite list_elem_of_omap. split.
  - intros (k & Hk & Hch'). rewrite lookup_fmap in Hch'.
    apply fmap_Some in Hch' as (ch & Hch & ->).
    apply unwire_marks in Hk as (Hb & Hp & ch2 & Hch2 & Hsize).
    simplify_eq. eauto 10.
  - intros (k & ch & Hch & -> & Hb & Hp & Hsize). exists k. split.
    + apply unwire_marks. eauto 10.
    + by rewrite lookup_fmap, Hch.
Qed.

Lemma marked_channels_nodes ch' np :
  ch' ∈ omap (λ cn, (without_node (NodeName n) <$> Channels g) !! cn)
        (foldl (unwire_pin (NodeName n) b) (Channels g, [])
               (map_to_list (Connections n))).2 →
  np ∈ Pins ch' →
  np_Node np ≠ NodeName n ∧ is_Some (Nodes (unwired g n) !! np_Node np).
Proof.
  intros (k & ch & Hch & -> & _)%marked_channels. simpl.
  rewrite elem_of_filter. intros [Hne Hnp]. split; [done|].
  rewrite lookup_delete_ne by done.
  rewrite (fresh_cache g k ch) in Hnp by done.
  destruct Hnames as [Hnn _].
  destruct (wired_pins_node_exists g k np Hnn Hnp) as (n' & -> & _). eauto.
Qed.

(** Whether the loop marks a channel is decidable: the node has finitely many
    connection entries. *)
Lemma classic_marked k ch :
  let P := (∃ p, Connections n !! p = Some k) ∧
           size (Pins (without_node (NodeName n) ch)) < 2 in
  P ∨ ¬ P.
Proof.
  simpl.
  destruct (decide (Exists (λ pc : string * string, pc.2 = k)
                           (map_to_list (Connections n)))) as [Hex|Hno].
  - destruct (decide (size (Pins (without_node (NodeName n) ch)) < 2)).
    + left. split; [|done]. apply Exists_exists in Hex as ([p co] & Hin & <-).
      exists p. by apply elem_of_map_to_list.
    + right. naive_solver.
  - right. intros [[p Hp] _]. apply Hno. apply Exists_exists.
    exists (p, k). split; [by apply elem_of_map_to_list|done].
Qed.

Lemma DeleteNode_unwired :
  DeleteNode g n b =
    for_each DeleteChannel
      (omap (λ cn, (without_node (NodeName n) <$> Channels g) !! cn)
        (foldl (unwire_pin (NodeName n) b) (Channels g, [])
               (map_to_list (Connections n))).2)
      (unwired g n).
Proof. unfold DeleteNode. cbv zeta. by rewrite unwire_registry. Qed.

Lemma DeleteNode_Some :
  ∃ g', DeleteNode g n b = Some g' ∧
    dom (Nodes g') = dom (Nodes g) ∖ {[NodeName n]} ∧
    (∀ k, Channels g !! k = None → Channels g' !! k = None) ∧
    (∀ k ch, Channels g !! k = Some ch →
       b = true → (∃ p, Connections n !! p = Some k) →
       size (Pins (without_node (NodeName n) ch)) < 2 →
       Channels g' !! k = None) ∧
    (∀ k ch, Channels g !! k = Some ch →
       ¬ (b = true ∧ (∃ p, Connections n !! p = Some k) ∧
          size (Pins (without_node (NodeName n) ch)) < 2) →
       Channels g' !! k = Some (without_node (NodeName n) ch)).
Proof.
  rewrite DeleteNode_unwired.
  rewrite delete_channels_Some
    by (intros ch' np Hch' Hnp; by eapply marked_channels_nodes).
  eexists. split; [done|]. cbn [Nodes Channels]. split; [|split; [|split]].
  - apply set_eq; intros k.
    rewrite elem_of_dom, disconnect_all_is_Some, <-elem_of_dom.
    unfold unwired; simpl. by rewrite dom_delete_L.
  - intros k Hch. unfold unwired; cbn [Channels].
    apply map_lookup_filter_None. left. by rewrite lookup_fmap, Hch.
  - intros k ch Hch Hb Hp Hsize. unfold unwired; cbn [Channels].
    apply map_lookup_filter_None. right. intros ch'.
    rewrite lookup_fmap, Hch. intros [= <-]. simpl. intros Hnot.
    apply Hnot. apply list_elem_of_fmap.
    exists (without_node (NodeName n) ch). split.
    { simpl. destruct Hnames as [_ Hcn]. by apply Hcn in Hch. }
    apply marked_channels. exists k, ch. naive_solver.
  - intros k ch Hch Hmark. unfold unwired; cbn [Channels].
    apply map_lookup_filter_Some. rewrite lookup_fmap, Hch.
    split; [done|]. simpl.
    intros (ch' & Heq & Hch')%list_elem_of_fmap.
    apply marked_channels in Hch' as (k' & c & Hc & -> & Hb & Hp & Hsize).
    simpl in Heq. destruct Hnames as [_ Hcn].
    pose proof (Hcn _ _ Hc) as Hk'. simpl in Hk'.
    pose proof (Hcn _ _ Hch) as Hk. simpl in Hk.
    assert (k' = k) as -> by congruence.
    assert (c = ch) as -> by congruence.
    naive_solver.
Qed.

End delete_node.

(** C4, as amended.  On a graph with cached names, fresh pin caches and no
    channel registered under the sentinel, for a registered node [n]:
    [DeleteNode n true] returns a graph without [n] in which no cache names
    [n], every channel [n] was connected to whose cache fell below two pins
    is gone, and every other channel is still registered, without the pins of
    [n]; the deletions of the marked channels start from [unwired g n], the
    graph in which all pins of [n] are already out of all caches, and no
    marked channel names [n].  [DeleteNode n false] returns [unwired g n]:
    every channel still registered, without the pins of [n]. *)
Theorem DeleteNode_spec g n :
  names_cached g → sentinel_free g → caches_fresh g →
  Nodes g !! NodeName n = Some n →
  (∃ g' marked,
     DeleteNode g n true = Some g' ∧
     DeleteNode g n true = for_each DeleteChannel marked (unwired g n) ∧
     (∀ ch np, ch ∈ marked → np ∈ Pins ch → np_Node np ≠ NodeName n) ∧
     Nodes g' !! NodeName n = None ∧
     (∀ k ch' np, Channels g' !! k = Some ch' → np ∈ Pins ch' →
        np_Node np ≠ NodeName n) ∧
     (∀ k ch, Channels g !! k = Some ch →
        (∃ p, Connections n !! p = Some k) →
        size (Pins (without_node (NodeName n) ch)) < 2 →
        Channels g' !! k = None) ∧
     (∀ k ch, Channels g !! k = Some ch →
        ¬ ((∃ p, Connections n !! p = Some k) ∧
           size (Pins (without_node (NodeName n) ch)) < 2) →
        Channels g' !! k = Some (without_node (NodeName n) ch))) ∧
  DeleteNode g n false = Some (unwired g n) ∧
  dom (Channels (unwired g n)) = dom (Channels g).
Proof.
  intros Hnames Hsent Hfresh Hn. split; [|split].
  - destruct (DeleteNode_Some g n true Hnames Hsent Hfresh Hn)
      as (g' & Hg' & Hdom & Hnone & Hgone & Hkept).
    exists g'. eexists. split; [done|].
    split; [by apply DeleteNode_unwired|]. split; [|split; [|split; [|split]]].
    + intros ch np Hch Hnp.
      by destruct (marked_channels_nodes g n true Hnames Hsent Hfresh Hn
                     ch np Hch Hnp).
    + apply not_elem_of_dom. rewrite Hdom. set_solver.
    + intros k ch' np Hch' Hnp.
      destruct (Channels g !! k) as [ch|] eqn:Hch.
      * destruct (classic_marked n k ch) as [Hm|Hm].
        -- destruct Hm as [Hp Hsize].
           rewrite (Hgone k ch Hch eq_refl Hp Hsize) in Hch'. done.
        -- rewrite (Hkept k ch Hch) in Hch' by naive_solver.
           simplify_eq. simpl in Hnp. apply elem_of_filter in Hnp as [? _]. done.
      * by rewrite (Hnone k Hch) in Hch'.
    + intros k ch Hch Hp Hsize. by eapply Hgone.
    + intros k ch Hch Hm. apply Hkept; [done|]. naive_solver.
  - rewrite DeleteNode_unwired by done.
    replace (foldl _ _ _).2 with (@nil string); [done|].
    symmetry. apply elem_of_nil_inv. intros k Hk.
    apply unwire_marks in Hk as (? & _); done.
  - unfold unwired; simpl. by rewrite dom_fmap_L.
Qed.

(** *** DeleteNode and dangling channel names *)

Lemma unwire_pin_dom name b (s : gmap string Channel * list string) pc k :
  is_Some ((unwire_pin name b s pc).1 !! k) ↔ is_Some (s.1 !! k).
Proof.
  unfold unwire_pin. case_decide; [done|].
  destruct (s.1 !! pc.2) as [ch|] eqn:Hch; [|done]. simpl.
  destruct (decide (pc.2 = k)) as [<-|Hne].
  - rewrite lookup_insert_eq, Hch. split; eauto.
  - by rewrite lookup_insert_ne.
Qed.

Lemma unwire_loop_skip name b cs (s : gmap string Channel * list string) :
  (∀ pc, pc ∈ cs → pc.2 = unconnected ∨ s.1 !! pc.2 = None) →
  foldl (unwire_pin name b) s cs = s.
Proof.
  induction cs as [|[p co] cs IH]; intros Hcs; [done|]. simpl.
  rewrite unwire_pin_skip by (apply (Hcs (p, co)); by left).
  apply IH. intros pc Hpc. apply Hcs. by right.
Qed.

Lemma unwire_loop_dangling name b (chans0 : gmap string Channel) cs
    (s : gmap string Channel * list string) :
  (∀ k, is_Some (s.1 !! k) ↔ is_Some (chans0 !! k)) →
  foldl (unwire_pin name b) s
    (prod_map id (λ cn, if decide (is_Some (chans0 !! cn))
                        then cn else unconnected) <$> cs)
  = foldl (unwire_pin name b) s cs.
Proof.
  revert s. induction cs as [|[p co] cs IH]; intros s Hdom; [done|].
  csimpl.
  assert (unwire_pin name b s
            (p, if decide (is_Some (chans0 !! co)) then co else unconnected)
          = unwire_pin name b s (p, co)) as ->.
  { case_decide as Hco; [done|].
    rewrite !unwire_pin_skip; [done| |by left].
    right. apply eq_None_not_Some. by rewrite Hdom. }
  apply IH. intros k. by rewrite unwire_pin_dom.
Qed.

Lemma DeleteChannel_keeps_absent g ch g' k :
  DeleteChannel g ch = Some g' → Nodes g !! k = None → Nodes g' !! k = None.
Proof.
  unfold DeleteChannel.
  destruct (for_each _ _ _) as [nodes|] eqn:Hloop; [|done].
  intros [= <-] Hk. simpl.
  eapply (for_each_inv (λ nodes, nodes !! k = None)); [|exact Hk|exact Hloop].
  intros nodes0 np nodes1 _ Hnone. unfold disconnect_pin.
  destruct (nodes0 !! np_Node np) eqn:Hnp; [|done]. intros [= <-].
  rewrite lookup_insert_ne; [done|]. congruence.
Qed.

(** C10. A connection entry naming a channel that is not in the registry is
    treated by [DeleteNode] as the sentinel is: the loop leaves its state
    as it is, and the result is that of deleting the node with those entries
    replaced by ["nil"].  A node all of whose entries are the sentinel or
    dangling is taken out of the registry and nothing else changes; whenever
    [DeleteNode] returns, the node is out of the registry.  [DeleteChannel]
    instead panics on a cache naming a node that is not in the registry. *)
Theorem DeleteNode_dangling g n b :
  (∀ s p cn, s.1 !! cn = None →
     unwire_pin (NodeName n) b s (p, cn) = s ∧
     unwire_pin (NodeName n) b s (p, unconnected) = s) ∧
  DeleteNode g n b = DeleteNode g (dangling_as_unconnected g n) b ∧
  ((∀ p cn, Connections n !! p = Some cn →
      cn = unconnected ∨ Channels g !! cn = None) →
   DeleteNode g n b =
     Some (mkGraph (delete (NodeName n) (Nodes g)) (Channels g) (types g))) ∧
  (∀ g', DeleteNode g n b = Some g' → Nodes g' !! NodeName n = None) ∧
  (∀ ch np, np ∈ Pins ch → Nodes g !! np_Node np = None →
     DeleteChannel g ch = None).
Proof.
  split; [|split; [|split; [|split]]].
  - intros s p cn Hcn. split; apply unwire_pin_skip; auto.
  - unfold DeleteNode, dangling_as_unconnected. cbn [NodeName Connections set_Connections].
    rewrite map_to_list_fmap. by rewrite unwire_loop_dangling.
  - intros Hall. unfold DeleteNode.
    rewrite unwire_loop_skip; [done|].
    intros [p cn] Hin%elem_of_map_to_list. simpl. by apply (Hall p).
  - intros g'. unfold DeleteNode. cbv zeta.
    apply (for_each_inv (λ g0, Nodes g0 !! NodeName n = None)).
    + intros g0 ch g1 _ Hnone Hdel. by eapply DeleteChannel_keeps_absent.
    + simpl. apply lookup_delete_eq.
  - intros ch np Hnp Hnone. unfold DeleteChannel.
    erewrite disconnect_pins_None; [done| |done]. by apply elem_of_elements.
Qed.

End bookkeeping.

(** * Properties of the inference pass *)

Section loops.
Context {Src : Source}.

Lemma bind_Ok {A B} (f : A → outcome B) (x : outcome A) b :
  x ≫= f = Ok b ↔ ∃ a, x = Ok a ∧ f a = Ok b.
Proof. destruct x; simpl; naive_solver. Qed.

Lemma bind_OutOfFuel {A B} (f : A → outcome B) (x : outcome A) :
  x ≠ OutOfFuel → (∀ a, f a ≠ OutOfFuel) → x ≫= f ≠ OutOfFuel.
Proof. destruct x; simpl; auto. Qed.

Lemma for_range_inv {A S} (P : S → Prop) (body : S → A → outcome S) l s s' :
  (∀ s x s', x ∈ l → P s → body s x = Ok s' → P s') →
  P s → for_range body l s = Ok s' → P s'.
Proof.
  revert s. induction l as [|x l IH]; intros s Hstep Hs; simpl.
  - by intros [= <-].
  - intros (s1 & Hb & Hrest)%bind_Ok. eapply IH; [|by eapply Hstep; [left|..]|done].
    intros ????; apply Hstep. by right.
Qed.

Lemma for_range_finishes {A S} (body : S → A → outcome S) l s :
  (∀ s x, body s x ≠ OutOfFuel) → for_range body l s ≠ OutOfFuel.
Proof.
  intros Hbody. revert s. induction l as [|x l IH]; intros s; simpl; [done|].
  apply bind_OutOfFuel; auto.
Qed.

Lemma for_range_commute {A S} (f : S → S) (body : S → A → outcome S) l s :
  (∀ s x, body (f s) x = f <$> (body s x)) →
  for_range body l (f s) = f <$> (for_range body l s).
Proof.
  intros Hbody. revert s. induction l as [|x l IH]; intros s; simpl; [done|].
  rewrite Hbody. destruct (body s x); simpl; auto.
Qed.

End loops.

Section sums.
Context {K A : Type} `{Countable K}.
Implicit Types (f : A → nat) (m : gmap K A).

Lemma sum_map_empty f : sum_map f (∅ : gmap K A) = 0.
Proof. apply map_fold_empty. Qed.

Lemma sum_map_insert f m i x :
  m !! i = None → sum_map f (<[i:=x]> m) = f x + sum_map f m.
Proof.
  intros Hi. unfold sum_map. rewrite map_fold_insert_L; [done| |done].
  intros; lia.
Qed.

Lemma sum_map_delete f m i x :
  m !! i = Some x → sum_map f m = f x + sum_map f (delete i m).
Proof.
  intros Hi. rewrite <-(insert_delete_id m i x) at 1 by done.
  apply sum_map_insert, lookup_delete_eq.
Qed.

Lemma sum_map_update f m i x y :
  m !! i = Some x → sum_map f (<[i:=y]> m) + f x = f y + sum_map f m.
Proof.
  intros Hi. rewrite (sum_map_delete f m i x) by done.
  rewrite <-insert_delete_eq, sum_map_insert by apply lookup_delete_eq. lia.
Qed.

Lemma sum_map_ext f1 f2 m :
  (∀ i x, m !! i = Some x → f1 x = f2 x) → sum_map f1 m = sum_map f2 m.
Proof.
  induction m as [|i x m Hi IH] using map_ind; intros Hf.
  - by rewrite !sum_map_empty.
  - rewrite !sum_map_insert by done. rewrite IH.
    + f_equal. apply (Hf i). by rewrite lookup_insert_eq.
    + intros j y Hj. apply (Hf j). rewrite lookup_insert_ne; [done|congruence].
Qed.

End sums.

Section sizes.
Context `{Countable A}.

Lemma size_union_le (X Y : gset A) : size (X ∪ Y) ≤ size X + size Y.
Proof.
  rewrite size_union_alt. apply Nat.add_le_mono_l, subseteq_size. set_solver.
Qed.

Lemma size_list_to_set_le (l : list A) :
  size (list_to_set l : gset A) ≤ length l.
Proof.
  induction l as [|x l IH]; [by rewrite list_to_set_nil, size_empty|].
  rewrite list_to_set_cons. etrans; [apply size_union_le|].
  rewrite size_singleton. simpl. lia.
Qed.

End sizes.

Lemma size_set_map_le `{Countable A, Countable B} (f : A → B) (X : gset A) :
  size (set_map f X : gset B) ≤ size X.
Proof.
  unfold set_map. etrans; [apply size_list_to_set_le|].
  by rewrite length_fmap.
Qed.

Section potential.
Context {Src : Source} {Laws : SourceLaws Src}.
Implicit Types (g : Graph) (n : Node) (ch : Channel) (np r : NodePin).
Implicit Types (tys : gmap TypeParam SType) (pts : gmap string SType).

(** *** applyTypeParams *)

Lemma refine_pin_finishes conns tys s pp : refine_pin conns tys s pp ≠ OutOfFuel.
Proof.
  unfold refine_pin. destruct (Refine tys pp.2) as [|[? []]]; simpl; [done| |done].
  by case_decide.
Qed.

Lemma refine_loop conns tys l pts nx res :
  NoDup l.*1 →
  (∀ pn pt, (pn, pt) ∈ l → pts !! pn = Some pt) →
  for_range (refine_pin conns tys) l (pts, nx) = Ok res →
  dom res.1 = dom pts ∧
  sum_map free_idents res.1 + size res.2 ≤ sum_map free_idents pts + size nx.
Proof.
  revert pts nx. induction l as [|[pn pt] l IH]; intros pts nx Hnd Hl; simpl.
  { intros [= <-]. done. }
  apply NoDup_cons in Hnd as [Hpn Hnd].
  intros (s1 & Hstep & Hrest)%bind_Ok.
  assert (pts !! pn = Some pt) as Hpt by (apply Hl; by left).
  assert (∃ pt' nx', s1 = (<[pn:=pt']> pts, nx') ∧
            sum_map free_idents (<[pn:=pt']> pts) + size nx'
            ≤ sum_map free_idents pts + size nx) as (pt' & nx' & -> & Hle).
  { unfold refine_pin in Hstep; simpl in Hstep.
    destruct (Refine tys pt) as [|[pt' changed]] eqn:Href; [done|].
    pose proof (sum_map_update free_idents pts pn pt pt' Hpt) as Hsum.
    destruct changed; simpl in Hstep.
    - apply Refine_progress in Href.
      case_decide; simplify_eq; do 2 eexists; (split; [done|]); [lia|].
      assert (size ({[default "" (conns !! pn)]} ∪ nx) ≤ 1 + size nx).
      { etrans; [apply size_union_le|]. by rewrite size_singleton. }
      lia.
    - apply Refine_unchanged in Href as ->. simplify_eq.
      do 2 eexists. split; [done|]. lia. }
  apply IH in Hrest as [Hdom Hsum]; [|done|].
  - split; [|lia]. rewrite Hdom, dom_insert_L.
    apply elem_of_dom_2 in Hpt. set_solver.
  - intros pn2 pt2 Hin. rewrite lookup_insert_ne; [apply Hl; by right|].
    intros <-. apply Hpn. apply list_elem_of_fmap. by exists (pn, pt2).
Qed.

Lemma applyTypeParams_finishes n tys : applyTypeParams n tys ≠ OutOfFuel.
Proof.
  unfold applyTypeParams. apply bind_OutOfFuel; [|done].
  apply for_range_finishes. intros; apply refine_pin_finishes.
Qed.

Lemma applyTypeParams_Ok n tys n' next :
  applyTypeParams n tys = Ok (n', next) →
  node_skel n' = node_skel n ∧ typeParams n' = typeParams n ∧
  sum_map free_idents (pinTypes n') + size next
  ≤ sum_map free_idents (pinTypes n).
Proof.
  unfold applyTypeParams. intros (res & Hloop & [= <- <-])%bind_Ok.
  apply refine_loop in Hloop as [Hdom Hsum].
  - split; [|split; [done|]].
    + unfold node_skel; simpl. by rewrite Hdom.
    + simpl. rewrite size_empty in Hsum. lia.
  - apply NoDup_fst_map_to_list.
  - intros pn pt. apply elem_of_map_to_list.
Qed.

(** *** The skeleton of a graph *)

Lemma skeleton_Channels g g' k ch :
  skeleton g' = skeleton g → Channels g !! k = Some ch →
  ∃ ch', Channels g' !! k = Some ch' ∧ chan_skel ch' = chan_skel ch.
Proof.
  intros [= _ Hc] Hch.
  assert ((chan_skel <$> Channels g') !! k = Some (chan_skel ch)) as Hk
    by (by rewrite Hc, lookup_fmap, Hch).
  rewrite lookup_fmap in Hk. apply fmap_Some in Hk as (ch' & ? & ?). eauto.
Qed.

Lemma skeleton_Nodes g g' k n :
  skeleton g' = skeleton g → Nodes g !! k = Some n →
  ∃ n', Nodes g' !! k = Some n' ∧ node_skel n' = node_skel n.
Proof.
  intros [= Hn _] Hnode.
  assert ((node_skel <$> Nodes g') !! k = Some (node_skel n)) as Hk
    by (by rewrite Hn, lookup_fmap, Hnode).
  rewrite lookup_fmap in Hk. apply fmap_Some in Hk as (n' & ? & ?). eauto.
Qed.

Lemma pins_typed_skeleton g g' :
  skeleton g' = skeleton g → pins_typed g → pins_typed g'.
Proof.
  intros Hsk Htyped k ch' Hch' np Hnp.
  destruct (skeleton_Channels g' g k ch') as (ch & Hch & [= _ Hpins]);
    [done..|].
  specialize (Htyped k ch Hch np). rewrite Hpins in Htyped.
  specialize (Htyped Hnp). unfold pin_typed in *.
  destruct (Nodes g' !! np_Node np) as [n'|] eqn:Hn'; [|done].
  destruct (skeleton_Nodes g' g (np_Node np) n')
    as (n & Hn & [= _ _ _ Hdom]); [done..|].
  rewrite Hn in Htyped. by rewrite <-Hdom.
Qed.

Lemma skeleton_set_types tys g : skeleton (set_types tys g) = skeleton g.
Proof. done. Qed.

Lemma skeleton_update_node g k n n' :
  Nodes g !! k = Some n → node_skel n' = node_skel n →
  skeleton (set_Nodes <[k:=n']> g) = skeleton g.
Proof.
  intros Hn Hsk. unfold skeleton; simpl. f_equal.
  rewrite fmap_insert, Hsk. apply insert_id. by rewrite lookup_fmap, Hn.
Qed.

Lemma skeleton_update_channel g k ch ch' :
  Channels g !! k = Some ch → chan_skel ch' = chan_skel ch →
  skeleton (set_Channels <[k:=ch']> g) = skeleton g.
Proof.
  intros Hch Hsk. unfold skeleton; simpl. f_equal.
  rewrite fmap_insert, Hsk. apply insert_id. by rewrite lookup_fmap, Hch.
Qed.

Lemma setPinType_update g r t n :
  Nodes g !! np_Node r = Some n →
  setPinType r t g = set_Nodes <[np_Node r := set_pinTypes <[np_Pin r := t]> n]> g.
Proof.
  intros Hn. unfold setPinType, set_Nodes. f_equal.
  apply map_eq; intros k.
  destruct (decide (np_Node r = k)) as [<-|Hne].
  - by rewrite lookup_alter_eq, lookup_insert_eq, Hn.
  - by rewrite lookup_alter_ne, lookup_insert_ne.
Qed.

Lemma getPinType_Some g r t :
  getPinType g r = Some t ↔
  ∃ n, Nodes g !! np_Node r = Some n ∧ pinTypes n !! np_Pin r = Some t.
Proof.
  unfold getPinType. destruct (Nodes g !! np_Node r); simpl; naive_solver.
Qed.

Lemma skeleton_setPinType g r t t0 :
  getPinType g r = Some t0 → skeleton (setPinType r t g) = skeleton g.
Proof.
  intros (n & Hn & Hpt)%getPinType_Some. rewrite (setPinType_update g r t n Hn).
  apply (skeleton_update_node g _ n); [done|].
  unfold node_skel; simpl. rewrite dom_insert_L.
  apply elem_of_dom_2 in Hpt. f_equal. set_solver.
Qed.

(** *** The potential *)

Lemma total_free_update_node g k n n' :
  Nodes g !! k = Some n →
  total_free (set_Nodes <[k:=n']> g) + sum_map free_idents (pinTypes n)
  = sum_map free_idents (pinTypes n') + total_free g.
Proof.
  intros Hn. unfold total_free; simpl.
  by apply (sum_map_update (λ n, sum_map free_idents (pinTypes n))).
Qed.

Lemma total_free_setPinType g r t t0 :
  getPinType g r = Some t0 →
  total_free (setPinType r t g) + free_idents t0 = free_idents t + total_free g.
Proof.
  intros (n & Hn & Hpt)%getPinType_Some. rewrite (setPinType_update g r t n Hn).
  pose proof (total_free_update_node g _ n
                (set_pinTypes <[np_Pin r := t]> n) Hn) as Hnode.
  pose proof (sum_map_update free_idents (pinTypes n) _ t0 t Hpt) as Hpin.
  simpl in *. lia.
Qed.

Lemma unset_channels_adopt g k ch np :
  Channels g !! k = Some ch → ChanType ch = None →
  unset_channels (set_Channels <[k := set_ChanType (Some np) ch]> g) + 1
  = unset_channels g.
Proof.
  intros Hch Hnone. unfold unset_channels; simpl.
  pose proof (sum_map_update
    (λ c, match ChanType c with Some _ => 0 | None => 1 end)
    (Channels g) k ch (set_ChanType (Some np) ch) Hch) as Hsum.
  simpl in Hsum. rewrite Hnone in Hsum. lia.
Qed.

(** *** One pin of one worklist step *)

Lemma infer_pin_finishes c s np : infer_pin c s np ≠ OutOfFuel.
Proof.
  unfold infer_pin.
  destruct (Nodes s.1 !! np_Node np) as [n|]; [|done].
  destruct (Channels s.1 !! c) as [ch|]; [|done].
  destruct (ChanType ch) as [r|]; [|done].
  destruct (getPinType s.1 r) as [ctype|]; [|done].
  destruct (Refine _ ctype) as [|[ctype' ?]]; [done|].
  destruct (Nodes _ !! np_Node np) as [n1|]; [|done].
  pose proof (applyTypeParams_finishes n1
                (Infer (types s.1) ctype (pinTypes n !! np_Pin np)).1).
  by destruct (applyTypeParams _ _) as [[]| | |].
Qed.

Lemma infer_pin_Ok c g next np ch g' next' :
  pins_typed g → Channels g !! c = Some ch → np ∈ Pins ch →
  infer_pin c (g, next) np = Ok (g', next') →
  skeleton g' = skeleton g ∧
  size next' + potential g' ≤ size next + potential g ∧
  total_free g' ≤ total_free g ∧ unset_channels g' ≤ unset_channels g.
Proof.
  intros Htyped Hch Hnp. unfold infer_pin; cbn [fst snd].
  destruct (Nodes g !! np_Node np) as [n|] eqn:Hn; [|done]. rewrite Hch.
  pose proof (Htyped c ch Hch np Hnp) as Hdecl. unfold pin_typed in Hdecl.
  rewrite Hn in Hdecl. apply elem_of_dom in Hdecl as [pt Hpt]. rewrite Hpt.
  destruct (ChanType ch) as [r|] eqn:Hr.
  - destruct (getPinType g r) as [ctype|] eqn:Hctype; [|done].
    set (tys := (Infer (types g) ctype (Some pt)).1).
    destruct (Refine tys ctype) as [|[ctype' changed]] eqn:Href; [done|].
    set (g1 := setPinType r ctype' (set_types tys g)).
    assert (getPinType (set_types tys g) r = Some ctype) as Hctype' by done.
    pose proof (skeleton_setPinType _ r ctype' ctype Hctype') as Hsk1.
    pose proof (total_free_setPinType _ r ctype' ctype Hctype') as Htf1.
    fold g1 in Hsk1, Htf1.
    assert (free_idents ctype' ≤ free_idents ctype) as Hle.
    { destruct changed.
      - apply Refine_progress in Href. lia.
      - by apply Refine_unchanged in Href as ->. }
    destruct (Nodes g1 !! np_Node np) as [n1|] eqn:Hn1; [|done].
    destruct (applyTypeParams n1 tys) as [[n2 nxcn]| | |] eqn:Happ; try done.
    simpl. intros [= <- <-].
    apply applyTypeParams_Ok in Happ as (Hsk2 & _ & Hsum).
    pose proof (total_free_update_node g1 _ n1 n2 Hn1) as Htf2.
    assert (unset_channels (set_Nodes <[np_Node np:=n2]> g1) = unset_channels g)
      as Hun by done.
    assert (total_free (set_types tys g) = total_free g) as Htf0 by done.
    split; [|split; [|split]].
    + rewrite (skeleton_update_node g1 _ n1 n2) by done. by rewrite Hsk1.
    + unfold potential. rewrite Hun.
      assert (size (set_map (chan_ptr g) nxcn ∪ next : gset (option string))
              ≤ size nxcn + size next).
      { etrans; [apply size_union_le|].
        apply Nat.add_le_mono_r, size_set_map_le. }
      lia.
    + lia.
    + by rewrite Hun.
  - intros [= <- <-].
    pose proof (unset_channels_adopt g c ch np Hch Hr) as Hun.
    assert (total_free (set_Channels <[c:=set_ChanType (Some np) ch]> g)
            = total_free g) as Htf by done.
    split; [|split; [|split]].
    + by apply (skeleton_update_channel g c ch).
    + unfold potential. rewrite Htf.
      assert (size ({[Some c]} ∪ next : gset (option string)) ≤ 1 + size next).
      { etrans; [apply size_union_le|]. by rewrite size_singleton. }
      lia.
    + by rewrite Htf.
    + lia.
Qed.

(** *** One worklist step *)

Lemma inferChannelType_finishes g c : inferChannelType g c ≠ OutOfFuel.
Proof.
  unfold inferChannelType. destruct c as [k|]; [|done].
  destruct (Channels g !! k); [|done].
  apply for_range_finishes. intros; apply infer_pin_finishes.
Qed.

Lemma inferChannelType_Ok g c g' next :
  pins_typed g → inferChannelType g c = Ok (g', next) →
  skeleton g' = skeleton g ∧
  size next + potential g' ≤ potential g ∧
  total_free g' ≤ total_free g ∧ unset_channels g' ≤ unset_channels g.
Proof.
  intros Htyped. unfold inferChannelType. destruct c as [k|]; [|done].
  destruct (Channels g !! k) as [ch|] eqn:Hch; [|done]. intros Hloop.
  apply (for_range_inv
           (λ s, skeleton s.1 = skeleton g ∧
                 size s.2 + potential s.1 ≤ potential g ∧
                 total_free s.1 ≤ total_free g ∧
                 unset_channels s.1 ≤ unset_channels g)) in Hloop; [done| |].
  - intros [g2 nx] np [g3 nx3] Hnp%elem_of_elements (Hsk & Hpot & Htf & Hun) Hstep.
    simpl in *.
    destruct (skeleton_Channels g g2 k ch Hsk Hch) as (ch2 & Hch2 & [= _ Hpins]).
    eapply infer_pin_Ok in Hstep as (Hsk3 & Hpot3 & Htf3 & Hun3);
      [|by eapply pins_typed_skeleton|done|by rewrite Hpins].
    split; [congruence|]. split; [lia|]. split; lia.
  - cbn [fst snd]. rewrite size_empty. split; [done|]. split; lia.
Qed.

(** *** The flood fill *)

Lemma flood_finishes fuel q g :
  pins_typed g → length q + potential g < fuel → flood fuel q g ≠ OutOfFuel.
Proof.
  revert q g. induction fuel as [|fuel IH]; intros q g Htyped Hfuel; [lia|].
  destruct q as [|c q]; [done|]. simpl.
  destruct (inferChannelType g c) as [[g' next]| | |] eqn:Hstep; try done.
  - simpl. apply inferChannelType_Ok in Hstep as (Hsk & Hpot & _); [|done].
    apply IH; [by eapply pins_typed_skeleton|].
    rewrite length_app. change (length (elements next)) with (size next).
    simpl in Hfuel. lia.
  - by apply inferChannelType_finishes in Hstep.
Qed.

Lemma flood_mono fuel k q g :
  flood fuel q g ≠ OutOfFuel → flood (fuel + k) q g = flood fuel q g.
Proof.
  revert q g. induction fuel as [|fuel IH]; intros q g.
  - destruct q; [by destruct k|done].
  - destruct q as [|c q]; [done|]. simpl.
    destruct (inferChannelType g c) as [[g' next]| | |]; simpl; auto.
Qed.

(** *** Setting up and finishing a pass *)

Lemma new_pin_types_dom name l pts pts' :
  for_range (new_pin_type name) l pts = Ok pts' →
  dom pts' = dom pts ∪ list_to_set l.*1.
Proof.
  revert pts. induction l as [|[pn ty] l IH]; intros pts; simpl.
  - intros [= <-]. set_solver.
  - intros (pts1 & Hstep & Hrest)%bind_Ok. apply IH in Hrest as ->.
    unfold new_pin_type in Hstep; simpl in Hstep.
    destruct (NewType name ty); simplify_eq. rewrite dom_insert_L. set_solver.
Qed.

Lemma fresh_pin_types_dom n pts :
  fresh_pin_types n = Ok pts → dom pts = dom (PartPins n).
Proof.
  intros ->%new_pin_types_dom. rewrite dom_empty_L, (left_id_L ∅ (∪)).
  apply set_eq; intros pn. rewrite elem_of_list_to_set, elem_of_dom.
  rewrite list_elem_of_fmap. split.
  - intros ([pn' ty] & -> & Hin%elem_of_map_to_list). by exists ty.
  - intros [ty Hty]. exists (pn, ty). split; [done|].
    by apply elem_of_map_to_list.
Qed.

Lemma reset_nodes l nodes nodes' k :
  NoDup l.*1 → for_range reset_node l nodes = Ok nodes' →
  ((k ∉ l.*1) ∧ nodes' !! k = nodes !! k) ∨
  (∃ n pts, (k, n) ∈ l ∧ fresh_pin_types n = Ok pts ∧
            nodes' !! k = Some (set_pinTypes (λ _, pts) n)).
Proof.
  revert nodes. induction l as [|[k0 n0] l IH]; intros nodes Hnd; simpl.
  { intros [= <-]. left. split; [apply not_elem_of_nil|done]. }
  apply NoDup_cons in Hnd as [Hk0 Hnd].
  intros (nodes1 & Hstep & Hrest)%bind_Ok.
  unfold reset_node in Hstep; simpl in Hstep.
  apply bind_Ok in Hstep as (pts & Hpts & [= <-]).
  destruct (IH _ Hnd Hrest) as [[Hk Heq]|(n & pts' & Hin & Hfresh & Heq)].
  - destruct (decide (k = k0)) as [->|Hne].
    + right. exists n0, pts. rewrite Heq, lookup_insert_eq.
      split; [by left|done].
    + left. rewrite Heq, lookup_insert_ne by done.
      split; [|done]. by apply not_elem_of_cons.
  - right. exists n, pts'. split; [by right|done].
Qed.

Lemma InferTypes_setup_Ok g g1 :
  InferTypes_setup g = Ok g1 →
  types g1 = ∅ ∧ Channels g1 = set_ChanType None <$> Channels g ∧
  ∀ k, match Nodes g !! k with
       | Some n => ∃ pts, fresh_pin_types n = Ok pts ∧
                          Nodes g1 !! k = Some (set_pinTypes (λ _, pts) n)
       | None => Nodes g1 !! k = None
       end.
Proof.
  unfold InferTypes_setup. intros (nodes & Hloop & [= <-])%bind_Ok.
  split; [done|]. split; [done|]. intros k. simpl.
  destruct (reset_nodes _ _ _ k (NoDup_fst_map_to_list _) Hloop)
    as [[Hk ->]|(n & pts & Hin%elem_of_map_to_list & Hfresh & ->)].
  - destruct (Nodes g !! k) as [n|] eqn:Hn; [|done].
    exfalso. apply Hk. apply list_elem_of_fmap. exists (k, n).
    by rewrite elem_of_map_to_list.
  - rewrite Hin. eauto.
Qed.

Lemma InferTypes_setup_typed g g1 :
  pins_declared g → InferTypes_setup g = Ok g1 → pins_typed g1.
Proof.
  intros Hdecl (_ & Hchans & Hnodes)%InferTypes_setup_Ok k ch1.
  rewrite Hchans, lookup_fmap. intros (ch & Hch & ->)%fmap_Some np Hnp.
  specialize (Hdecl k ch Hch np Hnp). unfold pin_declared in Hdecl.
  unfold pin_typed. cbn [Pins set_ChanType] in *.
  specialize (Hnodes (np_Node np)).
  destruct (Nodes g !! np_Node np) as [n|]; [|by rewrite Hnodes].
  destruct Hnodes as (pts & Hfresh & ->). simpl.
  by rewrite (fresh_pin_types_dom n pts).
Qed.

Lemma sum_map_fmap {K A B} `{Countable K} (f : B → nat) (h : A → B)
    (m : gmap K A) :
  sum_map f (h <$> m) = sum_map (f ∘ h) m.
Proof. unfold sum_map. by rewrite map_fold_fmap. Qed.

Lemma sum_map_const {K A} `{Countable K} (m : gmap K A) :
  sum_map (λ _, 1) m = size m.
Proof.
  induction m as [|i x m Hi IH] using map_ind.
  - by rewrite sum_map_empty, map_size_empty.
  - rewrite sum_map_insert, map_size_insert_None by done. lia.
Qed.

Lemma InferTypes_setup_potential g g1 :
  InferTypes_setup g = Ok g1 →
  length (map_to_list (Channels g1)).*1 + potential g1
  = 2 * size (Channels g) + total_free g1.
Proof.
  intros (_ & Hchans & _)%InferTypes_setup_Ok.
  rewrite length_fmap, length_map_to_list. unfold potential, unset_channels.
  rewrite Hchans, sum_map_fmap, map_size_fmap. simpl.
  rewrite (sum_map_ext _ (λ _, 1)) by done. rewrite sum_map_const. lia.
Qed.

Lemma publish_finishes nodes b : publish nodes b ≠ OutOfFuel.
Proof. unfold publish. by destruct (nodes !! Scope b.1). Qed.

Lemma InferTypes_finish_finishes g : InferTypes_finish g ≠ OutOfFuel.
Proof.
  unfold InferTypes_finish. apply bind_OutOfFuel; [|done].
  apply for_range_finishes. intros; apply publish_finishes.
Qed.

Lemma InferTypes_finishes g fuel :
  pins_declared g → fuel_bound g ≤ fuel →
  InferTypes fuel g ≠ OutOfFuel ∧ InferTypes fuel g = InferTypes (fuel_bound g) g.
Proof.
  intros Hdecl. unfold fuel_bound, InferTypes.
  destruct (InferTypes_setup g) as [g1| | |] eqn:Hsetup; simpl; try done.
  - intros Hfuel.
    pose proof (InferTypes_setup_typed g g1 Hdecl Hsetup) as Htyped.
    pose proof (InferTypes_setup_potential g g1 Hsetup) as Hpot.
    assert (flood (2 * size (Channels g) + total_free g1 + 1)
              (Some <$> (map_to_list (Channels g1)).*1) g1 ≠ OutOfFuel) as Hfin.
    { apply flood_finishes; [done|]. rewrite length_fmap. lia. }
    replace fuel with (2 * size (Channels g) + total_free g1 + 1
                       + (fuel - (2 * size (Channels g) + total_free g1 + 1)))
      by lia.
    rewrite flood_mono by done. split; [|done].
    apply bind_OutOfFuel; [done|]. intros; apply InferTypes_finish_finishes.
  - unfold InferTypes_setup in Hsetup.
    destruct (for_range reset_node _ _) eqn:Hloop; simpl in Hsetup; try done.
    exfalso. revert Hloop. apply for_range_finishes.
    intros nodes [k n]. unfold reset_node. apply bind_OutOfFuel; [|done].
    apply for_range_finishes. intros pts [pn ty]. unfold new_pin_type.
    by destruct (NewType _ _).
Qed.

End potential.

(** ** The model of package [source] obeys the laws *)

Lemma texpr_subst_free m t :
  texpr_subst m t = t ∨ texpr_free (texpr_subst m t) < texpr_free t.
Proof.
  induction t as [name|tp|ctor elem IH]; simpl.
  - by left.
  - destruct (m !! tp) as [u|]; [|by left].
    case_decide as Hu; [|by left]. right. lia.
  - destruct IH as [->|?]; [by left|by right].
Qed.

Lemma texpr_lithify_closed def t :
  texpr_free def = 0 → texpr_free (texpr_lithify def t) = 0.
Proof. intros Hdef. induction t; simpl; auto. Qed.

Global Instance texpr_laws : SourceLaws texpr_source.
Proof.
  split.
  - intros m t t'. simpl. unfold texpr_refine. intros [= <- Hne].
    apply bool_decide_eq_false in Hne. by destruct (decide (texpr_subst m t = t)).
  - intros m t t'. simpl. unfold texpr_refine. intros [= <- Hne].
    apply bool_decide_eq_true in Hne. by destruct (texpr_subst_free m t).
  - intros t. simpl. by apply texpr_lithify_closed.
Qed.

(** ** Termination of a pass *)

(** C8, as amended.  Provided a refinement that reports a change strictly
    reduces the free identifiers of the type it refines ([SourceLaws]):
    [applyTypeParams] asks to revisit at most as many channels as it removed
    free identifiers from the pin types of its node; a worklist step on a
    graph whose cached pins have types never increases the number of free
    identifiers, and re-enqueues at most as many channels as it removed free
    identifiers plus the channels that adopted a type; and on a graph whose
    cached pins are declared by their parts, [InferTypes] does not run out of
    fuel beyond [fuel_bound g] iterations (twice the number of channels plus
    the free identifiers of the freshly instantiated pin types, plus one),
    with the same outcome for all larger bounds. *)
Theorem InferTypes_terminates `{Src : Source} `{!SourceLaws Src} :
  (∀ n tys n' next, applyTypeParams n tys = Ok (n', next) →
     sum_map free_idents (pinTypes n') + size next
     ≤ sum_map free_idents (pinTypes n)) ∧
  (∀ g c g' next, pins_typed g → inferChannelType g c = Ok (g', next) →
     pins_typed g' ∧ total_free g' ≤ total_free g ∧
     unset_channels g' ≤ unset_channels g ∧
     size next + (total_free g' + unset_channels g')
     ≤ total_free g + unset_channels g) ∧
  (∀ g fuel, pins_declared g → fuel_bound g ≤ fuel →
     InferTypes fuel g ≠ OutOfFuel ∧
     InferTypes fuel g = InferTypes (fuel_bound g) g).
Proof.
  split; [|split].
  - intros n tys n' next Happ. by apply applyTypeParams_Ok in Happ as (_ & _ & ?).
  - intros g c g' next Htyped Hstep.
    apply inferChannelType_Ok in Hstep as (Hsk & Hpot & Htf & Hun); [|done].
    split; [by eapply pins_typed_skeleton|]. done.
  - intros g fuel. apply InferTypes_finishes.
Qed.


Lemma InferTypes_terminates_witness :
  pins_declared generic_to_int ∧ fuel_bound generic_to_int ≤ 4 ∧
  InferTypes 4 generic_to_int ≠ OutOfFuel.
Proof.
  assert (pins_declared generic_to_int) as Hd by by_compute.
  assert (fuel_bound generic_to_int ≤ 4) as Hb by by_compute.
  split; [exact Hd|]. split; [exact Hb|].
  exact (proj1 (proj2 (proj2 InferTypes_terminates) generic_to_int 4 Hd Hb)).
Defined.

(** C8, as stated, fails on scenario A: the first worklist step on the
    channel adopts a type, resolves [$T] and re-enqueues the channel; the
    second step on it returns without an error and leaves the number of free
    identifiers as it is. *)
Lemma second_step_makes_no_progress :
  InferTypes_setup generic_to_int = Ok (after_setup generic_to_int) ∧
  inferChannelType (after_setup generic_to_int) (Some "c")
    = Ok (after_step (after_setup generic_to_int) (Some "c"), {[Some "c"]}) ∧
  inferChannelType (after_step (after_setup generic_to_int) (Some "c")) (Some "c")
    = Ok (after_step (after_setup generic_to_int) (Some "c"), ∅) ∧
  ¬ step_makes_progress
      (after_step (after_setup generic_to_int) (Some "c")) (Some "c").
Proof.
  split; [by_compute|]. split; [by_compute|].
  assert (inferChannelType (after_step (after_setup generic_to_int) (Some "c"))
            (Some "c")
          = Ok (after_step (after_setup generic_to_int) (Some "c"), ∅)) as Hstep
    by by_compute.
  split; [exact Hstep|].
  unfold step_makes_progress. rewrite Hstep. lia.
Qed.

(** ** The dropped unification error *)

Section errors.
Context {Src : Source}.

Lemma for_range_Raise {A S} (body : S → A → outcome S) l s err :
  for_range body l s = Raise err → ∃ s' x, body s' x = Raise err.
Proof.
  revert s. induction l as [|x l IH]; intros s; simpl; [done|].
  destruct (body s x) as [s1| | |] eqn:Hb; simpl; try done.
  - apply IH.
  - intros [= <-]. eauto.
Qed.

Lemma applyTypeParams_Raise n tys err :
  applyTypeParams n tys = Raise err → ∃ e, err = SourceError e.
Proof.
  unfold applyTypeParams.
  destruct (for_range _ _ _) as [s| | |] eqn:Hloop; simpl; try done.
  intros [= <-]. apply for_range_Raise in Hloop as (s' & pp & Hb).
  unfold refine_pin in Hb.
  destruct (Refine tys pp.2) as [e|[pt' changed]]; [by simplify_eq; eauto|].
  destruct changed; simpl in Hb; [by case_decide|done].
Qed.

Lemma infer_pin_Raise c s np summary src :
  infer_pin c s np = Raise (TypeIncompatibilityError summary src) →
  summary = "channel type refinement failed".
Proof.
  unfold infer_pin.
  destruct (Nodes s.1 !! np_Node np) as [n|]; [|done].
  destruct (Channels s.1 !! c) as [ch|]; [|done].
  destruct (ChanType ch) as [r|]; [|done].
  destruct (getPinType s.1 r) as [ctype|]; [|done].
  destruct (Refine _ ctype) as [|[ctype' ?]]; [by intros [= <- _]|].
  destruct (Nodes _ !! np_Node np) as [n1|]; [|done].
  destruct (applyTypeParams n1 _) as [[n2 nxcn]| | |] eqn:Happ; simpl; try done.
  intros [= ->]. by apply applyTypeParams_Raise in Happ as [e ?].
Qed.

End errors.

(** C1 fails on the code.  [inferChannelType] discards the error of
    [g.types.Infer] and tests the named result [err] instead, so the only
    type-incompatibility error a step can return is "channel type refinement
    failed"; on a channel wired to an [int] pin and a [string] pin, for which
    unification reports a conflict, [InferTypes] returns nil and leaves the
    two pin types as declared. *)
Theorem InferTypes_misses_conflict :
  (∀ (Src : Source) c s np summary src,
     infer_pin c s np = Raise (TypeIncompatibilityError summary src) →
     summary = "channel type refinement failed") ∧
  (@Infer texpr_source ∅ (TName "int") (Some (TName "string"))).2
    = Some "mismatched type names" ∧
  InferTypes 2 int_to_string = Ok (after_pass 2 int_to_string) ∧
  pin_type (after_pass 2 int_to_string) "X" "out" = Some (TName "int") ∧
  pin_type (after_pass 2 int_to_string) "Y" "in" = Some (TName "string").
Proof.
  split; [intros Src; apply infer_pin_Raise|].
  split; [done|]. split; [by_compute|]. split; by_compute.
Qed.

(** ** What a successful pass leaves *)

Section finish.
Context {Src : Source} {Laws : SourceLaws Src}.
Implicit Types (g : Graph) (nodes : gmap string Node).

Lemma publish_loop (bl : list (TypeParam * SType)) nodes nodes' k n' :
  NoDup bl.*1 → for_range publish bl nodes = Ok nodes' →
  nodes' !! k = Some n' →
  ∃ n, nodes !! k = Some n ∧ pinTypes n' = pinTypes n ∧
    ∀ id, typeParams n' !! id =
      match (list_to_map bl : gmap TypeParam SType) !! mkTypeParam k id with
      | Some typ => Some (TypeString typ)
      | None => typeParams n !! id
      end.
Proof.
  revert nodes. induction bl as [|[tp typ] bl IH]; intros nodes Hnd.
  { simpl. intros [= <-] Hn'. exists n'. split; [done|]. split; [done|].
    intros id. by rewrite lookup_empty. }
  rewrite fmap_cons in Hnd. apply NoDup_cons in Hnd as [Htp Hnd].
  cbn [for_range]. rewrite list_to_map_cons. cbn [fst snd].
  intros (nodes1 & Hstep & Hrest)%bind_Ok Hn'.
  destruct (IH _ Hnd Hrest Hn') as (n1 & Hn1 & Hpt & Hparams).
  unfold publish in Hstep; simpl in Hstep.
  destruct (nodes !! Scope tp) as [n0|] eqn:Hn0; [|done].
  injection Hstep as <-.
  assert ((list_to_map bl : gmap TypeParam SType) !! tp = None) as Hfresh
    by (by apply not_elem_of_list_to_map_1).
  destruct (decide (k = Scope tp)) as [->|Hk].
  - rewrite lookup_insert_eq in Hn1. injection Hn1 as <-.
    exists n0. split; [done|]. split; [done|]. intros id.
    rewrite Hparams. simpl.
    destruct (decide (id = Ident tp)) as [->|Hid].
    + assert (mkTypeParam (Scope tp) (Ident tp) = tp) as -> by (by destruct tp).
      by rewrite Hfresh, !lookup_insert_eq.
    + rewrite (lookup_insert_ne _ tp) by (by destruct tp; intros [= ]).
      by rewrite lookup_insert_ne.
  - rewrite lookup_insert_ne in Hn1 by done.
    exists n1. split; [done|]. split; [done|]. intros id.
    rewrite Hparams.
    by rewrite (lookup_insert_ne _ tp) by (destruct tp; intros [= ]; done).
Qed.

Lemma InferTypes_finish_Ok g g' k n' :
  InferTypes_finish g = Ok g' → Nodes g' !! k = Some n' →
  (∀ pn t, pinTypes n' !! pn = Some t → ∃ t0, t = Lithify typeEmptyInterface t0) ∧
  (∀ id, typeParams n' !! id = TypeString <$> types g' !! mkTypeParam k id).
Proof.
  unfold InferTypes_finish. cbv zeta.
  intros (nodes & Hloop & [= <-])%bind_Ok Hn'. cbn [Nodes types] in *.
  destruct (publish_loop _ _ _ k n' (NoDup_fst_map_to_list _) Hloop Hn')
    as (n & Hn & Hpt & Hparams).
  rewrite lookup_fmap in Hn. apply fmap_Some in Hn as (n0 & Hn0 & ->).
  split.
  - intros pn t. rewrite Hpt. simpl. rewrite lookup_fmap.
    intros (t0 & _ & ->)%fmap_Some. eauto.
  - intros id. rewrite Hparams, list_to_map_to_list. simpl.
    rewrite lookup_empty. by destruct (_ !! mkTypeParam k id).
Qed.

End finish.

(** ** Iteration orders *)

Section permute.
Context {A : Type}.
Implicit Types (l : list A) (code : list nat).

Lemma permute_Permutation code l : permute code l ≡ₚ l.
Proof.
  revert l. induction code as [|i code IH]; intros l; simpl; [done|].
  destruct (l !! i) as [x|] eqn:Hi; [|done].
  rewrite IH. symmetry. by apply delete_Permutation.
Qed.

Lemma permute_complete l l' : l' ≡ₚ l → ∃ code, permute code l = l'.
Proof.
  revert l. induction l' as [|x l' IH]; intros l Hperm.
  - apply Permutation_nil_l in Hperm as ->. by exists [].
  - assert (x ∈ l) as [i Hi]%list_elem_of_lookup_1.
    { rewrite <-Hperm. by left. }
    destruct (IH (delete i l)) as [code Hcode].
    { apply (Permutation_cons_inv (a:=x)).
      rewrite Hperm. by apply delete_Permutation. }
    exists (i :: code). simpl. by rewrite Hi, Hcode.
Qed.

Lemma elem_of_permute code l x : x ∈ permute code l ↔ x ∈ l.
Proof. by rewrite permute_Permutation. Qed.

Lemma permute_fmap {B} (f : A → B) code l :
  permute code (f <$> l) = f <$> permute code l.
Proof.
  revert l. induction code as [|i code IH]; intros l; simpl; [done|].
  rewrite list_lookup_fmap. destruct (l !! i) as [x|]; simpl; [|done].
  by rewrite <-list_fmap_delete, IH.
Qed.

End permute.

Lemma NoDup_fst_permute {K A} `{Countable K} code (m : gmap K A) :
  NoDup (permute code (map_to_list m)).*1.
Proof.
  rewrite permute_Permutation. apply NoDup_fst_map_to_list.
Qed.

Lemma elem_of_permute_map {K A} `{Countable K} code (m : gmap K A) k x :
  (k, x) ∈ permute code (map_to_list m) ↔ m !! k = Some x.
Proof. by rewrite elem_of_permute, elem_of_map_to_list. Qed.

Lemma list_to_map_permute {K A} `{Countable K} code (m : gmap K A) :
  list_to_map (permute code (map_to_list m)) = m.
Proof.
  rewrite <-(list_to_map_to_list m) at 2.
  apply list_to_map_proper; [apply NoDup_fst_permute|apply permute_Permutation].
Qed.

Section in_order.
Context {Src : Source}.

Lemma flood_in_order i fuel q (g : Graph) :
  flood_in in_order i fuel q g = flood fuel q g.
Proof.
  revert i q g. induction fuel as [|fuel IH]; intros i q g;
    destruct q as [|c q]; try done.
  simpl. change (inferChannelType_in [] (λ _, []) g c)
    with (inferChannelType g c).
  destruct (inferChannelType g c) as [[g' next]| | |]; simpl; auto.
Qed.

(** The pass defined first is the pass under the schedule [in_order]. *)
Lemma InferTypes_in_order fuel (g : Graph) :
  InferTypes_in in_order fuel g = InferTypes fuel g.
Proof.
  unfold InferTypes_in, InferTypes.
  change (InferTypes_setup_in in_order g) with (InferTypes_setup g).
  destruct (InferTypes_setup g) as [g1| | |]; simpl; try done.
  rewrite flood_in_order. by destruct (flood fuel _ g1).
Qed.

End in_order.

Section finish_in.
Context {Src : Source}.
Implicit Types (g : Graph) (σ : Schedule).

Lemma InferTypes_finish_in_Ok σ g g' k n' :
  InferTypes_finish_in σ g = Ok g' → Nodes g' !! k = Some n' →
  (∀ pn t, pinTypes n' !! pn = Some t → ∃ t0, t = Lithify typeEmptyInterface t0) ∧
  (∀ id, typeParams n' !! id = TypeString <$> types g' !! mkTypeParam k id).
Proof.
  unfold InferTypes_finish_in. cbv zeta.
  intros (nodes & Hloop & [= <-])%bind_Ok Hn'. cbn [Nodes types] in *.
  destruct (publish_loop _ _ _ k n' (NoDup_fst_permute _ _) Hloop Hn')
    as (n & Hn & Hpt & Hparams).
  rewrite lookup_fmap in Hn. apply fmap_Some in Hn as (n0 & Hn0 & ->).
  split.
  - intros pn t. rewrite Hpt. simpl. rewrite lookup_fmap.
    intros (t0 & _ & ->)%fmap_Some. eauto.
  - intros id. rewrite Hparams, list_to_map_permute. simpl.
    rewrite lookup_empty. by destruct (_ !! mkTypeParam k id).
Qed.

Lemma InferTypes_in_Ok_finish σ fuel g g' :
  InferTypes_in σ fuel g = Ok g' → ∃ g2, InferTypes_finish_in σ g2 = Ok g'.
Proof.
  unfold InferTypes_in.
  intros (g1 & _ & (g2 & _ & Hfinish)%bind_Ok)%bind_Ok. eauto.
Qed.

End finish_in.

(** C2, as amended.  Under every schedule: when [InferTypes] returns nil,
    every pin type is the lithification of a type and has no free
    identifier, hence so has every channel type (a channel's type is the pin
    type it adopted), and the binding map of each node holds exactly the
    entries of the inference map scoped to that node, as strings. *)
Theorem InferTypes_resolves `{Src : Source} `{!SourceLaws Src} σ fuel g g' :
  InferTypes_in σ fuel g = Ok g' →
  (∀ k n pn t, Nodes g' !! k = Some n → pinTypes n !! pn = Some t →
     free_idents t = 0 ∧ ∃ t0, t = Lithify typeEmptyInterface t0) ∧
  (∀ c t, channel_type g' c = Some t → free_idents t = 0) ∧
  (∀ k n id, Nodes g' !! k = Some n →
     typeParams n !! id = TypeString <$> types g' !! mkTypeParam k id).
Proof.
  intros [g2 Hfinish]%InferTypes_in_Ok_finish.
  assert (∀ k n pn t, Nodes g' !! k = Some n → pinTypes n !! pn = Some t →
            free_idents t = 0 ∧ ∃ t0, t = Lithify typeEmptyInterface t0) as Hpins.
  { intros k n pn t Hn Ht.
    destruct (InferTypes_finish_in_Ok σ g2 g' k n Hfinish Hn) as [Hlith _].
    destruct (Hlith pn t Ht) as [t0 ->]. split; [apply Lithify_closed|eauto]. }
  split; [exact Hpins|]. split.
  - intros c t. unfold channel_type.
    destruct (Channels g' !! c) as [ch|]; [|done]. simpl.
    destruct (ChanType ch) as [r|]; [|done]. simpl.
    intros (n & Hn & Ht)%getPinType_Some. by destruct (Hpins _ _ _ _ Hn Ht).
  - intros k n id Hn.
    by destruct (InferTypes_finish_in_Ok σ g2 g' k n Hfinish Hn) as [_ ->].
Qed.

Lemma InferTypes_resolves_witness :
  InferTypes_in in_order 2 generic_to_int
    = Ok (after_pass_in in_order 2 generic_to_int) ∧
  channel_type (after_pass_in in_order 2 generic_to_int) "c"
    = Some (TName "int") ∧
  @free_idents texpr_source (TName "int") = 0.
Proof.
  assert (InferTypes_in in_order 2 generic_to_int
          = Ok (after_pass_in in_order 2 generic_to_int)) as Hrun by by_compute.
  assert (channel_type (after_pass_in in_order 2 generic_to_int) "c"
          = Some (TName "int")) as Hc by by_compute.
  split; [exact Hrun|]. split; [exact Hc|].
  exact (proj1 (proj2 (InferTypes_resolves in_order 2 generic_to_int _ Hrun))
           "c" _ Hc).
Defined.

(** C2, as stated, fails on a generic output wired to a generic input.  The
    pass returns nil and forces both pin types and the channel type to
    [interface{}], but the binding it publishes maps the parameter of one
    node to the parameter of the other node, ["$T"] or ["$U"] according to
    the order of the two pins, not to a concrete type, and the other node
    gets no binding at all. *)
Lemma generic_binding_is_not_concrete :
  InferTypes_in in_order 2 generic_to_generic
    = Ok (after_pass_in in_order 2 generic_to_generic) ∧
  pin_type (after_pass_in in_order 2 generic_to_generic) "X" "out"
    = Some (TName "interface{}") ∧
  pin_type (after_pass_in in_order 2 generic_to_generic) "Y" "in"
    = Some (TName "interface{}") ∧
  channel_type (after_pass_in in_order 2 generic_to_generic) "c"
    = Some (TName "interface{}") ∧
  bindings (after_pass_in in_order 2 generic_to_generic) "X" = Some ∅ ∧
  bindings (after_pass_in in_order 2 generic_to_generic) "Y"
    = Some {[ "U" := "$T" ]} ∧
  InferTypes_in second_pin_first 2 generic_to_generic
    = Ok (after_pass_in second_pin_first 2 generic_to_generic) ∧
  bindings (after_pass_in second_pin_first 2 generic_to_generic) "X"
    = Some {[ "T" := "$U" ]} ∧
  bindings (after_pass_in second_pin_first 2 generic_to_generic) "Y" = Some ∅.
Proof. repeat split; by_compute. Qed.

(** ** Independence of the prior type state *)

Section fresh_state.
Context {Src : Source}.
Implicit Types (g : Graph) (n : Node) (nodes : gmap string Node).
Implicit Types (σ : Schedule) (ro : NodePin → list nat) (po code : list nat).
Implicit Types (d : string → list nat).

Local Abbreviation clearP := (set_typeParams (λ _, ∅) : Node → Node).
Local Abbreviation forgetN := forget_node.

Local Arguments setPinType : simpl never.
Local Arguments clear_params : simpl never.
Local Arguments set_Nodes : simpl never.
Local Arguments set_types : simpl never.

Lemma fmap_Ok_bind {A B C} (f : A → B) (k : B → outcome C) (r : outcome A) :
  (f <$> r) ≫= k = r ≫= (λ a, k (f a)).
Proof. by destruct r. Qed.

Lemma clear_params_lookup g k :
  Nodes (clear_params g) !! k = clearP <$> Nodes g !! k.
Proof. unfold clear_params; simpl. by rewrite lookup_fmap. Qed.

Lemma getPinType_clear g r : getPinType (clear_params g) r = getPinType g r.
Proof.
  unfold getPinType. rewrite clear_params_lookup.
  by destruct (Nodes g !! np_Node r).
Qed.

Lemma clear_params_update g k n :
  set_Nodes <[k := clearP n]> (clear_params g)
  = clear_params (set_Nodes <[k := n]> g).
Proof. unfold clear_params, set_Nodes; simpl. by rewrite fmap_insert. Qed.

Lemma alter_clear (h : gmap string SType → gmap string SType) k nodes :
  alter (set_pinTypes h) k (clearP <$> nodes)
  = clearP <$> alter (set_pinTypes h) k nodes.
Proof.
  apply map_eq; intros k'. destruct (decide (k = k')) as [<-|Hne].
  - rewrite lookup_alter_eq, !lookup_fmap, lookup_alter_eq.
    by destruct (nodes !! k).
  - by rewrite lookup_alter_ne, !lookup_fmap, lookup_alter_ne.
Qed.

Lemma setPinType_clear r t g :
  setPinType r t (clear_params g) = clear_params (setPinType r t g).
Proof.
  unfold setPinType, clear_params, set_Nodes; simpl. f_equal. apply alter_clear.
Qed.

Lemma lithify_channels_clear g (l : list (string * Channel)) :
  foldl lithify_channel (clear_params g) l
  = clear_params (foldl lithify_channel g l).
Proof.
  revert g. induction l as [|kc l IH]; intros g; simpl; [done|].
  rewrite <-IH. f_equal. unfold lithify_channel.
  destruct (ChanType kc.2) as [r|]; [|done]. rewrite getPinType_clear.
  destruct (getPinType g r); [|done]. apply setPinType_clear.
Qed.

Lemma applyTypeParams_in_clear code n tys :
  applyTypeParams_in code (clearP n) tys
  = prod_map clearP id <$> applyTypeParams_in code n tys.
Proof.
  unfold applyTypeParams_in; simpl. by destruct (for_range _ _ _).
Qed.

Lemma infer_pin_in_clear ro (c : string) (s : Graph * gset (option string))
    (np : NodePin) :
  infer_pin_in ro c (prod_map clear_params id s) np
  = prod_map clear_params id <$> infer_pin_in ro c s np.
Proof.
  destruct s as [g next]. unfold infer_pin_in, prod_map; cbn [fst snd id].
  rewrite clear_params_lookup.
  destruct (Nodes g !! np_Node np) as [n|]; simpl; [|done].
  change (Channels (clear_params g)) with (Channels g).
  destruct (Channels g !! c) as [ch|]; [|done].
  destruct (ChanType ch) as [r|]; [|done].
  rewrite getPinType_clear.
  destruct (getPinType g r) as [ctype|]; [|done].
  change (types (clear_params g)) with (types g).
  destruct (Refine _ ctype) as [|[ctype' ?]]; [done|].
  change (set_types ?m (clear_params g)) with (clear_params (set_types m g)).
  rewrite alter_clear, lookup_fmap.
  destruct (alter _ _ _ !! np_Node np) as [n1|]; simpl; [|done].
  rewrite applyTypeParams_in_clear.
  destruct (applyTypeParams_in _ n1 _) as [[n2 nxcn]| | |]; simpl; try done.
  by rewrite setPinType_clear, clear_params_update.
Qed.

Lemma inferChannelType_in_clear po ro g c :
  inferChannelType_in po ro (clear_params g) c
  = prod_map clear_params id <$> inferChannelType_in po ro g c.
Proof.
  unfold inferChannelType_in. destruct c as [k|]; [|done].
  change (Channels (clear_params g)) with (Channels g).
  destruct (Channels g !! k) as [ch|]; [|done].
  apply (for_range_commute (prod_map clear_params id) (infer_pin_in ro k)
           (permute po (elements (Pins ch))) (g, ∅)).
  intros s np. apply infer_pin_in_clear.
Qed.

Lemma flood_in_clear σ i fuel q g :
  flood_in σ i fuel q (clear_params g) = clear_params <$> flood_in σ i fuel q g.
Proof.
  revert i q g. induction fuel as [|fuel IH]; intros i q g; destruct q as [|c q];
    try done.
  simpl. rewrite inferChannelType_in_clear.
  destruct (inferChannelType_in _ _ g c) as [[g' next]| | |]; simpl; done.
Qed.

Lemma InferTypes_finish_in_clear σ g :
  InferTypes_finish_in σ (clear_params g) = InferTypes_finish_in σ g.
Proof.
  unfold InferTypes_finish_in. cbv zeta.
  change (Channels (clear_params g)) with (Channels g).
  rewrite lithify_channels_clear.
  set (g1 := foldl lithify_channel g _).
  change (types (clear_params g1)) with (types g1).
  change (Channels (clear_params g1)) with (Channels g1).
  replace (lithify_node <$> Nodes (clear_params g1))
    with (lithify_node <$> Nodes g1); [done|].
  unfold clear_params; simpl. by rewrite <-map_fmap_compose.
Qed.

Lemma reset_nodes_in_forget d (l : list (string * Node))
    (nodes nodes' : gmap string Node) :
  NoDup l.*1 →
  (∀ k, nodes' !! k =
        (if decide (k ∈ l.*1) then forgetN else clearP) <$> nodes !! k) →
  for_range (reset_node_in d) (prod_map id forgetN <$> l) nodes'
  = fmap (M:=gmap string) clearP <$> for_range (reset_node_in d) l nodes.
Proof.
  revert nodes nodes'.
  induction l as [|[k0 n0] l IH]; intros nodes nodes' Hnd Hinv.
  { simpl. f_equal. apply map_eq; intros k. rewrite Hinv, lookup_fmap.
    by rewrite decide_False by apply not_elem_of_nil. }
  rewrite fmap_cons in Hnd. apply NoDup_cons in Hnd as [Hk0 Hnd].
  rewrite fmap_cons. cbn [for_range].
  change (reset_node_in d nodes' (prod_map id forgetN (k0, n0)))
    with (fresh_pin_types_in (d k0) n0 ≫= λ pts,
            Ok (<[k0 := clearP (set_pinTypes (λ _, pts) n0)]> nodes')).
  change (reset_node_in d nodes (k0, n0))
    with (fresh_pin_types_in (d k0) n0 ≫= λ pts,
            Ok (<[k0 := set_pinTypes (λ _, pts) n0]> nodes)).
  destruct (fresh_pin_types_in (d k0) n0) as [pts| | |]; simpl; try done.
  apply IH; [done|]. intros k. destruct (decide (k = k0)) as [->|Hne].
  - rewrite !lookup_insert_eq. by rewrite decide_False.
  - rewrite !lookup_insert_ne by done. rewrite Hinv.
    destruct (nodes !! k); simpl; [|done].
    destruct (decide (k ∈ l.*1)) as [Hin|Hnotin].
    + by rewrite decide_True by (by right).
    + rewrite decide_False; [done|]. by apply not_elem_of_cons.
Qed.

Lemma InferTypes_setup_in_forget σ g :
  InferTypes_setup_in σ (forget_types g) = clear_params <$> InferTypes_setup_in σ g.
Proof.
  unfold InferTypes_setup_in, forget_types. cbn [Nodes Channels].
  rewrite <-map_fmap_compose, map_to_list_fmap, permute_fmap.
  rewrite (reset_nodes_in_forget _ _ (Nodes g)).
  - destruct (for_range _ _ (Nodes g)); simpl; try done.
  - apply NoDup_fst_permute.
  - intros k. rewrite lookup_fmap.
    destruct (Nodes g !! k) as [n|] eqn:Hn; simpl; [|done].
    rewrite decide_True; [done|]. apply list_elem_of_fmap. exists (k, n).
    by rewrite elem_of_permute_map.
Qed.

Lemma InferTypes_in_forget σ fuel g :
  InferTypes_in σ fuel (forget_types g) = InferTypes_in σ fuel g.
Proof.
  unfold InferTypes_in. rewrite InferTypes_setup_in_forget, fmap_Ok_bind.
  destruct (InferTypes_setup_in σ g) as [g1| | |]; simpl; try done.
  change (Channels (clear_params g1)) with (Channels g1).
  rewrite flood_in_clear, fmap_Ok_bind.
  destruct (flood_in σ 0 fuel _ g1); simpl; try done.
  apply InferTypes_finish_in_clear.
Qed.

End fresh_state.

(** ** Unconnected pins *)

Section loops_char.
Context {Src : Source}.
Implicit Types (g : Graph) (n : Node) (pts : gmap string SType).
Implicit Types (tys : gmap TypeParam SType) (conns : gmap string string).

Lemma for_range_total {A S} (P : S → Prop) (body : S → A → outcome S) l s :
  (∀ s x, x ∈ l → P s → ∃ s', body s x = Ok s' ∧ P s') →
  P s → ∃ s', for_range body l s = Ok s' ∧ P s'.
Proof.
  revert s. induction l as [|x l IH]; intros s Hstep Hs; simpl; [by eauto|].
  destruct (Hstep s x) as (s1 & -> & Hs1); [by left|done|]. simpl.
  apply IH; [|done]. intros ????; apply Hstep; [by right|done].
Qed.

Lemma for_range_simulate {A S} (P : S → Prop) (f : S → S)
    (body : S → A → outcome S) l s s' :
  (∀ s x s', x ∈ l → P s → body s x = Ok s' → body (f s) x = Ok (f s') ∧ P s') →
  P s → for_range body l s = Ok s' → for_range body l (f s) = Ok (f s') ∧ P s'.
Proof.
  revert s. induction l as [|x l IH]; intros s Hstep Hs; simpl.
  - by intros [= <-].
  - intros (s1 & Hb & Hrest)%bind_Ok.
    destruct (Hstep s x s1) as [-> Hs1]; [by left|done..|]. simpl.
    apply IH; [|done..]. intros ????; apply Hstep. by right.
Qed.

(** *** The loop of [applyTypeParams], whatever the order of the pins *)

Lemma refine_pin_Ok conns tys (s s' : gmap string SType * gset string) pn pt :
  refine_pin conns tys s (pn, pt) = Ok s' →
  ∃ pt' changed, Refine tys pt = inr (pt', changed) ∧
    s'.1 = <[pn := pt']> s.1 ∧
    ∀ cn, cn ∈ s'.2 ↔
      cn ∈ s.2 ∨ (changed = true ∧ default "" (conns !! pn) = cn ∧
                  cn ≠ "" ∧ cn ≠ unconnected).
Proof.
  unfold refine_pin; cbn [fst snd].
  destruct (Refine tys pt) as [|[pt' changed]]; [done|].
  exists pt', changed. split; [done|].
  destruct changed; simpl in *.
  - case_decide as Hch; simplify_eq; simpl; (split; [done|]); intros cn.
    + naive_solver.
    + rewrite elem_of_union, elem_of_singleton. naive_solver.
  - simplify_eq; simpl. split; [done|]. naive_solver.
Qed.

Lemma refine_loop_char conns tys l pts nx res :
  NoDup l.*1 →
  for_range (refine_pin conns tys) l (pts, nx) = Ok res →
  (∀ pn pt, (pn, pt) ∈ l →
     ∃ pt' changed, Refine tys pt = inr (pt', changed) ∧ res.1 !! pn = Some pt') ∧
  (∀ pn, pn ∉ l.*1 → res.1 !! pn = pts !! pn) ∧
  (∀ cn, cn ∈ res.2 ↔
     cn ∈ nx ∨ ∃ pn pt pt', (pn, pt) ∈ l ∧ Refine tys pt = inr (pt', true) ∧
                default "" (conns !! pn) = cn ∧ cn ≠ "" ∧ cn ≠ unconnected).
Proof.
  revert pts nx. induction l as [|[pn pt] l IH]; intros pts nx Hnd.
  { simpl. intros [= <-]. simpl. split; [|split; [done|]].
    - by intros ?? ?%elem_of_nil.
    - intros cn. split; [by left|]. intros [?|(? & ? & ? & ?%elem_of_nil & _)]; done. }
  rewrite fmap_cons in Hnd. apply NoDup_cons in Hnd as [Hpn Hnd].
  cbn [for_range]. intros ([pts1 nx1] & Hstep & Hrest)%bind_Ok.
  apply refine_pin_Ok in Hstep as (pt' & changed & Href & Hpts1 & Hnx1).
  cbn [fst snd] in *. subst pts1.
  destruct (IH _ _ Hnd Hrest) as (Hin & Hout & Hnext).
  split; [|split].
  - intros pn2 pt2 [[= -> ->]|Hin2]%elem_of_cons.
    + exists pt', changed. split; [done|].
      by rewrite Hout, lookup_insert_eq.
    + by apply Hin.
  - intros pn2 [Hne Hnot]%not_elem_of_cons.
    rewrite Hout by done. by rewrite lookup_insert_ne.
  - intros cn. rewrite Hnext, Hnx1. split.
    + intros [[?|(-> & Hc)]|(pn2 & pt2 & pt2' & Hin2 & ?)].
      * by left.
      * right. exists pn, pt, pt'. split; [by left|done].
      * right. exists pn2, pt2, pt2'. split; [by right|done].
    + intros [?|(pn2 & pt2 & pt2' & [[= -> ->]|Hin2]%elem_of_cons & Href2 & Hc)].
      * by left; left.
      * left; right. rewrite Href in Href2. by simplify_eq.
      * right. by exists pn2, pt2, pt2'.
Qed.

Lemma refine_loop_total conns tys l pts nx :
  (∀ pn pt, (pn, pt) ∈ l → ∃ pt' changed, Refine tys pt = inr (pt', changed)) →
  ∃ res, for_range (refine_pin conns tys) l (pts, nx) = Ok res.
Proof.
  intros Hall.
  destruct (for_range_total (λ _, True) (refine_pin conns tys) l (pts, nx))
    as (res & Hres & _); [|done|by eauto].
  intros s [pn pt] Hin _. destruct (Hall pn pt Hin) as (pt' & changed & Href).
  unfold refine_pin; cbn [fst snd]. rewrite Href.
  destruct changed; simpl; [case_decide|]; eauto.
Qed.

Lemma applyTypeParams_char n tys n' next :
  applyTypeParams n tys = Ok (n', next) →
  NodeName n' = NodeName n ∧ PartPins n' = PartPins n ∧
  Connections n' = Connections n ∧ typeParams n' = typeParams n ∧
  (∀ pn, pinTypes n' !! pn =
         pt ← pinTypes n !! pn;
         match Refine tys pt with inr (pt', _) => Some pt' | inl _ => None end) ∧
  (∀ pn pt, pinTypes n !! pn = Some pt →
            ∃ pt' changed, Refine tys pt = inr (pt', changed)) ∧
  (∀ cn, cn ∈ next ↔
     ∃ pn pt pt', pinTypes n !! pn = Some pt ∧ Refine tys pt = inr (pt', true) ∧
       default "" (Connections n !! pn) = cn ∧ cn ≠ "" ∧ cn ≠ unconnected).
Proof.
  unfold applyTypeParams. intros (res & Hloop & [= <- <-])%bind_Ok.
  apply refine_loop_char in Hloop as (Hin & Hout & Hnext);
    [|apply NoDup_fst_map_to_list].
  do 4 (split; [done|]). split; [|split].
  - intros pn. simpl. destruct (pinTypes n !! pn) as [pt|] eqn:Hpt; simpl.
    + destruct (Hin pn pt) as (pt' & changed & Href & ->);
        [by apply elem_of_map_to_list|]. by rewrite Href.
    + rewrite Hout, Hpt; [done|].
      intros ([pn' pt] & -> & Hin'%elem_of_map_to_list)%list_elem_of_fmap.
      simpl in *. congruence.
  - intros pn pt Hpt%elem_of_map_to_list.
    destruct (Hin pn pt Hpt) as (pt' & changed & Href & _). eauto.
  - intros cn. rewrite Hnext. setoid_rewrite elem_of_map_to_list.
    split; [|by right]. intros [?%not_elem_of_empty|?]; done.
Qed.

Lemma applyTypeParams_total n tys :
  (∀ pn pt, pinTypes n !! pn = Some pt →
            ∃ pt' changed, Refine tys pt = inr (pt', changed)) →
  ∃ res, applyTypeParams n tys = Ok res.
Proof.
  intros Hall. unfold applyTypeParams.
  destruct (refine_loop_total (Connections n) tys (map_to_list (pinTypes n))
              (pinTypes n) ∅) as [res ->]; [|by eauto].
  intros pn pt Hin%elem_of_map_to_list. eauto.
Qed.

Lemma applyTypeParams_erase p n tys n' next :
  default "" (Connections n !! p) = "" ∨
  default "" (Connections n !! p) = unconnected →
  applyTypeParams n tys = Ok (n', next) →
  applyTypeParams (erase_node p n) tys = Ok (erase_node p n', next).
Proof.
  intros Hconn Happ.
  pose proof (applyTypeParams_char _ _ _ _ Happ)
    as (Hname & Hpins & Hconns & Hparams & Hpts & Hall & Hnext).
  destruct (applyTypeParams_total (erase_node p n) tys) as [[n2 next2] Happ2].
  { intros pn pt. simpl. intros [_ Hpt]%lookup_delete_Some. eauto. }
  rewrite Happ2. f_equal.
  pose proof (applyTypeParams_char _ _ _ _ Happ2)
    as (Hname2 & Hpins2 & Hconns2 & Hparams2 & Hpts2 & _ & Hnext2).
  simpl in *. f_equal.
  - apply Node_eq; simpl; try congruence.
    apply map_eq; intros pn. rewrite Hpts2.
    destruct (decide (p = pn)) as [->|Hne].
    + by rewrite !lookup_delete_eq.
    + by rewrite !lookup_delete_ne, Hpts.
  - apply set_eq; intros cn. rewrite Hnext, Hnext2. split.
    + intros (pn & pt & pt' & [_ Hpt]%lookup_delete_Some & ?). eauto 10.
    + intros (pn & pt & pt' & Hpt & Href & Hcn & Hne1 & Hne2).
      exists pn, pt, pt'. split; [|done]. apply lookup_delete_Some.
      split; [|done]. intros ->. destruct Hconn; congruence.
Qed.

End loops_char.

Section erase.
Context {Src : Source} (r : NodePin).
Implicit Types (g : Graph) (n : Node) (nodes : gmap string Node).

Local Abbreviation E := (erase_at r).

Lemma erase_pin_lookup g k :
  Nodes (erase_pin r g) !! k = E k <$> Nodes g !! k.
Proof.
  unfold erase_pin, erase_at; simpl. case_decide as Hk.
  - subst k. by rewrite lookup_alter_eq.
  - rewrite lookup_alter_ne by done. by destruct (Nodes g !! k).
Qed.

Lemma alter_erase_insert nodes k n :
  <[k := E k n]> (alter (erase_node (np_Pin r)) (np_Node r) nodes)
  = alter (erase_node (np_Pin r)) (np_Node r) (<[k := n]> nodes).
Proof.
  apply map_eq; intros k'. unfold erase_at. case_decide as Hk.
  - subst k. destruct (decide (np_Node r = k')) as [<-|Hne].
    + by rewrite lookup_insert_eq, lookup_alter_eq, lookup_insert_eq.
    + by rewrite lookup_insert_ne, !lookup_alter_ne, lookup_insert_ne.
  - destruct (decide (k = k')) as [<-|Hne].
    + by rewrite lookup_insert_eq, lookup_alter_ne, lookup_insert_eq.
    + rewrite lookup_insert_ne by done.
      destruct (decide (np_Node r = k')) as [<-|Hne'].
      * by rewrite !lookup_alter_eq, lookup_insert_ne.
      * by rewrite !lookup_alter_ne, lookup_insert_ne.
Qed.

Lemma erase_pin_update g k n :
  set_Nodes <[k := E k n]> (erase_pin r g) = erase_pin r (set_Nodes <[k := n]> g).
Proof. unfold erase_pin, set_Nodes; simpl. f_equal. apply alter_erase_insert. Qed.

Lemma pinTypes_erase k n pin :
  mkNodePin k pin ≠ r → pinTypes (E k n) !! pin = pinTypes n !! pin.
Proof.
  intros Hne. unfold erase_at. case_decide as Hk; [|done]. simpl.
  rewrite lookup_delete_ne; [done|]. intros <-. apply Hne. by destruct r; subst.
Qed.

Lemma getPinType_erase g r' :
  r' ≠ r → getPinType (erase_pin r g) r' = getPinType g r'.
Proof.
  intros Hne. unfold getPinType. rewrite erase_pin_lookup.
  destruct (Nodes g !! np_Node r') as [n|]; simpl; [|done].
  apply pinTypes_erase. by destruct r'.
Qed.

Lemma setPinType_erase g r' t :
  r' ≠ r → setPinType r' t (erase_pin r g) = erase_pin r (setPinType r' t g).
Proof.
  intros Hne. unfold setPinType, erase_pin, set_Nodes; simpl. f_equal.
  apply map_eq; intros k. rewrite !lookup_alter.
  repeat case_decide; subst; try congruence.
  match goal with H : np_Node r = np_Node r' |- _ => rewrite H end.
  destruct (Nodes g !! np_Node r') as [n|]; simpl; [|done]. f_equal.
  apply Node_eq; simpl; try done.
  rewrite delete_insert_ne; [done|]. intros Hp. apply Hne.
  destruct r, r'; simpl in *; congruence.
Qed.

(** *** One pin of one step *)

Lemma infer_pin_invariant c g next np g' next' :
  pin_uncached g r → pin_unconnected g r → np ≠ r →
  infer_pin c (g, next) np = Ok (g', next') →
  pin_uncached g' r ∧ pin_unconnected g' r.
Proof.
  intros Hunc Hconn Hnp. unfold infer_pin; cbn [fst snd].
  destruct (Nodes g !! np_Node np) as [n|] eqn:Hn; [|done].
  destruct (Channels g !! c) as [ch|] eqn:Hch; [|done].
  destruct (ChanType ch) as [r'|] eqn:Hr'.
  - destruct (getPinType g r') as [ctype|] eqn:Hctype; [|done].
    destruct (Refine _ ctype) as [|[ctype' changed]]; [done|].
    destruct (Nodes (setPinType _ _ _) !! np_Node np) as [n1|] eqn:Hn1; [|done].
    destruct (applyTypeParams n1 _) as [[n2 nxcn]| | |] eqn:Happ; try done.
    simpl. intros [= <- <-]. split; [done|].
    apply applyTypeParams_char in Happ as (_ & _ & Hc2 & _).
    unfold pin_unconnected in *. simpl.
    destruct (decide (np_Node np = np_Node r)) as [Heq|Hne].
    + rewrite <-Heq, lookup_insert_eq, Hc2.
      unfold setPinType in Hn1; simpl in Hn1.
      rewrite <-Heq, Hn in Hconn.
      destruct (decide (np_Node r' = np_Node np)) as [Heq'|Hne'].
      * rewrite Heq', lookup_alter_eq, Hn in Hn1. by simplify_eq/=.
      * rewrite lookup_alter_ne, Hn in Hn1 by done. by simplify_eq/=.
    + rewrite lookup_insert_ne by done.
      destruct (decide (np_Node r' = np_Node r)) as [Heq'|Hne'].
      * rewrite Heq', lookup_alter_eq.
        by destruct (Nodes g !! np_Node r).
      * by rewrite lookup_alter_ne.
  - intros [= <- <-]. split; [|done].
    intros k ch'. simpl. destruct (decide (c = k)) as [<-|Hne].
    + rewrite lookup_insert_eq. intros [= <-]. simpl.
      destruct (Hunc c ch Hch) as [Hpins _]. split; [done|].
      destruct (pinTypes n !! np_Pin np); congruence.
    + rewrite lookup_insert_ne by done. apply Hunc.
Qed.

Lemma infer_pin_erase c g next np g' next' :
  pin_uncached g r → pin_unconnected g r → np ≠ r →
  infer_pin c (g, next) np = Ok (g', next') →
  infer_pin c (erase_pin r g, next) np = Ok (erase_pin r g', next').
Proof.
  intros Hunc Hconn Hnp. unfold infer_pin; cbn [fst snd].
  rewrite erase_pin_lookup.
  destruct (Nodes g !! np_Node np) as [n|] eqn:Hn; [|done].
  change (Channels (erase_pin r g)) with (Channels g).
  destruct (Channels g !! c) as [ch|] eqn:Hch; [|done]. cbn [fmap option_fmap option_map].
  rewrite pinTypes_erase by (by destruct np).
  destruct (ChanType ch) as [r'|] eqn:Hr'; [|by intros [= <- <-]].
  assert (r' ≠ r) as Hr by (destruct (Hunc c ch Hch); congruence).
  rewrite getPinType_erase by done.
  destruct (getPinType g r') as [ctype|] eqn:Hctype; [|done].
  change (types (erase_pin r g)) with (types g).
  set (tys := (Infer (types g) ctype (pinTypes n !! np_Pin np)).1).
  destruct (Refine tys ctype) as [|[ctype' changed]]; [done|].
  change (set_types tys (erase_pin r g)) with (erase_pin r (set_types tys g)).
  rewrite setPinType_erase, erase_pin_lookup by done.
  destruct (Nodes (setPinType r' ctype' (set_types tys g)) !! np_Node np)
    as [n1|] eqn:Hn1; [|done]. cbn [fmap option_fmap option_map].
  destruct (applyTypeParams n1 tys) as [[n2 nxcn]| | |] eqn:Happ; try done.
  simpl. intros [= <- <-].
  assert (applyTypeParams (E (np_Node np) n1) tys = Ok (E (np_Node np) n2, nxcn))
    as ->.
  { unfold erase_at. case_decide as Hk; [|done].
    apply applyTypeParams_erase; [|done].
    unfold pin_unconnected in Hconn. rewrite <-Hk, Hn in Hconn.
    unfold setPinType in Hn1; simpl in Hn1.
    destruct (decide (np_Node r' = np_Node np)) as [Heq'|Hne'].
    - rewrite Heq', lookup_alter_eq, Hn in Hn1. by simplify_eq/=.
    - rewrite lookup_alter_ne, Hn in Hn1 by done. by simplify_eq/=. }
  simpl. by rewrite erase_pin_update.
Qed.

(** *** The last loops *)

Lemma lithify_channel_Channels g kc :
  Channels (lithify_channel g kc) = Channels g.
Proof.
  unfold lithify_channel. destruct (ChanType kc.2); [|done].
  by destruct (getPinType g _).
Qed.

Lemma lithify_channels_Channels g (l : list (string * Channel)) :
  Channels (foldl lithify_channel g l) = Channels g.
Proof.
  revert g. induction l as [|kc l IH]; intros g; simpl; [done|].
  by rewrite IH, lithify_channel_Channels.
Qed.

Lemma lithify_channels_erase g (l : list (string * Channel)) :
  (∀ kc, kc ∈ l → ChanType kc.2 ≠ Some r) →
  foldl lithify_channel (erase_pin r g) l
  = erase_pin r (foldl lithify_channel g l).
Proof.
  revert g. induction l as [|kc l IH]; intros g Hl; simpl; [done|].
  rewrite <-IH by (intros; apply Hl; by right). f_equal.
  unfold lithify_channel. destruct (ChanType kc.2) as [r'|] eqn:Hr'; [|done].
  assert (r' ≠ r) as Hne.
  { intros ->. by apply (Hl kc); [left|]. }
  rewrite getPinType_erase by done.
  destruct (getPinType g r'); [|done]. by apply setPinType_erase.
Qed.

Lemma lithify_nodes_erase nodes :
  lithify_node <$> alter (erase_node (np_Pin r)) (np_Node r) nodes
  = alter (erase_node (np_Pin r)) (np_Node r) (lithify_node <$> nodes).
Proof.
  apply map_eq; intros k. destruct (decide (np_Node r = k)) as [<-|Hne].
  - rewrite lookup_fmap, !lookup_alter_eq, lookup_fmap.
    destruct (nodes !! np_Node r) as [n|]; simpl; [|done]. f_equal.
    apply Node_eq; simpl; try done. by rewrite fmap_delete.
  - by rewrite lookup_fmap, !lookup_alter_ne, lookup_fmap.
Qed.

Lemma publish_erase nodes b :
  publish (alter (erase_node (np_Pin r)) (np_Node r) nodes) b
  = alter (erase_node (np_Pin r)) (np_Node r) <$> publish nodes b.
Proof.
  unfold publish. rewrite lookup_alter.
  destruct (decide (np_Node r = Scope b.1)) as [Heq|Hne].
  - rewrite <-Heq. destruct (nodes !! np_Node r) as [n|] eqn:Hn; simpl; [|done].
    f_equal. apply map_eq; intros k.
    destruct (decide (np_Node r = k)) as [<-|Hk].
    + by rewrite lookup_insert_eq, lookup_alter_eq, lookup_insert_eq.
    + by rewrite lookup_insert_ne, !lookup_alter_ne, lookup_insert_ne.
  - destruct (nodes !! Scope b.1) as [n|] eqn:Hn; simpl; [|done].
    f_equal. apply map_eq; intros k.
    destruct (decide (Scope b.1 = k)) as [<-|Hk].
    + by rewrite lookup_insert_eq, lookup_alter_ne, lookup_insert_eq.
    + rewrite lookup_insert_ne by done.
      destruct (decide (np_Node r = k)) as [<-|Hk'].
      * by rewrite !lookup_alter_eq, lookup_insert_ne.
      * by rewrite !lookup_alter_ne, lookup_insert_ne.
Qed.

Lemma InferTypes_finish_Channels g g' :
  InferTypes_finish g = Ok g' → Channels g' = Channels g.
Proof.
  unfold InferTypes_finish. cbv zeta. intros (nodes & _ & [= <-])%bind_Ok.
  apply lithify_channels_Channels.
Qed.

(** *** Instantiating the pin types *)

Lemma new_pin_types_char name l pts0 pts :
  NoDup l.*1 → for_range (new_pin_type name) l pts0 = Ok pts →
  (∀ pn ty, (pn, ty) ∈ l → ∃ t, NewType name ty = inr t ∧ pts !! pn = Some t) ∧
  (∀ pn, pn ∉ l.*1 → pts !! pn = pts0 !! pn).
Proof.
  revert pts0. induction l as [|[pn ty] l IH]; intros pts0 Hnd.
  { simpl. intros [= <-]. split; [|done]. by intros ?? ?%elem_of_nil. }
  rewrite fmap_cons in Hnd. apply NoDup_cons in Hnd as [Hpn Hnd].
  cbn [for_range]. intros (pts1 & Hstep & Hrest)%bind_Ok.
  unfold new_pin_type in Hstep; simpl in Hstep.
  destruct (NewType name ty) as [|t] eqn:Hnew; [done|]. injection Hstep as <-.
  destruct (IH _ Hnd Hrest) as [Hin Hout]. split.
  - intros pn2 ty2 [[= -> ->]|Hin2]%elem_of_cons.
    + exists t. split; [done|]. by rewrite Hout, lookup_insert_eq.
    + by apply Hin.
  - intros pn2 [Hne Hnot]%not_elem_of_cons.
    rewrite Hout by done. by rewrite lookup_insert_ne.
Qed.

Lemma fresh_pin_types_char n pts :
  fresh_pin_types n = Ok pts →
  (∀ pn, pts !! pn =
         ty ← PartPins n !! pn;
         match NewType (NodeName n) ty with inr t => Some t | inl _ => None end) ∧
  (∀ pn ty, PartPins n !! pn = Some ty → ∃ t, NewType (NodeName n) ty = inr t).
Proof.
  intros [Hin Hout]%new_pin_types_char; [|apply NoDup_fst_map_to_list]. split.
  - intros pn. destruct (PartPins n !! pn) as [ty|] eqn:Hty; simpl.
    + destruct (Hin pn ty) as (t & Hnew & ->); [by apply elem_of_map_to_list|].
      by rewrite Hnew.
    + rewrite Hout, lookup_empty; [done|].
      intros ([pn' ty] & -> & Hin'%elem_of_map_to_list)%list_elem_of_fmap.
      simpl in *. congruence.
  - intros pn ty Hty%elem_of_map_to_list.
    destruct (Hin pn ty Hty) as (t & ? & _). eauto.
Qed.

Lemma fresh_pin_types_total n :
  (∀ pn ty, PartPins n !! pn = Some ty → ∃ t, NewType (NodeName n) ty = inr t) →
  ∃ pts, fresh_pin_types n = Ok pts.
Proof.
  intros Hall.
  destruct (for_range_total (λ _, True) (new_pin_type (NodeName n))
              (map_to_list (PartPins n)) ∅) as (pts & Hpts & _); [|done|by eauto].
  intros pts [pn ty] Hin%elem_of_map_to_list _.
  destruct (Hall pn ty Hin) as [t Hnew].
  unfold new_pin_type; simpl. rewrite Hnew. eauto.
Qed.

Lemma fresh_pin_types_erase p n pts :
  fresh_pin_types n = Ok pts →
  fresh_pin_types (erase_node p n) = Ok (delete p pts).
Proof.
  intros [Hpts Hall]%fresh_pin_types_char.
  destruct (fresh_pin_types_total (erase_node p n)) as [pts' Hpts'].
  { intros pn ty. simpl. intros [_ Hty]%lookup_delete_Some. eauto. }
  rewrite Hpts'. f_equal.
  apply fresh_pin_types_char in Hpts' as [Hpts' _]. simpl in Hpts'.
  apply map_eq; intros pn. rewrite Hpts'.
  destruct (decide (p = pn)) as [->|Hne].
  - by rewrite !lookup_delete_eq.
  - by rewrite !lookup_delete_ne, Hpts.
Qed.

Lemma InferTypes_setup_total g :
  (∀ k n, Nodes g !! k = Some n → ∃ pts, fresh_pin_types n = Ok pts) →
  ∃ g1, InferTypes_setup g = Ok g1.
Proof.
  intros Hall. unfold InferTypes_setup.
  destruct (for_range_total (λ _, True) reset_node (map_to_list (Nodes g))
              (Nodes g)) as (nodes & -> & _); [|done|by eauto].
  intros nodes [k n] Hin%elem_of_map_to_list _.
  destruct (Hall k n Hin) as [pts Hpts].
  unfold reset_node; simpl. unfold fresh_pin_types in Hpts. rewrite Hpts.
  simpl. eauto.
Qed.

Lemma Graph_eq g1 g2 :
  Nodes g1 = Nodes g2 → Channels g1 = Channels g2 → types g1 = types g2 →
  g1 = g2.
Proof. destruct g1, g2; simpl; by intros -> -> ->. Qed.

Lemma erase_at_fresh k n pts :
  fresh_pin_types n = Ok pts →
  ∃ pts', fresh_pin_types (erase_at r k n) = Ok pts' ∧
          set_pinTypes (λ _, pts') (erase_at r k n)
          = erase_at r k (set_pinTypes (λ _, pts) n).
Proof.
  intros Hpts. unfold erase_at. case_decide.
  - exists (delete (np_Pin r) pts). split; [by apply fresh_pin_types_erase|done].
  - by exists pts.
Qed.

Lemma InferTypes_setup_erase g g1 :
  InferTypes_setup g = Ok g1 →
  InferTypes_setup (erase_pin r g) = Ok (erase_pin r g1).
Proof.
  intros Hsetup.
  pose proof (InferTypes_setup_Ok g g1 Hsetup) as (Htys & Hchans & Hnodes).
  destruct (InferTypes_setup_total (erase_pin r g)) as [g2 Hsetup2].
  { intros k n'. rewrite erase_pin_lookup.
    intros (n & Hn & ->)%fmap_Some. specialize (Hnodes k). rewrite Hn in Hnodes.
    destruct Hnodes as (pts & Hpts & _).
    destruct (erase_at_fresh k n pts Hpts) as (pts' & ? & _). eauto. }
  rewrite Hsetup2. f_equal.
  pose proof (InferTypes_setup_Ok _ g2 Hsetup2) as (Htys2 & Hchans2 & Hnodes2).
  apply Graph_eq; [|by rewrite Hchans2|by rewrite Htys2].
  apply map_eq; intros k. specialize (Hnodes k). specialize (Hnodes2 k).
  rewrite erase_pin_lookup in Hnodes2. rewrite erase_pin_lookup.
  destruct (Nodes g !! k) as [n|]; simpl in *.
  - destruct Hnodes as (pts & Hpts & ->).
    destruct Hnodes2 as (pts2 & Hpts2 & ->). simpl. f_equal.
    destruct (erase_at_fresh k n pts Hpts) as (pts' & Hpts' & <-).
    rewrite Hpts' in Hpts2. by injection Hpts2 as ->.
  - by rewrite Hnodes, Hnodes2.
Qed.

End erase.

(** ** What succeeds under one schedule succeeds under every schedule *)

Section any_order_ok.
Context {Src : Source}.
Implicit Types (g : Graph) (n : Node) (nodes : gmap string Node).
Implicit Types (σ : Schedule) (ro : NodePin → list nat) (po code : list nat).
Implicit Types (d : string → list nat) (tys : gmap TypeParam SType).

Lemma applyTypeParams_in_char code n tys n' next :
  applyTypeParams_in code n tys = Ok (n', next) →
  NodeName n' = NodeName n ∧ PartPins n' = PartPins n ∧
  Connections n' = Connections n ∧ typeParams n' = typeParams n ∧
  (∀ pn, pinTypes n' !! pn =
         pt ← pinTypes n !! pn;
         match Refine tys pt with inr (pt', _) => Some pt' | inl _ => None end) ∧
  (∀ pn pt, pinTypes n !! pn = Some pt →
            ∃ pt' changed, Refine tys pt = inr (pt', changed)) ∧
  (∀ cn, cn ∈ next ↔
     ∃ pn pt pt', pinTypes n !! pn = Some pt ∧ Refine tys pt = inr (pt', true) ∧
       default "" (Connections n !! pn) = cn ∧ cn ≠ "" ∧ cn ≠ unconnected).
Proof.
  unfold applyTypeParams_in. intros (res & Hloop & [= <- <-])%bind_Ok.
  apply refine_loop_char in Hloop as (Hin & Hout & Hnext);
    [|apply NoDup_fst_permute].
  do 4 (split; [done|]). split; [|split].
  - intros pn. simpl. destruct (pinTypes n !! pn) as [pt|] eqn:Hpt; simpl.
    + destruct (Hin pn pt) as (pt' & changed & Href & ->);
        [by apply elem_of_permute_map|]. by rewrite Href.
    + rewrite Hout, Hpt; [done|].
      intros ([pn' pt] & -> & Hin'%elem_of_permute_map)%list_elem_of_fmap.
      simpl in *. congruence.
  - intros pn pt Hpt%(elem_of_permute_map code).
    destruct (Hin pn pt Hpt) as (pt' & changed & Href & _). eauto.
  - intros cn. rewrite Hnext. setoid_rewrite elem_of_permute_map.
    split; [|by right]. intros [?%not_elem_of_empty|?]; done.
Qed.

Lemma applyTypeParams_in_total code n tys :
  (∀ pn pt, pinTypes n !! pn = Some pt →
            ∃ pt' changed, Refine tys pt = inr (pt', changed)) →
  ∃ res, applyTypeParams_in code n tys = Ok res.
Proof.
  intros Hall. unfold applyTypeParams_in.
  destruct (refine_loop_total (Connections n) tys
              (permute code (map_to_list (pinTypes n))) (pinTypes n) ∅)
    as [res ->]; [|by eauto].
  intros pn pt Hin%elem_of_permute_map. eauto.
Qed.

Lemma applyTypeParams_any_order code code' n tys res :
  applyTypeParams_in code n tys = Ok res →
  applyTypeParams_in code' n tys = Ok res.
Proof.
  destruct res as [n1 next1]. intros Happ.
  pose proof (applyTypeParams_in_char _ _ _ _ _ Happ)
    as (Hname & Hpins & Hconns & Hparams & Hpts & Hall & Hnext).
  destruct (applyTypeParams_in_total code' n tys Hall) as [[n2 next2] Happ2].
  rewrite Happ2. f_equal.
  pose proof (applyTypeParams_in_char _ _ _ _ _ Happ2)
    as (Hname2 & Hpins2 & Hconns2 & Hparams2 & Hpts2 & _ & Hnext2).
  f_equal.
  - apply Node_eq; try congruence.
    apply map_eq; intros pn. by rewrite Hpts, Hpts2.
  - apply set_eq; intros cn. by rewrite Hnext, Hnext2.
Qed.

Lemma infer_pin_any_order ro ro' c s np s' :
  infer_pin_in ro c s np = Ok s' → infer_pin_in ro' c s np = Ok s'.
Proof.
  unfold infer_pin_in.
  destruct (Nodes s.1 !! np_Node np) as [n|]; [|done].
  destruct (Channels s.1 !! c) as [ch|]; [|done].
  destruct (ChanType ch) as [r|]; [|done].
  destruct (getPinType s.1 r) as [ctype|]; [|done].
  destruct (Refine _ ctype) as [|[ctype' ?]]; [done|].
  destruct (Nodes _ !! np_Node np) as [n1|]; [|done].
  destruct (applyTypeParams_in (ro np) n1 _) as [res| | |] eqn:Happ; try done.
  by rewrite (applyTypeParams_any_order _ (ro' np) _ _ _ Happ).
Qed.

Lemma fresh_pin_types_in_char code n pts :
  fresh_pin_types_in code n = Ok pts →
  (∀ pn, pts !! pn =
         ty ← PartPins n !! pn;
         match NewType (NodeName n) ty with inr t => Some t | inl _ => None end) ∧
  (∀ pn ty, PartPins n !! pn = Some ty → ∃ t, NewType (NodeName n) ty = inr t).
Proof.
  intros [Hin Hout]%new_pin_types_char; [|apply NoDup_fst_permute]. split.
  - intros pn. destruct (PartPins n !! pn) as [ty|] eqn:Hty; simpl.
    + destruct (Hin pn ty) as (t & Hnew & ->); [by apply elem_of_permute_map|].
      by rewrite Hnew.
    + rewrite Hout, lookup_empty; [done|].
      intros ([pn' ty] & -> & Hin'%elem_of_permute_map)%list_elem_of_fmap.
      simpl in *. congruence.
  - intros pn ty Hty%(elem_of_permute_map code).
    destruct (Hin pn ty Hty) as (t & ? & _). eauto.
Qed.

Lemma fresh_pin_types_in_total code n :
  (∀ pn ty, PartPins n !! pn = Some ty → ∃ t, NewType (NodeName n) ty = inr t) →
  ∃ pts, fresh_pin_types_in code n = Ok pts.
Proof.
  intros Hall.
  destruct (for_range_total (λ _, True) (new_pin_type (NodeName n))
              (permute code (map_to_list (PartPins n))) ∅)
    as (pts & Hpts & _); [|done|by eauto].
  intros pts [pn ty] Hin%elem_of_permute_map _.
  destruct (Hall pn ty Hin) as [t Hnew].
  unfold new_pin_type; simpl. rewrite Hnew. eauto.
Qed.

Lemma fresh_pin_types_any_order code code' n pts :
  fresh_pin_types_in code n = Ok pts → fresh_pin_types_in code' n = Ok pts.
Proof.
  intros [Hpts Hall]%fresh_pin_types_in_char.
  destruct (fresh_pin_types_in_total code' n Hall) as [pts' Hpts'].
  rewrite Hpts'. f_equal.
  apply fresh_pin_types_in_char in Hpts' as [Hpts' _].
  apply map_eq; intros pn. by rewrite Hpts, Hpts'.
Qed.

Lemma reset_nodes_in d l nodes nodes' k :
  NoDup l.*1 → for_range (reset_node_in d) l nodes = Ok nodes' →
  ((k ∉ l.*1) ∧ nodes' !! k = nodes !! k) ∨
  (∃ n pts, (k, n) ∈ l ∧ fresh_pin_types_in (d k) n = Ok pts ∧
            nodes' !! k = Some (set_pinTypes (λ _, pts) n)).
Proof.
  revert nodes. induction l as [|[k0 n0] l IH]; intros nodes Hnd; simpl.
  { intros [= <-]. left. split; [apply not_elem_of_nil|done]. }
  apply NoDup_cons in Hnd as [Hk0 Hnd].
  intros (nodes1 & Hstep & Hrest)%bind_Ok.
  unfold reset_node_in in Hstep; simpl in Hstep.
  apply bind_Ok in Hstep as (pts & Hpts & [= <-]).
  destruct (IH _ Hnd Hrest) as [[Hk Heq]|(n & pts' & Hin & Hfresh & Heq)].
  - destruct (decide (k = k0)) as [->|Hne].
    + right. exists n0, pts. rewrite Heq, lookup_insert_eq.
      split; [by left|done].
    + left. rewrite Heq, lookup_insert_ne by done.
      split; [|done]. by apply not_elem_of_cons.
  - right. exists n, pts'. split; [by right|done].
Qed.

Lemma InferTypes_setup_in_Ok σ g g1 :
  InferTypes_setup_in σ g = Ok g1 →
  types g1 = ∅ ∧ Channels g1 = set_ChanType None <$> Channels g ∧
  ∀ k, match Nodes g !! k with
       | Some n => ∃ pts, fresh_pin_types_in (order_decls σ k) n = Ok pts ∧
                          Nodes g1 !! k = Some (set_pinTypes (λ _, pts) n)
       | None => Nodes g1 !! k = None
       end.
Proof.
  unfold InferTypes_setup_in. intros (nodes & Hloop & [= <-])%bind_Ok.
  split; [done|]. split; [done|]. intros k. simpl.
  destruct (reset_nodes_in _ _ _ _ k (NoDup_fst_permute _ _) Hloop)
    as [[Hk ->]|(n & pts & Hin%elem_of_permute_map & Hfresh & ->)].
  - destruct (Nodes g !! k) as [n|] eqn:Hn; [|done].
    exfalso. apply Hk. apply list_elem_of_fmap. exists (k, n).
    by rewrite elem_of_permute_map.
  - rewrite Hin. eauto.
Qed.

Lemma InferTypes_setup_in_total σ g :
  (∀ k n, Nodes g !! k = Some n → ∃ pts, fresh_pin_types n = Ok pts) →
  ∃ g1, InferTypes_setup_in σ g = Ok g1.
Proof.
  intros Hall. unfold InferTypes_setup_in.
  destruct (for_range_total (λ _, True) (reset_node_in (order_decls σ))
              (permute (order_nodes σ) (map_to_list (Nodes g))) (Nodes g))
    as (nodes & -> & _); [|done|by eauto].
  intros nodes [k n] Hin%elem_of_permute_map _.
  destruct (Hall k n Hin) as [pts Hpts].
  unfold reset_node_in; simpl.
  rewrite (fresh_pin_types_any_order [] (order_decls σ k) n pts Hpts).
  simpl. eauto.
Qed.

Lemma InferTypes_setup_any_order σ σ' g g1 :
  InferTypes_setup_in σ g = Ok g1 → InferTypes_setup_in σ' g = Ok g1.
Proof.
  intros Hsetup.
  pose proof (InferTypes_setup_in_Ok σ g g1 Hsetup) as (Htys & Hchans & Hnodes).
  destruct (InferTypes_setup_in_total σ' g) as [g2 Hsetup2].
  { intros k n Hn. specialize (Hnodes k). rewrite Hn in Hnodes.
    destruct Hnodes as (pts & Hpts & _). exists pts.
    exact (fresh_pin_types_any_order (order_decls σ k) [] n pts Hpts). }
  rewrite Hsetup2. f_equal.
  pose proof (InferTypes_setup_in_Ok σ' g g2 Hsetup2) as (Htys2 & Hchans2 & Hnodes2).
  apply Graph_eq; [|congruence..].
  apply map_eq; intros k. specialize (Hnodes k). specialize (Hnodes2 k).
  destruct (Nodes g !! k) as [n|]; [|congruence].
  destruct Hnodes as (pts & Hpts & ->). destruct Hnodes2 as (pts2 & Hpts2 & ->).
  apply (fresh_pin_types_any_order _ (order_decls σ' k)) in Hpts.
  rewrite Hpts in Hpts2. by injection Hpts2 as ->.
Qed.

End any_order_ok.

(** C5, as amended.  Under every schedule, [InferTypes] starts by replacing
    the transient type state: after the setup the inference map is empty,
    every channel type is unset and every node has the pin types
    instantiated from the declarations of its part under its own name.
    Hence two graphs that differ in nothing but their prior pin types,
    bindings, channel types and inference map get the same outcome when the
    loops of the two calls run in the same orders, for every bound on the
    iterations: the same error, or the same resulting graph. *)
Theorem InferTypes_fresh_state `{Src : Source} :
  (∀ σ g g1, InferTypes_setup_in σ g = Ok g1 →
     types g1 = ∅ ∧
     (∀ k c, Channels g1 !! k = Some c → ChanType c = None) ∧
     (∀ k n1, Nodes g1 !! k = Some n1 →
        ∃ n, Nodes g !! k = Some n ∧
             fresh_pin_types_in (order_decls σ k) n = Ok (pinTypes n1))) ∧
  (∀ σ fuel g1 g2, forget_types g1 = forget_types g2 →
     InferTypes_in σ fuel g1 = InferTypes_in σ fuel g2).
Proof.
  split.
  - intros σ g g1 (Htypes & Hchans & Hnodes)%InferTypes_setup_in_Ok.
    split; [done|]. split.
    + intros k c. rewrite Hchans, lookup_fmap.
      by intros (c0 & _ & ->)%fmap_Some.
    + intros k n1 Hn1. specialize (Hnodes k).
      destruct (Nodes g !! k) as [n|]; [|congruence].
      destruct Hnodes as (pts & Hfresh & Hk). exists n. split; [done|].
      rewrite Hk in Hn1. by injection Hn1 as <-.
  - intros σ fuel g1 g2 Hsame.
    by rewrite <-(InferTypes_in_forget σ fuel g1), Hsame, InferTypes_in_forget.
Qed.

Lemma InferTypes_fresh_state_witness :
  forget_types (after_pass_in second_pin_first 2 generic_to_int)
    = forget_types generic_to_int ∧
  InferTypes_in second_pin_first 2 (after_pass_in second_pin_first 2 generic_to_int)
    = InferTypes_in second_pin_first 2 generic_to_int.
Proof.
  assert (forget_types (after_pass_in second_pin_first 2 generic_to_int)
          = forget_types generic_to_int) as Hsame by by_compute.
  split; [exact Hsame|].
  exact (proj2 InferTypes_fresh_state second_pin_first 2 _ _ Hsame).
Defined.

(** C5, as stated, fails: two calls on one graph, with the same wiring and
    the same prior type state, need not yield the same result, because the
    result depends on the order in which the loop of [inferChannelType]
    visits the pins of a channel.  With the pins of [c] in one order the
    channel of [int_to_string] gets the type [string] and the input of
    [generic_to_generic] the binding of [U]; in the other order the channel
    gets the type [int] and the output the binding of [T]. *)
Lemma InferTypes_depends_on_order :
  InferTypes_in in_order 2 int_to_string
    = Ok (after_pass_in in_order 2 int_to_string) ∧
  InferTypes_in second_pin_first 2 int_to_string
    = Ok (after_pass_in second_pin_first 2 int_to_string) ∧
  channel_type (after_pass_in in_order 2 int_to_string) "c"
    = Some (TName "string") ∧
  channel_type (after_pass_in second_pin_first 2 int_to_string) "c"
    = Some (TName "int") ∧
  InferTypes_in in_order 2 generic_to_generic
    = Ok (after_pass_in in_order 2 generic_to_generic) ∧
  InferTypes_in second_pin_first 2 generic_to_generic
    = Ok (after_pass_in second_pin_first 2 generic_to_generic) ∧
  bindings (after_pass_in in_order 2 generic_to_generic) "Y"
    = Some {[ "U" := "$T" ]} ∧
  bindings (after_pass_in second_pin_first 2 generic_to_generic) "Y" = Some ∅.
Proof. repeat split; by_compute. Qed.

(** ** A pin that is connected to nothing, under any schedule *)

Section erase_in.
Context {Src : Source} (r : NodePin).
Implicit Types (g : Graph) (n : Node) (nodes : gmap string Node).
Implicit Types (σ : Schedule) (ro : NodePin → list nat) (po code : list nat).

Lemma infer_pin_in_erase ro c g next np g' next' :
  pin_uncached g r → pin_unconnected g r → np ≠ r →
  infer_pin_in ro c (g, next) np = Ok (g', next') →
  infer_pin_in ro c (erase_pin r g, next) np = Ok (erase_pin r g', next') ∧
  pin_uncached g' r ∧ pin_unconnected g' r.
Proof.
  intros Hunc Hconn Hne Hstep.
  apply (infer_pin_any_order ro (λ _, [])) in Hstep.
  change (infer_pin c (g, next) np = Ok (g', next')) in Hstep.
  split.
  - apply (infer_pin_any_order (λ _, []) ro).
    by apply (infer_pin_erase r c g next np g' next').
  - by apply (infer_pin_invariant r c g next np g' next').
Qed.

Lemma inferChannelType_in_erase po ro g c g' next :
  pin_uncached g r → pin_unconnected g r →
  inferChannelType_in po ro g c = Ok (g', next) →
  inferChannelType_in po ro (erase_pin r g) c = Ok (erase_pin r g', next) ∧
  pin_uncached g' r ∧ pin_unconnected g' r.
Proof.
  intros Hunc Hconn. unfold inferChannelType_in. destruct c as [k|]; [|done].
  change (Channels (erase_pin r g)) with (Channels g).
  destruct (Channels g !! k) as [ch|] eqn:Hch; [|done]. intros Hloop.
  destruct (Hunc k ch Hch) as [Hpins _].
  apply (for_range_simulate
           (λ s, pin_uncached s.1 r ∧ pin_unconnected s.1 r)
           (prod_map (erase_pin r) id)) in Hloop; [done| |done].
  intros [g1 nx1] np [g2 nx2] Hnp%elem_of_permute%elem_of_elements
    [Hunc1 Hconn1] Hstep.
  assert (np ≠ r) as Hne by (by intros ->).
  by apply (infer_pin_in_erase ro k g1 nx1 np g2 nx2).
Qed.

Lemma flood_in_erase σ i fuel q g g' :
  pin_uncached g r → pin_unconnected g r →
  flood_in σ i fuel q g = Ok g' →
  flood_in σ i fuel q (erase_pin r g) = Ok (erase_pin r g') ∧ pin_uncached g' r.
Proof.
  revert i q g. induction fuel as [|fuel IH]; intros i q g Hunc Hconn;
    destruct q as [|c q]; simpl; try done.
  - by intros [= <-].
  - by intros [= <-].
  - intros ([g1 next] & Hstep & Hrest)%bind_Ok.
    apply inferChannelType_in_erase in Hstep as (-> & Hunc1 & Hconn1); [|done..].
    simpl. by apply IH.
Qed.

Lemma InferTypes_finish_in_Channels σ g g' :
  InferTypes_finish_in σ g = Ok g' → Channels g' = Channels g.
Proof.
  unfold InferTypes_finish_in. cbv zeta. intros (nodes & _ & [= <-])%bind_Ok.
  apply lithify_channels_Channels.
Qed.

Lemma InferTypes_finish_in_erase σ g :
  pin_uncached g r →
  InferTypes_finish_in σ (erase_pin r g) = erase_pin r <$> InferTypes_finish_in σ g.
Proof.
  intros Hunc. unfold InferTypes_finish_in. cbv zeta.
  change (Channels (erase_pin r g)) with (Channels g).
  rewrite lithify_channels_erase.
  2:{ intros [k ch] Hin%elem_of_permute_map. by destruct (Hunc k ch Hin). }
  set (g1 := foldl lithify_channel g _).
  change (types (erase_pin r g1)) with (types g1).
  change (Channels (erase_pin r g1)) with (Channels g1).
  change (Nodes (erase_pin r g1))
    with (alter (erase_node (np_Pin r)) (np_Node r) (Nodes g1)).
  rewrite lithify_nodes_erase.
  rewrite (for_range_commute (alter (erase_node (np_Pin r)) (np_Node r)) publish)
    by apply publish_erase.
  by destruct (for_range publish _ _).
Qed.

Lemma InferTypes_setup_in_erase σ g g1 :
  InferTypes_setup_in σ g = Ok g1 →
  InferTypes_setup_in σ (erase_pin r g) = Ok (erase_pin r g1).
Proof.
  intros Hsetup%(InferTypes_setup_any_order σ in_order).
  apply (InferTypes_setup_any_order in_order σ).
  by apply (InferTypes_setup_erase r g g1).
Qed.

Lemma InferTypes_in_erase σ fuel g g' :
  pin_not_cached g r → pin_unconnected g r →
  InferTypes_in σ fuel g = Ok g' →
  InferTypes_in σ fuel (erase_pin r g) = Ok (erase_pin r g') ∧ pin_uncached g' r.
Proof.
  intros Hnc Hconn. unfold InferTypes_in.
  intros (g1 & Hsetup & (g2 & Hflood & Hfinish)%bind_Ok)%bind_Ok.
  pose proof (InferTypes_setup_in_Ok σ g g1 Hsetup) as (_ & Hchans & Hnodes).
  assert (pin_uncached g1 r) as Hunc1.
  { intros k ch1. rewrite Hchans, lookup_fmap.
    intros (ch & Hch & ->)%fmap_Some. simpl. split; [by apply (Hnc k)|done]. }
  assert (pin_unconnected g1 r) as Hconn1.
  { unfold pin_unconnected in *. specialize (Hnodes (np_Node r)).
    destruct (Nodes g !! np_Node r) as [n|].
    - by destruct Hnodes as (pts & _ & ->).
    - by rewrite Hnodes. }
  rewrite (InferTypes_setup_in_erase σ g g1 Hsetup). simpl.
  change (Channels (erase_pin r g1)) with (Channels g1).
  apply flood_in_erase in Hflood as [-> Hunc2]; [|done..]. simpl.
  rewrite InferTypes_finish_in_erase, Hfinish by done. split; [done|].
  intros k ch. rewrite (InferTypes_finish_in_Channels σ g2 g' Hfinish). apply Hunc2.
Qed.

End erase_in.


Section unconnected.
Context {Src : Source}.
Implicit Types (g : Graph) (n : Node).

Lemma unconnected_pin_not_cached g k n p :
  names_cached g → sentinel_free g → caches_fresh g →
  Nodes g !! k = Some n → Connections n !! p = Some unconnected →
  pin_not_cached g (mkNodePin k p) ∧ pin_unconnected g (mkNodePin k p).
Proof.
  intros [Hnn Hcn] Hsent Hfresh Hn Hp. split.
  - intros c ch Hch Hin. rewrite (fresh_cache g c ch) in Hin by done.
    destruct (wired_pins_node_exists g c _ Hnn Hin) as (n' & Hn' & _ & Hc).
    simpl in *. assert (c = unconnected) as -> by congruence.
    unfold sentinel_free in Hsent. congruence.
  - unfold pin_unconnected; simpl. rewrite Hn, Hp. by right.
Qed.

Lemma applyTypeParams_next n tys n' next :
  applyTypeParams n tys = Ok (n', next) → (unconnected ∉ next) ∧ "" ∉ next.
Proof.
  intros (_ & _ & _ & _ & _ & _ & Hnext)%applyTypeParams_char.
  split; intros (? & ? & ? & _ & _ & _ & ? & ?)%Hnext; done.
Qed.

Lemma erase_pin_same_wiring g1 g2 r :
  erase_pin r g1 = erase_pin r g2 →
  pin_not_cached g1 r → pin_unconnected g1 r →
  pin_not_cached g2 r ∧ pin_unconnected g2 r.
Proof.
  intros Heq Hnc Hconn. split.
  - unfold pin_not_cached in *.
    assert (Channels g2 = Channels g1) as ->; [|done].
    by apply (f_equal Channels) in Heq.
  - unfold pin_unconnected in *.
    assert (Nodes (erase_pin r g1) !! np_Node r
            = Nodes (erase_pin r g2) !! np_Node r) as Hk by (by rewrite Heq).
    rewrite !erase_pin_lookup in Hk.
    destruct (Nodes g1 !! np_Node r) as [n1|], (Nodes g2 !! np_Node r) as [n2|];
      simpl in Hk; try done.
    injection Hk as Hk. unfold erase_at in Hk.
    rewrite !decide_True in Hk by done.
    apply (f_equal Connections) in Hk. simpl in Hk.
    by rewrite <-Hk.
Qed.

Lemma erase_pin_observations g1 g2 r :
  erase_pin r g1 = erase_pin r g2 → pin_uncached g1 r →
  types g1 = types g2 ∧
  (∀ c, channel_type g1 c = channel_type g2 c) ∧
  (∀ r', r' ≠ r → getPinType g1 r' = getPinType g2 r') ∧
  (∀ k, bindings g1 k = bindings g2 k).
Proof.
  intros Heq Hunc.
  assert (∀ r', r' ≠ r → getPinType g1 r' = getPinType g2 r') as Hpins.
  { intros r' Hne.
    by rewrite <-(getPinType_erase r g1), <-(getPinType_erase r g2), Heq. }
  split; [by apply (f_equal types) in Heq|]. split; [|split; [done|]].
  - intros c. unfold channel_type.
    assert (Channels g2 = Channels g1) as -> by (by apply (f_equal Channels) in Heq).
    destruct (Channels g1 !! c) as [ch|] eqn:Hch; simpl; [|done].
    destruct (ChanType ch) as [r'|] eqn:Hr'; simpl; [|done].
    apply Hpins. destruct (Hunc c ch Hch). congruence.
  - intros k. unfold bindings.
    assert (Nodes (erase_pin r g1) !! k = Nodes (erase_pin r g2) !! k) as Hk
      by (by rewrite Heq).
    rewrite !erase_pin_lookup in Hk.
    destruct (Nodes g1 !! k) as [n1|], (Nodes g2 !! k) as [n2|];
      simpl in *; try done.
    injection Hk as Hk. apply (f_equal typeParams) in Hk.
    f_equal. unfold erase_at in Hk. by case_decide.
Qed.

End unconnected.

(** C6, as amended.  Under every order of its loop, [applyTypeParams] never
    asks to revisit a channel on behalf of a pin whose connection entry is
    empty or the sentinel, and it refines the type of every pin of its node,
    whatever the pin is connected to.  A pin that is in no pin cache and
    connected to nothing does not constrain the pass: under every schedule,
    when [InferTypes] returns nil on a graph it returns nil on the graph
    without the declaration and the type of that pin, leaving the same graph
    without that pin; and when it returns nil on two graphs that are the
    same up to the declaration and the type of that pin, the two results
    have the same inference map, the same channel types, the same types of
    all other pins and the same bindings.  When [InferTypes] returns nil,
    the type of every pin, connected or not, is the lithification of a
    type. *)
Theorem unconnected_pins_do_not_constrain `{Src : Source} :
  (∀ code n tys n' next, applyTypeParams_in code n tys = Ok (n', next) →
     (unconnected ∉ next) ∧ ("" ∉ next) ∧
     ∀ pn pt, pinTypes n !! pn = Some pt →
       ∃ pt' changed, Refine tys pt = inr (pt', changed) ∧
                      pinTypes n' !! pn = Some pt') ∧
  (∀ σ fuel g r g',
     pin_not_cached g r → pin_unconnected g r →
     InferTypes_in σ fuel g = Ok g' →
     InferTypes_in σ fuel (erase_pin r g) = Ok (erase_pin r g')) ∧
  (∀ σ fuel g1 g2 r g1' g2',
     pin_not_cached g1 r → pin_unconnected g1 r →
     erase_pin r g1 = erase_pin r g2 →
     InferTypes_in σ fuel g1 = Ok g1' → InferTypes_in σ fuel g2 = Ok g2' →
     erase_pin r g1' = erase_pin r g2' ∧
     types g1' = types g2' ∧
     (∀ c, channel_type g1' c = channel_type g2' c) ∧
     (∀ r', r' ≠ r → getPinType g1' r' = getPinType g2' r') ∧
     (∀ k, bindings g1' k = bindings g2' k)) ∧
  (∀ σ fuel g g' k n pn t,
     InferTypes_in σ fuel g = Ok g' →
     Nodes g' !! k = Some n → pinTypes n !! pn = Some t →
     ∃ t0, t = Lithify typeEmptyInterface t0).
Proof.
  split; [|split; [|split]].
  - intros code n tys n' next Happ.
    pose proof (applyTypeParams_in_char _ _ _ _ _ Happ)
      as (_ & _ & _ & _ & Hpts & Hall & Hnext).
    split; [|split].
    + intros (? & ? & ? & _ & _ & _ & ? & ?)%Hnext. done.
    + intros (? & ? & ? & _ & _ & _ & ? & ?)%Hnext. done.
    + intros pn pt Hpt. destruct (Hall pn pt Hpt) as (pt' & changed & Href).
      exists pt', changed. split; [done|]. by rewrite Hpts, Hpt; simpl; rewrite Href.
  - intros σ fuel g r g' Hnc Hconn Hrun.
    by destruct (InferTypes_in_erase r σ fuel g g' Hnc Hconn Hrun).
  - intros σ fuel g1 g2 r g1' g2' Hnc Hconn Heq Hrun1 Hrun2.
    destruct (erase_pin_same_wiring g1 g2 r Heq Hnc Hconn) as [Hnc2 Hconn2].
    destruct (InferTypes_in_erase r σ fuel g1 g1' Hnc Hconn Hrun1) as [He1 Hunc1].
    destruct (InferTypes_in_erase r σ fuel g2 g2' Hnc2 Hconn2 Hrun2) as [He2 _].
    assert (erase_pin r g1' = erase_pin r g2') as Heq'
      by (rewrite Heq in He1; congruence).
    split; [done|]. by apply erase_pin_observations.
  - intros σ fuel g g' k n pn t [g2 Hfinish]%InferTypes_in_Ok_finish Hn Ht.
    destruct (InferTypes_finish_in_Ok σ g2 g' k n Hfinish Hn) as [Hlith _]. eauto.
Qed.

Lemma unconnected_pins_do_not_constrain_witness :
  pin_not_cached broadcaster (mkNodePin "B" "output2") ∧
  pin_unconnected broadcaster (mkNodePin "B" "output2") ∧
  erase_pin (mkNodePin "B" "output2") broadcaster
    = erase_pin (mkNodePin "B" "output2") broadcaster_string ∧
  InferTypes_in second_pin_first 6 broadcaster
    = Ok (after_pass_in second_pin_first 6 broadcaster) ∧
  InferTypes_in second_pin_first 6 broadcaster_string
    = Ok (after_pass_in second_pin_first 6 broadcaster_string) ∧
  channel_type (after_pass_in second_pin_first 6 broadcaster) "out"
    = channel_type (after_pass_in second_pin_first 6 broadcaster_string) "out" ∧
  InferTypes_in second_pin_first 6
      (erase_pin (mkNodePin "B" "output2") broadcaster)
    = Ok (erase_pin (mkNodePin "B" "output2")
            (after_pass_in second_pin_first 6 broadcaster)).
Proof.
  assert (pin_not_cached broadcaster (mkNodePin "B" "output2")) as H1
    by by_compute.
  assert (pin_unconnected broadcaster (mkNodePin "B" "output2")) as H2
    by by_compute.
  assert (erase_pin (mkNodePin "B" "output2") broadcaster
          = erase_pin (mkNodePin "B" "output2") broadcaster_string) as H3
    by by_compute.
  assert (InferTypes_in second_pin_first 6 broadcaster
          = Ok (after_pass_in second_pin_first 6 broadcaster)) as H4
    by by_compute.
  assert (InferTypes_in second_pin_first 6 broadcaster_string
          = Ok (after_pass_in second_pin_first 6 broadcaster_string)) as H5
    by by_compute.
  repeat (split; [assumption|]). split.
  - exact (proj1 (proj2 (proj2
             (proj1 (proj2 (proj2 unconnected_pins_do_not_constrain))
                second_pin_first 6 broadcaster broadcaster_string _ _ _
                H1 H2 H3 H4 H5))) "out").
  - exact (proj1 (proj2 unconnected_pins_do_not_constrain)
             second_pin_first 6 broadcaster _ _ H1 H2 H4).
Defined.

(** C6, as stated, fails twice.  On scenario C the pass changes the type of
    an unconnected pin: [output2] of the broadcaster is connected to
    nothing, its type is [$T] when the flood fill starts, and the pass
    leaves it [int].  And a pin whose connection entry is the sentinel does
    constrain the pass when it is in a pin cache: in [sentinel_channel],
    where a channel is registered under the sentinel name and the caches
    are those [RefreshChannelsPins] builds, the entry of [A.a] is the
    sentinel, and the declared type of [A.a] decides the type of the channel
    and the binding of [B]. *)
Lemma broadcaster_unconnected_output_is_refined :
  ((n ← Nodes broadcaster !! "B"; @Connections texpr_source n !! "output2")
     = Some unconnected ∧
   pin_type (after_setup broadcaster) "B" "output2"
     = Some (TParam (mkTypeParam "B" "T")) ∧
   InferTypes 6 broadcaster = Ok (after_pass 6 broadcaster) ∧
   pin_type (after_pass 6 broadcaster) "B" "output2" = Some (TName "int") ∧
   pin_type (after_pass 6 broadcaster) "B" "output2"
     ≠ pin_type (after_setup broadcaster) "B" "output2") ∧
  ((n ← Nodes (sentinel_channel "int") !! "A";
    @Connections texpr_source n !! "a") = Some unconnected ∧
   (n ← Nodes (sentinel_channel "string") !! "A";
    @Connections texpr_source n !! "a") = Some unconnected ∧
   names_cached (sentinel_channel "int") ∧
   caches_fresh (sentinel_channel "int") ∧
   ¬ pin_not_cached (sentinel_channel "int") (mkNodePin "A" "a") ∧
   erase_pin (mkNodePin "A" "a") (sentinel_channel "int")
     = erase_pin (mkNodePin "A" "a") (sentinel_channel "string") ∧
   InferTypes 2 (sentinel_channel "int")
     = Ok (after_pass 2 (sentinel_channel "int")) ∧
   InferTypes 2 (sentinel_channel "string")
     = Ok (after_pass 2 (sentinel_channel "string")) ∧
   channel_type (after_pass 2 (sentinel_channel "int")) "nil"
     = Some (TName "int") ∧
   channel_type (after_pass 2 (sentinel_channel "string")) "nil"
     = Some (TName "string") ∧
   bindings (after_pass 2 (sentinel_channel "int")) "B"
     = Some {[ "T" := "int" ]} ∧
   bindings (after_pass 2 (sentinel_channel "string")) "B"
     = Some {[ "T" := "string" ]}).
Proof.
  assert (pin_type (after_setup broadcaster) "B" "output2"
          = Some (TParam (mkTypeParam "B" "T"))) as Hbefore by by_compute.
  assert (pin_type (after_pass 6 broadcaster) "B" "output2"
          = Some (TName "int")) as Hafter by by_compute.
  split.
  - split; [by_compute|]. split; [exact Hbefore|]. split; [by_compute|].
    split; [exact Hafter|]. by rewrite Hbefore, Hafter.
  - repeat split; by_compute.
Qed.

(** ** The bookkeeping theorems on the example graphs *)

(** C7, as stated, fails on two graphs.  In [sentinel_refresh] a channel
    is registered under the sentinel name: the first call deletes the
    channel [c], which is wired to one pin, and resets the entry of [A.a] to
    ["nil"]; the second call reads that entry as the name of the channel and
    adds [A.a] to its cache.  In [misnamed_single] the channel under the
    key [c] caches the name [d]: the first call disconnects its one pin and
    deletes the key [d], leaving [c] registered with that pin in its cache;
    the second call rebuilds the cache of [c] empty. *)
Lemma RefreshChannelsPins_twice_differs :
  (names_cached sentinel_refresh ∧ ¬ sentinel_free sentinel_refresh ∧
   RefreshChannelsPins sentinel_refresh = Some (after_refresh sentinel_refresh) ∧
   RefreshChannelsPins (after_refresh sentinel_refresh)
     = Some (after_refresh (after_refresh sentinel_refresh)) ∧
   Pins <$> Channels (after_refresh sentinel_refresh) !! "nil"
     = Some {[mkNodePin "B" "b"; mkNodePin "C" "c"]} ∧
   Pins <$> Channels (after_refresh (after_refresh sentinel_refresh)) !! "nil"
     = Some {[mkNodePin "A" "a"; mkNodePin "B" "b"; mkNodePin "C" "c"]}) ∧
  (sentinel_free misnamed_single ∧ ¬ names_cached misnamed_single ∧
   RefreshChannelsPins misnamed_single = Some (after_refresh misnamed_single) ∧
   RefreshChannelsPins (after_refresh misnamed_single)
     = Some (after_refresh (after_refresh misnamed_single)) ∧
   Pins <$> Channels (after_refresh misnamed_single) !! "c"
     = Some {[mkNodePin "A" "a"]} ∧
   Pins <$> Channels (after_refresh (after_refresh misnamed_single)) !! "c"
     = Some ∅).
Proof. repeat split; by_compute. Qed.

(** C4, as stated, fails on three graphs.  In [sentinel_channel] a channel
    is registered under the sentinel name, and the caches are those
    [RefreshChannelsPins] builds: [DeleteNode] skips the entry ["nil"] of
    [A.a] and leaves the channel caching [A.a].  In [stale_cache] the cache
    of [c] still holds [A.a], which is connected to nothing: [DeleteNode]
    leaves it there.  In [misnamed_pair] the channel under the key [c]
    caches the name [d]: it falls to one pin and is marked, [DeleteChannel]
    deletes the key [d], and [c] stays registered with one pin. *)
Lemma DeleteNode_leaves_channels :
  (names_cached (sentinel_channel "int") ∧
   caches_fresh (sentinel_channel "int") ∧
   ¬ sentinel_free (sentinel_channel "int") ∧
   Nodes (sentinel_channel "int") !! "A"
     = Some (node "A" [("a", "int")] [("a", "nil")]) ∧
   DeleteNode (sentinel_channel "int") (node "A" [("a", "int")] [("a", "nil")])
              true
     = Some (after_delete (sentinel_channel "int")
               (node "A" [("a", "int")] [("a", "nil")]) true) ∧
   Pins <$> Channels (after_delete (sentinel_channel "int")
                        (node "A" [("a", "int")] [("a", "nil")]) true) !! "nil"
     = Some {[mkNodePin "A" "a"; mkNodePin "B" "b"]}) ∧
  (names_cached stale_cache ∧ sentinel_free stale_cache ∧
   ¬ caches_fresh stale_cache ∧
   Nodes stale_cache !! "A" = Some (node "A" [("a", "int")] [("a", "nil")]) ∧
   DeleteNode stale_cache (node "A" [("a", "int")] [("a", "nil")]) true
     = Some (after_delete stale_cache
               (node "A" [("a", "int")] [("a", "nil")]) true) ∧
   Pins <$> Channels (after_delete stale_cache
                        (node "A" [("a", "int")] [("a", "nil")]) true) !! "c"
     = Some {[mkNodePin "A" "a"; mkNodePin "B" "b"; mkNodePin "C" "c"]}) ∧
  (sentinel_free misnamed_pair ∧ caches_fresh misnamed_pair ∧
   ¬ names_cached misnamed_pair ∧
   Nodes misnamed_pair !! "A" = Some (node "A" [("a", "int")] [("a", "c")]) ∧
   DeleteNode misnamed_pair (node "A" [("a", "int")] [("a", "c")]) true
     = Some (after_delete misnamed_pair
               (node "A" [("a", "int")] [("a", "c")]) true) ∧
   Pins <$> Channels (after_delete misnamed_pair
                        (node "A" [("a", "int")] [("a", "c")]) true) !! "c"
     = Some {[mkNodePin "B" "b"]}).
Proof. repeat split; by_compute. Qed.

Lemma DeleteChannel_spec_witness :
  set_Forall (λ np, is_Some (Nodes generic_to_int !! np_Node np))
             (Pins (channel "c" [("X", "out"); ("Y", "in")])) ∧
  ∃ g', DeleteChannel generic_to_int (channel "c" [("X", "out"); ("Y", "in")])
        = Some g' ∧ Channels g' = delete "c" (Channels generic_to_int).
Proof.
  assert (set_Forall (λ np, is_Some (Nodes generic_to_int !! np_Node np))
            (Pins (channel "c" [("X", "out"); ("Y", "in")]))) as Hex
    by by_compute.
  split; [exact Hex|].
  destruct (proj1 (DeleteChannel_spec generic_to_int
                     (channel "c" [("X", "out"); ("Y", "in")])) Hex)
    as (g' & Hg' & Hchans & _).
  exists g'. split; [exact Hg'|exact Hchans].
Defined.

Lemma RefreshChannelsPins_prunes_witness :
  names_cached one_pin_channel ∧
  ∃ g', RefreshChannelsPins one_pin_channel = Some g' ∧
        Channels g' !! "d" = None.
Proof.
  assert (names_cached one_pin_channel) as Hnames by by_compute.
  split; [exact Hnames|].
  destruct (RefreshChannelsPins_prunes one_pin_channel Hnames)
    as (g' & Hg' & _ & Hgone).
  exists g'. split; [exact Hg'|].
  apply (Hgone "d" (channel "d" [("Y", "aux")])); by_compute.
Defined.

Lemma RefreshChannelsPins_idempotent_witness :
  names_cached one_pin_channel ∧ sentinel_free one_pin_channel ∧
  ∃ g', RefreshChannelsPins one_pin_channel = Some g' ∧
        RefreshChannelsPins g' = Some g'.
Proof.
  assert (names_cached one_pin_channel) as Hnames by by_compute.
  assert (sentinel_free one_pin_channel) as Hsent by by_compute.
  split; [exact Hnames|]. split; [exact Hsent|].
  exact (RefreshChannelsPins_idempotent one_pin_channel Hnames Hsent).
Defined.

Lemma DeleteNode_spec_witness :
  names_cached generic_to_int ∧ sentinel_free generic_to_int ∧
  caches_fresh generic_to_int ∧
  Nodes generic_to_int !! "X" = Some (node "X" [("out", "$T")] [("out", "c")]) ∧
  DeleteNode generic_to_int (node "X" [("out", "$T")] [("out", "c")]) false
    = Some (unwired generic_to_int (node "X" [("out", "$T")] [("out", "c")])).
Proof.
  assert (names_cached generic_to_int) as Hnames by by_compute.
  assert (sentinel_free generic_to_int) as Hsent by by_compute.
  assert (caches_fresh generic_to_int) as Hfresh by by_compute.
  assert (Nodes generic_to_int !! "X"
          = Some (node "X" [("out", "$T")] [("out", "c")])) as Hn by by_compute.
  split; [exact Hnames|]. split; [exact Hsent|]. split; [exact Hfresh|].
  split; [exact Hn|].
  exact (proj1 (proj2 (DeleteNode_spec generic_to_int
                         (node "X" [("out", "$T")] [("out", "c")])
                         Hnames Hsent Hfresh Hn))).
Defined.

Lemma DeleteNode_dangling_witness :
  DeleteNode one_pin_channel (node "Z" [("in", "int")] [("in", "ghost")]) true
  = Some (mkGraph (delete "Z" (Nodes one_pin_channel))
                  (Channels one_pin_channel) (types one_pin_channel)).
Proof.
  apply (proj1 (proj2 (proj2 (DeleteNode_dangling one_pin_channel
                  (node "Z" [("in", "int")] [("in", "ghost")]) true)))).
  intros p cn Hp. right.
  assert (p = "in" ∧ cn = "ghost") as [-> ->].
  { apply elem_of_map_to_list in Hp. revert Hp.
    assert (map_to_list (Connections (node "Z" [("in", "int")] [("in", "ghost")]))
            = [("in", "ghost")]) as -> by by_compute.
    intros [= -> ->]%list_elem_of_singleton. done. }
  by_compute.
Defined.

(** * Further properties *)

Section package_name.

Lemma last_index_no_byte i c s last :
  contains_byte c s = false → last_index_from i c s last = last.
Proof.
  revert i last. induction s as [|a s IH]; intros i last; simpl; [done|].
  intros [Ha Hs]%orb_false_iff. rewrite Ha. by apply IH.
Qed.

Lemma last_index_app i c s1 s2 last :
  last_index_from i c (s1 +:+ String c s2) last
  = last_index_from (i + Z.of_nat (String.length s1) + 1) c s2
      (i + Z.of_nat (String.length s1)).
Proof.
  revert i last. induction s1 as [|a s1 IH]; intros i last; simpl.
  - rewrite Ascii.eqb_refl. by rewrite Z.add_0_r.
  - rewrite IH. f_equal; lia.
Qed.

Lemma slice_from_after c s1 s2 :
  slice_from (S (String.length s1)) (s1 +:+ String c s2) = s2.
Proof. induction s1; [by destruct s2|done]. Qed.

Lemma LastIndex_last c dir base :
  contains_byte c base = false →
  LastIndex (dir +:+ String c base) c = Z.of_nat (String.length dir).
Proof.
  intros Hbase. unfold LastIndex. rewrite last_index_app.
  by rewrite last_index_no_byte.
Qed.

Lemma LastIndex_none c s : contains_byte c s = false → LastIndex s c = (-1)%Z.
Proof. apply last_index_no_byte. Qed.

(** Every string is free of [c] or splits at its last [c]. *)
Lemma split_last_byte c s :
  contains_byte c s = false ∨
  ∃ dir base, s = dir +:+ String c base ∧ contains_byte c base = false.
Proof.
  induction s as [|a s IH]; [by left|].
  destruct IH as [Hs|(dir & base & -> & Hbase)].
  - simpl. destruct (Ascii.eqb a c) eqn:Ha; [|by left].
    apply Ascii.eqb_eq in Ha as ->. right. by exists "", s.
  - right. by exists (String a dir), base.
Qed.

Lemma PackageName_split dir base :
  contains_byte "/" base = false →
  PackageName (dir +:+ "/" +:+ base) = base ∧ PackageName base = base.
Proof.
  intros Hbase. unfold PackageName. split.
  - change (dir +:+ "/" +:+ base) with (dir +:+ String "/" base).
    rewrite (LastIndex_last _ dir base Hbase).
    destruct (Z.ltb_spec (Z.of_nat (String.length dir)) 0) as [?|_]; [lia|].
    replace (Z.to_nat (Z.of_nat (String.length dir) + 1))
      with (S (String.length dir)) by lia.
    apply slice_from_after.
  - by rewrite (LastIndex_none _ base Hbase).
Qed.

(** X1. The package name of a path is its last component: what follows
    the last slash; a path without a slash is its own package name. *)
Theorem PackageName_last_component dir base :
  contains_byte "/" base = false →
  PackageName (dir +:+ "/" +:+ base) = base ∧ PackageName base = base.
Proof. apply PackageName_split. Qed.

Lemma PackageName_last_component_witness :
  contains_byte "/" "shenzhen-go" = false ∧
  PackageName ("github.com/google" +:+ "/" +:+ "shenzhen-go") = "shenzhen-go".
Proof.
  split; [reflexivity|].
  exact (proj1 (PackageName_last_component "github.com/google" "shenzhen-go"
                  eq_refl)).
Defined.

(** X2. The package name contains no slash, the path ends with it (after a
    slash, unless it is the whole path), and the package name of a package
    name is itself. *)
Theorem PackageName_suffix path :
  contains_byte "/" (PackageName path) = false ∧
  (path = PackageName path ∨ ∃ dir, path = dir +:+ "/" +:+ PackageName path) ∧
  PackageName (PackageName path) = PackageName path.
Proof.
  destruct (split_last_byte "/" path) as [Hp|(dir & base & -> & Hbase)].
  - destruct (PackageName_split "" path Hp) as [_ ->].
    split; [done|]. split; [by left|].
    by destruct (PackageName_split "" path Hp) as [_ ->].
  - destruct (PackageName_split dir base Hbase) as [Hn Hb].
    change (dir +:+ String "/" base) with (dir +:+ "/" +:+ base).
    rewrite Hn. split; [done|]. split; [|done]. right. by exists dir.
Qed.

End package_name.

Section all_imports.
Context {Src : Source} (Imports : Node → list string).

Lemma add_imports_elem (m : gset string) (l : list string) i :
  i ∈ foldl (λ m i, {[i]} ∪ m) m l ↔ i ∈ m ∨ i ∈ l.
Proof.
  revert m. induction l as [|x l IH]; intros m; simpl.
  - rewrite elem_of_nil. tauto.
  - rewrite IH, elem_of_cons. set_solver.
Qed.

Lemma all_imports_elem (m : gset string) (l : list (string * Node)) i :
  i ∈ foldl (add_imports Imports) m l ↔
  i ∈ m ∨ ∃ kn, kn ∈ l ∧ i ∈ Imports kn.2.
Proof.
  revert m. induction l as [|kn l IH]; intros m; simpl.
  - split; [by left|]. intros [?|(? & []%elem_of_nil & _)]. done.
  - rewrite IH. unfold add_imports at 1. rewrite add_imports_elem. split.
    + intros [[?|?]|(kn' & ? & ?)]; [by left| |].
      * right. exists kn. split; [by left|done].
      * right. exists kn'. split; [by right|done].
    + intros [?|(kn' & [->|?]%elem_of_cons & ?)]; [by left; left| |].
      * by left; right.
      * right. by exists kn'.
Qed.

(** X3. [AllImports] lists without repetition the import of [sync] and the
    imports of the parts of all registered nodes, and nothing else. *)
Theorem AllImports_spec (g : Graph) :
  NoDup (AllImports Imports g) ∧
  ∀ i, i ∈ AllImports Imports g ↔
       i = sync_import ∨ ∃ k n, Nodes g !! k = Some n ∧ i ∈ Imports n.
Proof.
  split; [apply NoDup_elements|]. intros i. unfold AllImports.
  rewrite elem_of_elements, all_imports_elem, elem_of_singleton.
  split; (intros [?|H]; [by left|right]).
  - destruct H as ([k n] & Hin%elem_of_map_to_list & ?). by exists k, n.
  - destruct H as (k & n & Hn & ?). exists (k, n).
    by rewrite elem_of_map_to_list.
Qed.

End all_imports.

Section more_bookkeeping.
Context {Src : Source}.
Implicit Types (g : Graph) (n : Node) (ch : Channel) (np : NodePin).

Lemma rename_loop {A} (f : string → A → A) (l : list (string * A))
    (m : gmap string A) k :
  NoDup l.*1 →
  foldl (λ m kx, <[kx.1 := f kx.1 kx.2]> m) m l !! k =
    match list_to_map (M:=gmap string A) l !! k with
    | Some x => Some (f k x)
    | None => m !! k
    end.
Proof.
  revert m. induction l as [|[k0 x0] l IH]; intros m Hnd; simpl; [done|].
  apply NoDup_cons in Hnd as [Hk0 Hnd]. rewrite IH by done.
  destruct (decide (k = k0)) as [->|Hne].
  - rewrite lookup_insert_eq.
    rewrite (not_elem_of_list_to_map_1 _ k0) by done.
    by rewrite lookup_insert_eq.
  - rewrite (lookup_insert_ne (list_to_map l)) by done.
    destruct (list_to_map l !! k); [done|]. by rewrite lookup_insert_ne.
Qed.

Lemma cache_names_Nodes g k :
  Nodes (cache_names g) !! k = set_NodeName k <$> Nodes g !! k.
Proof.
  unfold cache_names; simpl.
  rewrite rename_loop by apply NoDup_fst_map_to_list.
  rewrite list_to_map_to_list. by destruct (Nodes g !! k).
Qed.

Lemma cache_names_Channels g k :
  Channels (cache_names g) !! k = set_ChanName k <$> Channels g !! k.
Proof.
  unfold cache_names; simpl.
  rewrite rename_loop by apply NoDup_fst_map_to_list.
  rewrite list_to_map_to_list. by destruct (Channels g !! k).
Qed.

Lemma cache_names_cached g : names_cached (cache_names g).
Proof.
  split.
  - intros k n. rewrite cache_names_Nodes. by intros (? & _ & ->)%fmap_Some.
  - intros k c. rewrite cache_names_Channels. by intros (? & _ & ->)%fmap_Some.
Qed.

Lemma cache_names_id g : names_cached g → cache_names g = g.
Proof.
  intros [Hn Hc]. apply Graph_eq; [| |done]; apply map_eq; intros k.
  - rewrite cache_names_Nodes. destruct (Nodes g !! k) as [n|] eqn:Hk; [|done].
    simpl. f_equal. apply Hn in Hk. by destruct n; simplify_eq/=.
  - rewrite cache_names_Channels.
    destruct (Channels g !! k) as [c|] eqn:Hk; [|done].
    simpl. f_equal. apply Hc in Hk. by destruct c; simplify_eq/=.
Qed.

Lemma refreshed_sentinel_free g : sentinel_free g → sentinel_free (refreshed g).
Proof.
  unfold sentinel_free. intros Hs. rewrite refreshed_Channels.
  apply map_lookup_filter_None. left. by rewrite rebuild_caches_lookup, Hs.
Qed.

Lemma refreshed_dom_Nodes g : dom (Nodes (refreshed g)) = dom (Nodes g).
Proof.
  apply set_eq; intros k.
  by rewrite !elem_of_dom, refreshed_Nodes, disconnect_all_is_Some.
Qed.

Lemma for_each_None {A S} (body : S → A → option S) l s x :
  x ∈ l → (∀ s', body s' x = None) → for_each body l s = None.
Proof.
  intros Hx Hbody. revert s. induction l as [|y l IH]; intros s.
  { by apply elem_of_nil in Hx. }
  simpl. apply elem_of_cons in Hx as [<-|Hx]; [by rewrite Hbody|].
  destruct (body s y); [by apply IH|done].
Qed.

Lemma name_channels (l : list (string * Channel)) chans :
  for_each name_channel (prod_map id Some <$> l) chans
  = Some (foldl (λ chans kc, <[kc.1 := set_ChanName kc.1 kc.2]> chans) chans l).
Proof. revert chans. induction l as [|[k c] l IH]; intros chans; simpl; auto. Qed.

Lemma name_nodes (l : list (string * Node)) nodes :
  for_each name_node (prod_map id Some <$> l) nodes
  = Some (foldl (λ nodes kn, <[kn.1 := set_NodeName kn.1 kn.2]> nodes) nodes l).
Proof. revert nodes. induction l as [|[k n] l IH]; intros nodes; simpl; auto. Qed.

Lemma LoadJSON_document {E : Type} g :
  LoadJSON (E:=E) (inr (document g))
  = inr <$> RefreshChannelsPins (cache_names (set_types ∅ g)).
Proof.
  unfold LoadJSON, document. cbn [DocNodes DocChannels].
  rewrite !map_to_list_fmap, name_channels, name_nodes. do 2 f_equal.
  apply Graph_eq; [| |done]; apply map_eq; intros k.
  - rewrite cache_names_Nodes. cbn [Nodes set_types].
    rewrite rename_loop by apply NoDup_fst_map_to_list.
    rewrite list_to_map_to_list, lookup_empty. by destruct (Nodes g !! k).
  - rewrite cache_names_Channels. cbn [Channels set_types].
    rewrite rename_loop by apply NoDup_fst_map_to_list.
    rewrite list_to_map_to_list, lookup_empty. by destruct (Channels g !! k).
Qed.

Lemma document_of (d : Document) :
  (∀ k, DocChannels d !! k ≠ Some None) → (∀ k, DocNodes d !! k ≠ Some None) →
  d = document (mkGraph (omap id (DocNodes d)) (omap id (DocChannels d)) ∅).
Proof.
  intros Hc Hn. destruct d as [nodes chans]. unfold document; simpl in *.
  f_equal; apply map_eq; intros k; rewrite lookup_fmap, lookup_omap.
  - specialize (Hn k). by destruct (nodes !! k) as [[n|]|].
  - specialize (Hc k). by destruct (chans !! k) as [[c|]|].
Qed.

Lemma cache_names_refreshed g :
  ∃ g', RefreshChannelsPins (cache_names g) = Some g' ∧
    names_cached g' ∧
    dom (Nodes g') = dom (Nodes g) ∧
    (∀ k ch, Channels g' !! k = Some ch →
       is_Some (Channels g !! k) ∧ 2 ≤ size (Pins ch) ∧
       ∀ np, np ∈ Pins ch ↔
             ∃ n, Nodes g !! np_Node np = Some n ∧
                  Connections n !! np_Pin np = Some k) ∧
    (sentinel_free g →
       sentinel_free g' ∧ caches_fresh g' ∧ RefreshChannelsPins g' = Some g').
Proof.
  pose proof (cache_names_cached g) as Hnames.
  exists (refreshed (cache_names g)). split; [|split; [|split; [|split]]].
  - by rewrite RefreshChannelsPins_refreshed.
  - by apply refreshed_names.
  - rewrite refreshed_dom_Nodes. apply set_eq; intros k.
    rewrite !elem_of_dom, cache_names_Nodes. by rewrite fmap_is_Some.
  - intros k ch (Hbig & ch0 & Hch0 & ->)%refreshed_lookup_Some.
    rewrite cache_names_Channels in Hch0.
    apply fmap_Some in Hch0 as (c & Hc & ->).
    split; [by eauto|]. split; [done|]. intros np. simpl.
    rewrite elem_of_wired_pins. split.
    + intros (key & n' & Hn' & Hname & Hconn).
      rewrite cache_names_Nodes in Hn'.
      apply fmap_Some in Hn' as (n & Hn & ->). simpl in *. subst key. eauto.
    + intros (n & Hn & Hconn). exists (np_Node np), (set_NodeName (np_Node np) n).
      by rewrite cache_names_Nodes, Hn.
  - intros Hsent.
    assert (sentinel_free (cache_names g)) as Hsent'.
    { unfold sentinel_free in *. by rewrite cache_names_Channels, Hsent. }
    split; [by apply refreshed_sentinel_free|].
    split; [by apply refreshed_caches_fresh|].
    rewrite RefreshChannelsPins_refreshed by (by apply refreshed_names).
    by rewrite refreshed_idemp.
Qed.

(** X4. [LoadJSON] panics when the decoded document holds a nil channel or
    a nil node (the JSON value [null]).  A document without one is the
    document of a graph, and on the document of a graph [LoadJSON] returns a
    graph in which every node and channel caches its name, the nodes are
    those of the document, every channel is one of the document, has at
    least two pins in its cache, and the cache holds the pins whose
    connection entry names the channel.  If the document has no channel
    under the sentinel name, the caches are fresh and a further
    [RefreshChannelsPins] changes nothing. *)
Theorem LoadJSON_wellformed {E : Type} :
  (∀ d : Document,
     (∃ k, DocChannels d !! k = Some None) ∨ (∃ k, DocNodes d !! k = Some None) →
     LoadJSON (E:=E) (inr d) = None) ∧
  (∀ d : Document,
     (∀ k, DocChannels d !! k ≠ Some None) → (∀ k, DocNodes d !! k ≠ Some None) →
     ∃ g, d = document g) ∧
  (∀ g, ∃ g', LoadJSON (E:=E) (inr (document g)) = Some (inr g') ∧
     names_cached g' ∧
     dom (Nodes g') = dom (Nodes g) ∧
     (∀ k ch, Channels g' !! k = Some ch →
        is_Some (Channels g !! k) ∧ 2 ≤ size (Pins ch) ∧
        ∀ np, np ∈ Pins ch ↔
              ∃ n, Nodes g !! np_Node np = Some n ∧
                   Connections n !! np_Pin np = Some k) ∧
     (sentinel_free g →
        sentinel_free g' ∧ caches_fresh g' ∧ RefreshChannelsPins g' = Some g')).
Proof.
  split; [|split].
  - intros d [[k Hk]|[k Hk]]; unfold LoadJSON.
    + rewrite (for_each_None name_channel _ _ (k, None)); [done| |done].
      by apply elem_of_map_to_list.
    + destruct (for_each name_channel _ _); [|done].
      rewrite (for_each_None name_node _ _ (k, None)); [done| |done].
      by apply elem_of_map_to_list.
  - intros d Hc Hn. eexists. by apply document_of.
  - intros g. rewrite LoadJSON_document.
    destruct (cache_names_refreshed (set_types ∅ g)) as (g' & -> & Hrest).
    exists g'. split; [done|]. exact Hrest.
Qed.

(** *** RefreshChannelsPins: what it keeps *)

Lemma doomed_pin g key pin :
  names_cached g →
  mkNodePin key pin ∈ doomed (Channels (rebuild_caches g))
                        (map_to_list (Channels (rebuild_caches g))).*1 ↔
  ∃ n cn, Nodes g !! key = Some n ∧ Connections n !! pin = Some cn ∧
          is_Some (Channels g !! cn) ∧ size (wired_pins g cn) < 2.
Proof.
  intros [Hnn _]. rewrite elem_of_doomed. split.
  - intros (cn & ch & _ & Hch & Hsmall & Hin).
    rewrite rebuild_caches_lookup in Hch.
    apply fmap_Some in Hch as (ch0 & Hch0 & ->). cbn [Pins set_Pins] in *.
    destruct (wired_pins_node_exists g cn _ Hnn Hin) as (n & Hn & _ & Hc).
    exists n, cn. eauto.
  - intros (n & cn & Hn & Hc & [ch0 Hch0] & Hsmall).
    exists cn, (set_Pins (λ _, wired_pins g cn) ch0).
    assert (Channels (rebuild_caches g) !! cn
            = Some (set_Pins (λ _, wired_pins g cn) ch0)) as Hr
      by (by rewrite rebuild_caches_lookup, Hch0).
    split; [|split; [done|split; [done|]]].
    + apply list_elem_of_fmap. eexists (cn, _). split; [done|].
      by apply elem_of_map_to_list.
    + simpl. apply elem_of_wired_pins. exists key, n. split; [done|].
      split; [|done]. simpl. symmetry. by apply Hnn in Hn.
Qed.

(** X5. On a graph whose objects cache their names, [RefreshChannelsPins]
    changes neither the inference map nor the registry keys of the nodes, and
    of a node it changes nothing but connection entries: the entry of a pin
    becomes the sentinel when it names a registered channel that fewer than
    two pins are wired to, and stays as it is otherwise. *)
Theorem RefreshChannelsPins_frame g :
  names_cached g →
  ∃ g', RefreshChannelsPins g = Some g' ∧ types g' = types g ∧
    dom (Nodes g') = dom (Nodes g) ∧
    ∀ k n, Nodes g !! k = Some n →
      ∃ n', Nodes g' !! k = Some n' ∧
        NodeName n' = NodeName n ∧ PartPins n' = PartPins n ∧
        pinTypes n' = pinTypes n ∧ typeParams n' = typeParams n ∧
        ∀ p, Connections n' !! p =
          match Connections n !! p with
          | Some cn =>
              if decide (is_Some (Channels g !! cn) ∧ size (wired_pins g cn) < 2)
              then Some unconnected else Some cn
          | None => None
          end.
Proof.
  intros Hnames. exists (refreshed g).
  split; [by apply RefreshChannelsPins_refreshed|]. split; [done|].
  split; [apply refreshed_dom_Nodes|]. intros k n Hn.
  eexists. rewrite refreshed_Nodes, disconnect_all_lookup, Hn.
  split; [done|]. do 4 (split; [done|]). intros p.
  rewrite lookup_disconnected. case_decide as Hd.
  - apply doomed_pin in Hd as (n2 & cn & Hn2 & Hc & Hch & Hsmall); [|done].
    simplify_eq. rewrite Hc. by rewrite decide_True.
  - destruct (Connections n !! p) as [cn|] eqn:Hc; [|done].
    rewrite decide_False; [done|]. intros [Hch Hsmall]. apply Hd.
    apply doomed_pin; [done|]. eauto 10.
Qed.

(** X6. [RefreshChannelsPins] does not read the pin caches it finds: on two
    graphs that differ in nothing but the pin caches of their channels it
    returns the same graph (or panics on both). *)
Theorem RefreshChannelsPins_ignores_caches g1 g2 :
  Nodes g1 = Nodes g2 → types g1 = types g2 →
  reset_caches (Channels g1) = reset_caches (Channels g2) →
  RefreshChannelsPins g1 = RefreshChannelsPins g2.
Proof.
  intros Hn Ht Hc. unfold RefreshChannelsPins. cbv zeta.
  assert (rebuild_caches g1 = rebuild_caches g2) as ->; [|done].
  unfold rebuild_caches, set_Channels. by rewrite Hn, Ht, Hc.
Qed.

(** *** DeleteChannel: repetition and order *)

Lemma DeleteChannel_None g ch :
  ¬ set_Forall (λ np, is_Some (Nodes g !! np_Node np)) (Pins ch) →
  DeleteChannel g ch = None.
Proof.
  intros Hnot. apply not_set_Forall_Exists in Hnot as (np & Hnp & Hnone);
    [|apply _].
  simpl in Hnone. unfold DeleteChannel.
  rewrite (disconnect_pins_None _ _ np); [done|by apply elem_of_elements|].
  by apply eq_None_not_Some.
Qed.

(** X7. Deleting a channel a second time changes nothing: if
    [DeleteChannel] returns, a further [DeleteChannel] of the same channel
    returns the same graph. *)
Theorem DeleteChannel_twice g ch g' :
  DeleteChannel g ch = Some g' → DeleteChannel g' ch = Some g'.
Proof.
  destruct (decide (set_Forall (λ np, is_Some (Nodes g !! np_Node np)) (Pins ch)))
    as [Hall|Hnot]; [|by rewrite DeleteChannel_None].
  rewrite DeleteChannel_Some by done. intros [= <-].
  rewrite DeleteChannel_Some; simpl.
  - by rewrite disconnect_all_union, (idemp_L (∪)), delete_delete_eq.
  - intros np Hnp. apply disconnect_all_is_Some. by apply Hall.
Qed.

(** X8. Two channels can be deleted in either order: the two orders panic on the
    same graphs and leave the same graph otherwise. *)
Theorem DeleteChannel_commute g ch1 ch2 :
  DeleteChannel g ch1 ≫= (λ g1, DeleteChannel g1 ch2)
  = DeleteChannel g ch2 ≫= (λ g2, DeleteChannel g2 ch1).
Proof.
  assert (∀ X g0 (c : Channel),
    set_Forall (λ np, is_Some (Nodes g0 !! np_Node np)) (Pins c) ↔
    set_Forall (λ np, is_Some (disconnect_all X (Nodes g0) !! np_Node np))
               (Pins c)) as Hdom.
  { intros X g0 c. split; intros H np Hnp; specialize (H np Hnp); simpl in *;
      by apply disconnect_all_is_Some in H || apply disconnect_all_is_Some. }
  destruct (decide (set_Forall (λ np, is_Some (Nodes g !! np_Node np)) (Pins ch1)))
    as [H1|H1];
  destruct (decide (set_Forall (λ np, is_Some (Nodes g !! np_Node np)) (Pins ch2)))
    as [H2|H2].
  - rewrite !DeleteChannel_Some by done. simpl.
    rewrite !DeleteChannel_Some by (simpl; by apply Hdom). simpl.
    rewrite !disconnect_all_union, delete_delete.
    do 3 f_equal. set_solver.
  - rewrite (DeleteChannel_Some g ch1) by done. simpl.
    rewrite !DeleteChannel_None; [done|..]; simpl; try done; by rewrite <-Hdom.
  - rewrite (DeleteChannel_Some g ch2) by done. simpl.
    rewrite !DeleteChannel_None; [done|..]; simpl; try done; by rewrite <-Hdom.
  - by rewrite !DeleteChannel_None.
Qed.

(** *** DeleteNode without cleanup *)

(** X9. Without cleanup [DeleteNode] never panics and never deletes a channel.
    It takes the node out of the node registry, leaves the other nodes as
    they are, and removes from the cache of each channel the pins of the
    node that its connection map wires to that channel (none for a channel
    registered under the sentinel). *)
Theorem DeleteNode_without_cleanup g n :
  ∃ chans,
    DeleteNode g n false
    = Some (mkGraph (delete (NodeName n) (Nodes g)) chans (types g)) ∧
    dom chans = dom (Channels g) ∧
    ∀ k ch, Channels g !! k = Some ch →
      ∃ ch', chans !! k = Some ch' ∧
        ChanName ch' = ChanName ch ∧ ChanType ch' = ChanType ch ∧
        ∀ np, np ∈ Pins ch' ↔
              np ∈ Pins ch ∧
              ¬ (k ≠ unconnected ∧ np_Node np = NodeName n ∧
                 Connections n !! np_Pin np = Some k).
Proof.
  unfold DeleteNode. cbv zeta.
  destruct (unwire_loop_rem (NodeName n) false (map_to_list (Connections n))
              (Channels g) []) as (marks & Hrem & Hmarks).
  assert (marks = []) as ->.
  { apply elem_of_nil_inv. intros k (? & _)%Hmarks. done. }
  rewrite Hrem. simpl. eexists. split; [done|]. split.
  - apply set_eq; intros k. rewrite !elem_of_dom, unwire_loop_chans.
    case_decide; [done|]. by rewrite fmap_is_Some.
  - intros k ch Hch. rewrite unwire_loop_chans, Hch. case_decide as Hk.
    + exists ch. do 3 (split; [done|]). intros np. naive_solver.
    + eexists. split; [done|]. do 2 (split; [done|]). intros np. simpl.
      rewrite elem_of_difference, elem_of_list_to_set, elem_of_conn_pins.
      rewrite elem_of_map_to_list. naive_solver.
Qed.

(** *** DeleteNode keeps the caches fresh *)

Lemma caches_fresh_alt g :
  caches_fresh g ↔ ∀ k ch, Channels g !! k = Some ch → Pins ch = wired_pins g k.
Proof.
  split; [intros ???; by apply fresh_cache|].
  intros Hall. unfold caches_fresh. apply map_eq; intros k.
  rewrite rebuild_caches_lookup.
  destruct (Channels g !! k) as [ch|] eqn:Hch; [|done]. simpl. f_equal.
  apply Channel_eq; [done| |done]. simpl. symmetry. by apply Hall.
Qed.

Lemma refreshed_fixed g :
  caches_fresh g →
  (∀ k ch, Channels g !! k = Some ch → 2 ≤ size (Pins ch)) →
  refreshed g = g.
Proof.
  intros Hfresh Hbig. unfold caches_fresh in Hfresh.
  unfold refreshed. cbv zeta. rewrite Hfresh.
  rewrite map_filter_id by (intros ???; simpl; by eapply Hbig).
  replace (doomed _ _) with (∅ : gset NodePin).
  - rewrite disconnect_all_empty. by destruct g.
  - symmetry. apply set_eq; intros np. rewrite elem_of_doomed. split.
    + intros (k & ch & _ & Hch & Hsmall & _). apply Hbig in Hch. lia.
    + set_solver.
Qed.

Section delete_node_more.
Context (g : Graph) (n : Node) (b : bool).
Context (Hnames : names_cached g) (Hsent : sentinel_free g).
Context (Hfresh : caches_fresh g) (Hn : Nodes g !! NodeName n = Some n).

Local Abbreviation marked :=
  (omap (λ cn, (without_node (NodeName n) <$> Channels g) !! cn)
        (foldl (unwire_pin (NodeName n) b) (Channels g, [])
               (map_to_list (Connections n))).2).

Lemma DeleteNode_result :
  DeleteNode g n b =
    Some (mkGraph (disconnect_all (⋃ (Pins <$> marked))
                                  (delete (NodeName n) (Nodes g)))
                  (filter (λ kc : string * Channel, kc.1 ∉ ChanName <$> marked)
                          (without_node (NodeName n) <$> Channels g))
                  (types g)).
Proof.
  rewrite DeleteNode_unwired by done.
  rewrite delete_channels_Some; [done|].
  intros ch' np Hch' Hnp.
  by eapply (marked_channels_nodes g n b Hnames Hsent Hfresh Hn).
Qed.

Lemma marked_names k :
  k ∈ ChanName <$> marked ↔
  b = true ∧ (∃ p, Connections n !! p = Some k) ∧
  ∃ ch, Channels g !! k = Some ch ∧
        size (Pins (without_node (NodeName n) ch)) < 2.
Proof.
  destruct Hnames as [_ Hcn]. rewrite list_elem_of_fmap. split.
  - intros (ch' & -> & Hch').
    apply (marked_channels g n b Hnames Hsent Hfresh Hn) in Hch'
      as (k & ch & Hch & -> & Hb & Hp & Hsize).
    pose proof (Hcn _ _ Hch) as Hk. simpl in *. subst k. eauto 10.
  - intros (Hb & Hp & ch & Hch & Hsize).
    exists (without_node (NodeName n) ch). split.
    + simpl. symmetry. by apply Hcn in Hch.
    + apply (marked_channels g n b Hnames Hsent Hfresh Hn). eauto 10.
Qed.

Lemma marked_pins np :
  np ∈ ⋃ (Pins <$> marked) ↔
  ∃ k ch, Channels g !! k = Some ch ∧ b = true ∧
    (∃ p, Connections n !! p = Some k) ∧
    size (Pins (without_node (NodeName n) ch)) < 2 ∧
    np ∈ Pins (without_node (NodeName n) ch).
Proof.
  rewrite elem_of_union_list. split.
  - intros (X & (ch' & -> & Hch')%list_elem_of_fmap & Hnp).
    apply (marked_channels g n b Hnames Hsent Hfresh Hn) in Hch'
      as (k & ch & Hch & -> & Hb & Hp & Hsize). eauto 10.
  - intros (k & ch & Hch & Hb & Hp & Hsize & Hnp).
    exists (Pins (without_node (NodeName n) ch)). split; [|done].
    apply list_elem_of_fmap. eexists. split; [done|].
    apply (marked_channels g n b Hnames Hsent Hfresh Hn). eauto 10.
Qed.

(** The pins wired to a channel once the node is out of the registry. *)
Lemma wired_pins_delete k ch :
  Channels g !! k = Some ch →
  wired_pins (set_Nodes (delete (NodeName n)) g) k
  = Pins (without_node (NodeName n) ch).
Proof.
  intros Hch. destruct Hnames as [Hnn _]. simpl.
  rewrite (fresh_cache g k ch) by done.
  apply set_eq; intros np.
  rewrite elem_of_filter, !elem_of_wired_pins. split.
  - intros (key & n' & Hn' & Hname & Hc). simpl in Hn'.
    apply lookup_delete_Some in Hn' as [Hne Hn'].
    pose proof (Hnn _ _ Hn') as Hkey. simpl in Hkey.
    split; [congruence|]. by exists key, n'.
  - intros [Hne (key & n' & Hn' & Hname & Hc)].
    exists key, n'. split; [|done]. simpl.
    apply lookup_delete_Some. split; [|done].
    pose proof (Hnn _ _ Hn') as Hkey. simpl in Hkey. congruence.
Qed.

Lemma rebuild_caches_delete :
  Channels (rebuild_caches (set_Nodes (delete (NodeName n)) g))
  = without_node (NodeName n) <$> Channels g.
Proof.
  apply map_eq; intros k. rewrite rebuild_caches_lookup, lookup_fmap.
  cbn [Channels set_Nodes].
  destruct (Channels g !! k) as [ch|] eqn:Hch; [|done]. simpl. f_equal.
  apply Channel_eq; [done| |done].
  cbn [Pins set_Pins]. by rewrite (wired_pins_delete k ch).
Qed.

(** A channel that falls below two pins lost a pin of the node. *)
Lemma small_is_connected k ch :
  Channels g !! k = Some ch → 2 ≤ size (Pins ch) →
  size (Pins (without_node (NodeName n) ch)) < 2 →
  ∃ p, Connections n !! p = Some k.
Proof.
  intros Hch Hbig Hsmall. destruct Hnames as [Hnn _].
  destruct (decide (set_Forall (λ np, np_Node np ≠ NodeName n) (Pins ch)))
    as [Hall|Hex].
  - exfalso. assert (Pins (without_node (NodeName n) ch) = Pins ch) as Heq.
    { simpl. apply set_eq; intros np. rewrite elem_of_filter. naive_solver. }
    rewrite Heq in Hsmall. lia.
  - apply not_set_Forall_Exists in Hex as (np & Hnp & Hname); [|apply _].
    simpl in Hname. apply dec_stable in Hname.
    rewrite (fresh_cache g k ch) in Hnp by done.
    destruct (wired_pins_node_exists g k np Hnn Hnp) as (n' & Hn' & _ & Hc).
    rewrite Hname in Hn'. simplify_eq. eauto.
Qed.

Lemma DeleteNode_names g' : DeleteNode g n b = Some g' → names_cached g'.
Proof.
  rewrite DeleteNode_result. intros [= <-]. destruct Hnames as [Hnn Hcn].
  split; cbn [Nodes Channels].
  - intros k n'. rewrite disconnect_all_lookup.
    intros (n0 & [_ Hn0]%lookup_delete_Some & ->)%fmap_Some. simpl.
    by apply Hnn in Hn0.
  - intros k c'. rewrite map_lookup_filter_Some, lookup_fmap.
    intros [(c & Hc & ->)%fmap_Some _]. simpl. by apply Hcn in Hc.
Qed.

Lemma DeleteNode_sentinel g' : DeleteNode g n b = Some g' → sentinel_free g'.
Proof.
  rewrite DeleteNode_result. intros [= <-]. unfold sentinel_free in *.
  cbn [Channels]. apply map_lookup_filter_None. left.
  by rewrite lookup_fmap, Hsent.
Qed.

Lemma DeleteNode_fresh g' : DeleteNode g n b = Some g' → caches_fresh g'.
Proof.
  rewrite DeleteNode_result. intros [= <-]. destruct Hnames as [Hnn Hcn].
  apply caches_fresh_alt. intros k c'. cbn [Channels].
  rewrite map_lookup_filter_Some, lookup_fmap.
  intros [(ch & Hch & ->)%fmap_Some Hkeep]. simpl in Hkeep.
  rewrite <-(wired_pins_delete k ch Hch).
  apply set_eq; intros [key pin]. rewrite !elem_of_wired_pins. split.
  - intros (key' & n' & Hn' & Hname & Hc); cbn [np_Node np_Pin] in *.
    cbn [Nodes set_Nodes] in Hn'.
    exists key', (disconnected (⋃ (Pins <$> marked)) key' n').
    split; [|split; [done|]].
    + cbn [Nodes]. by rewrite disconnect_all_lookup, Hn'.
    + rewrite lookup_disconnected. rewrite decide_False; [done|].
      intros (k2 & ch2 & Hch2 & Hb & Hp & Hsize & Hin)%marked_pins.
      simpl in Hin. apply elem_of_filter in Hin as [_ Hin].
      rewrite (fresh_cache g k2 ch2) in Hin by done.
      destruct (wired_pins_node_exists g k2 _ Hnn Hin) as (n2 & Hn2 & _ & Hc2).
      cbn [np_Node np_Pin] in *.
      apply lookup_delete_Some in Hn' as [_ Hn'].
      assert (key' = key) as -> by (apply Hnn in Hn'; congruence).
      assert (k2 = k) as -> by congruence.
      apply Hkeep. apply marked_names. simplify_eq. eauto 10.
  - intros (key' & n0 & Hn0 & Hname & Hc); cbn [np_Node np_Pin] in *.
    cbn [Nodes set_Nodes] in Hn0.
    rewrite disconnect_all_lookup in Hn0.
    apply fmap_Some in Hn0 as (n' & Hn' & ->).
    rewrite lookup_disconnected in Hc. case_decide as HX.
    + unfold sentinel_free in Hsent. congruence.
    + by exists key', n'.
Qed.

(** With cleanup, on a graph every channel of which has at least two pins,
    the result is the one of taking the node out of the registry and
    refreshing the caches. *)
Lemma DeleteNode_refreshed :
  b = true →
  (∀ k ch, Channels g !! k = Some ch → 2 ≤ size (Pins ch)) →
  DeleteNode g n b = Some (refreshed (set_Nodes (delete (NodeName n)) g)).
Proof.
  intros Hb Hbig. rewrite DeleteNode_result. f_equal.
  unfold refreshed. cbv zeta. rewrite rebuild_caches_delete.
  cbn [Nodes Channels types set_Nodes]. f_equal.
  - f_equal. apply set_eq; intros np. rewrite marked_pins, elem_of_doomed.
    split.
    + intros (k & ch & Hch & _ & Hp & Hsize & Hnp).
      exists k, (without_node (NodeName n) ch).
      split; [|by rewrite lookup_fmap, Hch].
      apply list_elem_of_fmap. eexists (k, _). split; [done|].
      apply elem_of_map_to_list. by rewrite lookup_fmap, Hch.
    + intros (k & ch' & _ & Hch' & Hsize & Hnp).
      rewrite lookup_fmap in Hch'. apply fmap_Some in Hch' as (ch & Hch & ->).
      exists k, ch. split; [done|]. split; [done|].
      split; [|done]. eapply small_is_connected; eauto.
  - apply map_filter_ext. intros k ch'. rewrite lookup_fmap.
    intros (ch & Hch & ->)%fmap_Some. cbn [fst snd].
    rewrite marked_names. split.
    + intros Hnot.
      destruct (decide (2 ≤ size (Pins (without_node (NodeName n) ch))))
        as [|Hsmall]; [done|].
      exfalso. apply Hnot. split; [done|]. split; [|exists ch; split; [done|lia]].
      eapply small_is_connected; eauto. lia.
    + intros Hge (_ & _ & ch2 & Hch2 & Hsmall). simplify_eq. lia.
Qed.

End delete_node_more.

End more_bookkeeping.

Section pass.
Context {Src : Source}.
Implicit Types (g : Graph) (n : Node) (ch : Channel) (np r : NodePin).
Implicit Types (tys : gmap TypeParam SType) (pts : gmap string SType).

(** *** Loops *)


(** A loop returns the error of one of its steps when every step returns or
    fails with an error, and some step fails whatever the state. *)
Lemma for_range_first_error {A S} (Q : Error → Prop)
    (body : S → A → outcome S) l s :
  (∀ s x, x ∈ l → (∃ s', body s x = Ok s') ∨ (∃ e, body s x = Raise e ∧ Q e)) →
  (∃ x, x ∈ l ∧ ∀ s, ∃ e, body s x = Raise e) →
  ∃ e, for_range body l s = Raise e ∧ Q e.
Proof.
  revert s. induction l as [|y l IH]; intros s Hstep (x & Hx & Hfail).
  { by apply elem_of_nil in Hx. }
  simpl. destruct (Hstep s y) as [[s' Hy]|(e & Hy & He)]; [by left| |].
  - rewrite Hy. simpl. apply IH.
    + intros ???; apply Hstep. by right.
    + apply elem_of_cons in Hx as [->|Hx]; [|by eauto].
      destruct (Hfail s) as [e He]. congruence.
  - rewrite Hy. simpl. eauto.
Qed.

(** *** What a pass keeps *)

Lemma refine_loop_dom conns tys l pts nx res :
  (∀ pn pt, (pn, pt) ∈ l → pn ∈ dom pts) →
  for_range (refine_pin conns tys) l (pts, nx) = Ok res →
  dom res.1 = dom pts.
Proof.
  intros Hl Hloop.
  apply (for_range_inv (λ s, dom s.1 = dom pts)) in Hloop; [done| |done].
  intros [pts1 nx1] [pn pt] s' Hin Hdom Hstep. simpl in *.
  apply refine_pin_Ok in Hstep as (pt' & changed & _ & -> & _). simpl.
  rewrite dom_insert_L, Hdom. apply Hl in Hin. set_solver.
Qed.

Lemma applyTypeParams_skel n tys n' next :
  applyTypeParams n tys = Ok (n', next) → node_skel n' = node_skel n.
Proof.
  unfold applyTypeParams. intros (res & Hloop & [= <- <-])%bind_Ok.
  apply refine_loop_dom in Hloop.
  - unfold node_skel; simpl. by rewrite Hloop.
  - intros pn pt Hin%elem_of_map_to_list. by apply elem_of_dom_2 in Hin.
Qed.

Lemma setPinType_skeleton g r t t0 :
  getPinType g r = Some t0 → skeleton (setPinType r t g) = skeleton g.
Proof.
  unfold getPinType.
  destruct (Nodes g !! np_Node r) as [n|] eqn:Hn; simpl; [|done]. intros Hpt.
  unfold setPinType, skeleton; simpl. f_equal.
  apply map_eq; intros k. rewrite !lookup_fmap.
  destruct (decide (k = np_Node r)) as [->|Hne].
  - rewrite lookup_alter_eq, Hn. simpl. f_equal. unfold node_skel; simpl.
    rewrite dom_insert_L. apply elem_of_dom_2 in Hpt. f_equal. set_solver.
  - by rewrite lookup_alter_ne.
Qed.

(** What one pin of one worklist step does to the registry of channels. *)
Lemma infer_pin_Channels c g next np g' next' :
  infer_pin c (g, next) np = Ok (g', next') →
  skeleton g' = skeleton g ∧ next ⊆ next' ∧
  ∃ n ch, Nodes g !! np_Node np = Some n ∧ Channels g !! c = Some ch ∧
    match ChanType ch with
    | Some _ => Channels g' = Channels g
    | None =>
        Channels g' =
          <[c := set_ChanType (match pinTypes n !! np_Pin np with
                               | Some _ => Some np | None => None end) ch]>
            (Channels g) ∧
        Some c ∈ next'
    end.
Proof.
  unfold infer_pin; cbn [fst snd].
  destruct (Nodes g !! np_Node np) as [n|] eqn:Hn; [|done].
  destruct (Channels g !! c) as [ch|] eqn:Hch; [|done].
  destruct (ChanType ch) as [r|] eqn:Hr.
  - destruct (getPinType g r) as [ctype|] eqn:Hctype; [|done].
    set (tys := (Infer (types g) ctype (pinTypes n !! np_Pin np)).1).
    destruct (Refine tys ctype) as [|[ctype' changed]] eqn:Href; [done|].
    set (g1 := setPinType r ctype' (set_types tys g)).
    assert (getPinType (set_types tys g) r = Some ctype) as Hctype' by done.
    pose proof (setPinType_skeleton _ r ctype' ctype Hctype') as Hsk1.
    fold g1 in Hsk1.
    destruct (Nodes g1 !! np_Node np) as [n1|] eqn:Hn1; [|done].
    destruct (applyTypeParams n1 tys) as [[n2 nxcn]| | |] eqn:Happ; try done.
    simpl. intros [= <- <-].
    apply applyTypeParams_skel in Happ.
    split; [|split].
    + rewrite (skeleton_update_node g1 _ n1 n2) by done. by rewrite Hsk1.
    + set_solver.
    + exists n, ch. rewrite Hr. done.
  - intros [= <- <-]. split; [|split].
    + unfold skeleton; simpl. f_equal.
      rewrite fmap_insert. apply insert_id. by rewrite lookup_fmap, Hch.
    + set_solver.
    + exists n, ch. rewrite Hr. split; [done|]. split; [done|]. set_solver.
Qed.

Lemma inferChannelType_skeleton g c g' next :
  inferChannelType g c = Ok (g', next) → skeleton g' = skeleton g.
Proof.
  unfold inferChannelType. destruct c as [k|]; [|done].
  destruct (Channels g !! k) as [ch|] eqn:Hch; [|done]. intros Hloop.
  apply (for_range_inv (λ s, skeleton s.1 = skeleton g)) in Hloop; [done| |done].
  intros [g2 nx] np [g3 nx3] _ Hsk Hstep. simpl in *.
  apply infer_pin_Channels in Hstep as (Hsk3 & _). congruence.
Qed.

Lemma flood_skeleton fuel q g g' :
  flood fuel q g = Ok g' → skeleton g' = skeleton g.
Proof.
  revert q g. induction fuel as [|fuel IH]; intros q g.
  { destruct q; [|done]. by intros [= <-]. }
  destruct q as [|c q]; [by intros [= <-]|]. simpl.
  intros ([g1 next] & Hstep & Hrest)%bind_Ok.
  apply inferChannelType_skeleton in Hstep. apply IH in Hrest. congruence.
Qed.

Lemma skeleton_wiring g g' : skeleton g' = skeleton g → wiring g' = wiring g.
Proof.
  intros [= Hn Hc]. unfold wiring. rewrite Hc. f_equal.
  apply map_eq; intros k.
  apply (f_equal (λ m : gmap string _, m !! k)) in Hn.
  rewrite !lookup_fmap in Hn. rewrite !lookup_fmap.
  destruct (Nodes g' !! k) as [n'|], (Nodes g !! k) as [n|];
    simpl in *; try done.
  unfold node_skel in Hn. injection Hn as H1 H2 H3 _.
  unfold node_wiring. congruence.
Qed.

Lemma lithify_channels_skeleton g (l : list (string * Channel)) :
  skeleton (foldl lithify_channel g l) = skeleton g.
Proof.
  revert g. induction l as [|kc l IH]; intros g; simpl; [done|].
  rewrite IH. unfold lithify_channel.
  destruct (ChanType kc.2) as [r|]; [|done].
  destruct (getPinType g r) as [t|] eqn:Ht; [|done].
  by eapply setPinType_skeleton.
Qed.

Lemma publish_loop_skel (bl : list (TypeParam * SType)) nodes nodes' :
  for_range publish bl nodes = Ok nodes' →
  node_skel <$> nodes' = node_skel <$> nodes.
Proof.
  intros Hloop.
  apply (for_range_inv (λ m, node_skel <$> m = node_skel <$> nodes))
    in Hloop; [done| |done].
  intros m b m' _ Hm Hstep. unfold publish in Hstep.
  destruct (m !! Scope b.1) as [n|] eqn:Hn; [|done]. injection Hstep as <-.
  rewrite fmap_insert, <-Hm. apply insert_id. by rewrite lookup_fmap, Hn.
Qed.

Lemma InferTypes_finish_skeleton g g' :
  InferTypes_finish g = Ok g' → skeleton g' = skeleton g.
Proof.
  unfold InferTypes_finish. cbv zeta.
  intros (nodes & Hloop & [= <-])%bind_Ok.
  apply publish_loop_skel in Hloop.
  rewrite <-(lithify_channels_skeleton g (map_to_list (Channels g))).
  unfold skeleton at 1 2. cbn [Nodes Channels]. f_equal.
  rewrite Hloop. rewrite <-map_fmap_compose. apply map_fmap_ext.
  intros k n _. unfold node_skel; simpl. by rewrite dom_fmap_L.
Qed.

Lemma fresh_pin_types_declared n pts :
  fresh_pin_types n = Ok pts → dom pts = dom (PartPins n).
Proof.
  intros [Hpts Hall]%fresh_pin_types_char. apply set_eq; intros pn.
  rewrite !elem_of_dom, Hpts.
  destruct (PartPins n !! pn) as [ty|] eqn:Hty; simpl.
  - destruct (Hall pn ty Hty) as [t ->]. split; eauto.
  - split; by intros [].
Qed.

Lemma InferTypes_setup_wiring g g1 :
  InferTypes_setup g = Ok g1 →
  wiring g1 = wiring g ∧
  map_Forall (λ _ n, dom (pinTypes n) = dom (PartPins n)) (Nodes g1).
Proof.
  intros (_ & Hchans & Hnodes)%InferTypes_setup_Ok. split.
  - unfold wiring. f_equal.
    + apply map_eq; intros k. rewrite !lookup_fmap. specialize (Hnodes k).
      destruct (Nodes g !! k) as [n|]; [|by rewrite Hnodes].
      destruct Hnodes as (pts & _ & ->). done.
    + rewrite Hchans, <-map_fmap_compose. by apply map_fmap_ext.
  - intros k n1 Hn1. specialize (Hnodes k).
    destruct (Nodes g !! k) as [n|]; [|congruence].
    destruct Hnodes as (pts & Hfresh & Hk). simplify_eq. simpl.
    by apply fresh_pin_types_declared.
Qed.

Lemma skeleton_typed g g' :
  skeleton g' = skeleton g →
  map_Forall (λ _ n, dom (pinTypes n) = dom (PartPins n)) (Nodes g) →
  map_Forall (λ _ n, dom (pinTypes n) = dom (PartPins n)) (Nodes g').
Proof.
  intros [= Hn _] Hall k n' Hn'.
  apply (f_equal (λ m : gmap string _, m !! k)) in Hn.
  rewrite !lookup_fmap, Hn' in Hn.
  destruct (Nodes g !! k) as [n|] eqn:Hk; simpl in *; [|done].
  apply Hall in Hk. unfold node_skel in Hn. injection Hn as _ H2 _ H4.
  congruence.
Qed.

Lemma InferTypes_Ok_parts fuel g g' :
  InferTypes fuel g = Ok g' →
  ∃ g1 g2, InferTypes_setup g = Ok g1 ∧
    flood fuel (Some <$> (map_to_list (Channels g1)).*1) g1 = Ok g2 ∧
    InferTypes_finish g2 = Ok g'.
Proof.
  unfold InferTypes. intros (g1 & H1 & (g2 & H2 & H3)%bind_Ok)%bind_Ok. eauto.
Qed.

Lemma InferTypes_wiring fuel g g' :
  InferTypes fuel g = Ok g' →
  wiring g' = wiring g ∧
  map_Forall (λ _ n, dom (pinTypes n) = dom (PartPins n)) (Nodes g').
Proof.
  intros (g1 & g2 & H1 & H2 & H3)%InferTypes_Ok_parts.
  apply InferTypes_setup_wiring in H1 as [Hw1 Hd1].
  apply flood_skeleton in H2. apply InferTypes_finish_skeleton in H3.
  split.
  - rewrite <-Hw1. apply skeleton_wiring. congruence.
  - eapply skeleton_typed; [|done]. congruence.
Qed.

(** X12. A pass that returns nil has changed nothing but pin types,
    bindings, channel types and the inference map: the registries have the
    keys they had, every node its name, its declared pins and its connection
    map, every channel its name and its pin cache; and every node has a pin
    type for each declared pin and for no other. *)
Theorem InferTypes_keeps_wiring fuel g g' :
  InferTypes fuel g = Ok g' →
  wiring g' = wiring g ∧
  map_Forall (λ _ n, dom (pinTypes n) = dom (PartPins n)) (Nodes g').
Proof. apply InferTypes_wiring. Qed.

(** *** Declarations that do not parse *)

Lemma new_pin_type_cases name pts (pd : string * string) :
  match NewType name pd.2 with
  | inl e => new_pin_type name pts pd = Raise (SourceError e)
  | inr t => new_pin_type name pts pd = Ok (<[pd.1 := t]> pts)
  end.
Proof. unfold new_pin_type. by destruct (NewType name pd.2). Qed.

Lemma fresh_pin_types_cases n :
  (∃ pts, fresh_pin_types n = Ok pts) ∨
  (∃ pn ty e, PartPins n !! pn = Some ty ∧ NewType (NodeName n) ty = inl e ∧
              fresh_pin_types n = Raise (SourceError e)).
Proof.
  unfold fresh_pin_types.
  assert (∀ l pts,
    (∀ pd, pd ∈ l → PartPins n !! pd.1 = Some pd.2) →
    (∃ pts', for_range (new_pin_type (NodeName n)) l pts = Ok pts') ∨
    (∃ pn ty e, PartPins n !! pn = Some ty ∧ NewType (NodeName n) ty = inl e ∧
       for_range (new_pin_type (NodeName n)) l pts = Raise (SourceError e)))
    as Hloop.
  { induction l as [|[pn ty] l IH]; intros pts Hl; simpl; [by eauto|].
    pose proof (new_pin_type_cases (NodeName n) pts (pn, ty)) as Hstep.
    simpl in Hstep. destruct (NewType (NodeName n) ty) as [e|t] eqn:Hnew.
    - right. exists pn, ty, e. rewrite Hstep. split; [|done].
      apply (Hl (pn, ty)). by left.
    - rewrite Hstep. simpl. apply IH. intros pd Hpd. apply Hl. by right. }
  apply Hloop. intros [pn ty] Hin. by apply elem_of_map_to_list.
Qed.

Lemma InferTypes_setup_parses g :
  declarations_parse g → ∃ g1, InferTypes_setup g = Ok g1.
Proof.
  intros Hparse. apply InferTypes_setup_total. intros k n Hn.
  apply fresh_pin_types_total. intros pn ty Hty.
  specialize (Hparse k n Hn pn ty Hty). unfold accepted in Hparse.
  destruct (NewType (NodeName n) ty); [done|]. eauto.
Qed.

(** X13. If the declared type of a pin of a registered node is rejected by
    [source.NewType], then [InferTypes] returns the error [source.NewType]
    gives for such a declaration, before any channel is looked at (whatever
    the bound on the iterations); and if every declaration is accepted, the
    first loop of [InferTypes] returns no error. *)
Theorem InferTypes_bad_declaration g :
  (∀ fuel k n pn ty e0,
     Nodes g !! k = Some n → PartPins n !! pn = Some ty →
     NewType (NodeName n) ty = inl e0 →
     ∃ k' n' pn' ty' e,
       Nodes g !! k' = Some n' ∧ PartPins n' !! pn' = Some ty' ∧
       NewType (NodeName n') ty' = inl e ∧
       InferTypes fuel g = Raise (SourceError e)) ∧
  (declarations_parse g → ∃ g1, InferTypes_setup g = Ok g1).
Proof.
  split.
  - intros fuel k n pn ty e0 Hn Hty Hnew.
    set (Q := λ err : Error, ∃ k' n' pn' ty' e,
           Nodes g !! k' = Some n' ∧ PartPins n' !! pn' = Some ty' ∧
           NewType (NodeName n') ty' = inl e ∧ err = SourceError e).
    destruct (for_range_first_error Q reset_node (map_to_list (Nodes g))
                (Nodes g)) as (err & Hloop & HQ).
    + intros nodes [k1 n1] Hin%elem_of_map_to_list. unfold reset_node.
      cbn [fst snd]. fold (fresh_pin_types n1).
      destruct (fresh_pin_types_cases n1)
        as [[pts ->]|(pn1 & ty1 & e1 & Hty1 & Hnew1 & ->)]; simpl.
      * left. eauto.
      * right. eexists. split; [done|]. unfold Q. eauto 10.
    + exists (k, n). split; [by apply elem_of_map_to_list|].
      intros nodes. unfold reset_node. cbn [fst snd]. fold (fresh_pin_types n).
      destruct (fresh_pin_types_cases n)
        as [[pts Hpts]|(pn1 & ty1 & e1 & Hty1 & Hnew1 & ->)]; simpl; [|by eauto].
      apply fresh_pin_types_char in Hpts as [_ Hall].
      destruct (Hall pn ty Hty) as [t Ht]. congruence.
    + destruct HQ as (k' & n' & pn' & ty' & e & Hn' & Hty' & Hnew' & ->).
      exists k', n', pn', ty', e. do 3 (split; [done|]).
      unfold InferTypes, InferTypes_setup. by rewrite Hloop.
  - apply InferTypes_setup_parses.
Qed.

(** *** Passes that cannot return nil *)

Lemma skel_chan g g' k :
  skeleton g' = skeleton g →
  chan_skel <$> Channels g' !! k = chan_skel <$> Channels g !! k.
Proof.
  intros [= _ Hc]. apply (f_equal (λ m : gmap string _, m !! k)) in Hc.
  by rewrite !lookup_fmap in Hc.
Qed.

Lemma skel_node g g' k :
  skeleton g' = skeleton g →
  node_skel <$> Nodes g' !! k = node_skel <$> Nodes g !! k.
Proof.
  intros [= Hn _]. apply (f_equal (λ m : gmap string _, m !! k)) in Hn.
  by rewrite !lookup_fmap in Hn.
Qed.

Lemma skel_pins g g' k ch :
  skeleton g' = skeleton g → Channels g !! k = Some ch →
  ∃ ch', Channels g' !! k = Some ch' ∧ Pins ch' = Pins ch.
Proof.
  intros Hsk Hch. pose proof (skel_chan g g' k Hsk) as Hk.
  rewrite Hch in Hk. destruct (Channels g' !! k) as [ch'|]; [|done].
  injection Hk as _ Hp. eauto.
Qed.

Lemma skel_typed g g' k n :
  skeleton g' = skeleton g → Nodes g !! k = Some n →
  ∃ n', Nodes g' !! k = Some n' ∧ dom (pinTypes n') = dom (pinTypes n).
Proof.
  intros Hsk Hn. pose proof (skel_node g g' k Hsk) as Hk.
  rewrite Hn in Hk. destruct (Nodes g' !! k) as [n'|]; [|done].
  injection Hk as _ _ _ Hd. eauto.
Qed.

(** The flood fill cannot return once the worklist holds an entry whose step,
    if it returns at all, puts the entry back. *)
Lemma flood_stuck (I : Graph → Prop) (c : option string) :
  (∀ g c' g' next, I g → inferChannelType g c' = Ok (g', next) →
     I g' ∧ (c' = c → c ∈ next)) →
  ∀ fuel q g g', I g → c ∈ q → flood fuel q g ≠ Ok g'.
Proof.
  intros Hstep fuel. induction fuel as [|fuel IH]; intros q g g' Hg Hc.
  { destruct q; [by apply elem_of_nil in Hc|done]. }
  destruct q as [|c' q]; [by apply elem_of_nil in Hc|]. simpl.
  destruct (inferChannelType g c') as [[g1 next]| | |] eqn:Hs; try done.
  simpl. destruct (Hstep g c' g1 next Hg Hs) as [Hg1 Hnext].
  apply IH; [done|]. apply elem_of_app.
  apply elem_of_cons in Hc as [->|Hc]; [|by left].
  right. apply elem_of_elements. by apply Hnext.
Qed.

(** The worklist a pass starts from holds every channel. *)
Lemma initial_worklist g g1 k ch :
  InferTypes_setup g = Ok g1 → Channels g !! k = Some ch →
  Some k ∈ Some <$> (map_to_list (Channels g1)).*1.
Proof.
  intros (_ & Hchans & _)%InferTypes_setup_Ok Hch.
  apply list_elem_of_fmap. exists k. split; [done|].
  apply list_elem_of_fmap. exists (k, set_ChanType None ch). split; [done|].
  apply elem_of_map_to_list. by rewrite Hchans, lookup_fmap, Hch.
Qed.

Lemma wiring_chan g g' k :
  wiring g' = wiring g →
  chan_skel <$> Channels g' !! k = chan_skel <$> Channels g !! k.
Proof.
  intros [= _ Hc]. apply (f_equal (λ m : gmap string _, m !! k)) in Hc.
  by rewrite !lookup_fmap in Hc.
Qed.

Lemma wiring_node g g' k :
  wiring g' = wiring g →
  node_wiring <$> Nodes g' !! k = node_wiring <$> Nodes g !! k.
Proof.
  intros [= Hn _]. apply (f_equal (λ m : gmap string _, m !! k)) in Hn.
  by rewrite !lookup_fmap in Hn.
Qed.





(** A nil channel in the worklist: [inferChannelType] dereferences it. *)
Lemma flood_nil_channel fuel q g g' : None ∈ q → flood fuel q g ≠ Ok g'.
Proof.
  apply (flood_stuck (λ _, True) None); [|done].
  intros g1 c' g2 next _ Hstep. split; [done|]. intros ->. done.
Qed.

(** *** Channels all of whose pins are undeclared *)


Lemma untyped_at_pin k c g nx np g' nx' :
  untyped_at k g →
  (∀ ch, Channels g !! c = Some ch → np ∈ Pins ch) →
  infer_pin c (g, nx) np = Ok (g', nx') →
  untyped_at k g' ∧ (c = k → Some k ∈ nx').
Proof.
  intros (ch & Hch & Hnone & Hne & Hun) Hin Hstep.
  apply infer_pin_Channels in Hstep as (Hsk & _ & n & ch' & Hn & Hch' & Hcase).
  assert (∀ ch2, Channels g' !! k = Some ch2 → Pins ch2 = Pins ch →
                 ChanType ch2 = None → untyped_at k g') as Hkeep.
  { intros ch2 Hch2 Hp Ht. exists ch2. rewrite Hp.
    do 3 (split; [done|]). intros np2 n2 Hnp2 Hn2.
    pose proof (skel_node g g' (np_Node np2) Hsk) as Hk. rewrite Hn2 in Hk.
    destruct (Nodes g !! np_Node np2) as [n0|] eqn:Hn0; [|done].
    injection Hk as _ _ _ Hd. apply not_elem_of_dom. rewrite Hd.
    apply not_elem_of_dom. by eapply Hun. }
  destruct (ChanType ch') as [r|] eqn:Hr.
  - split.
    + apply (Hkeep ch); [by rewrite Hcase|done..].
    + intros ->. congruence.
  - destruct Hcase as [Hchans Hnext]. destruct (decide (c = k)) as [->|Hck].
    + simplify_eq. rewrite (Hun np n) in Hchans by eauto.
      split; [|done]. eapply Hkeep; [by rewrite Hchans, lookup_insert_eq|done..].
    + split; [|done].
      apply (Hkeep ch); [by rewrite Hchans, lookup_insert_ne|done..].
Qed.

Lemma untyped_at_step k g c g' next :
  untyped_at k g → inferChannelType g c = Ok (g', next) →
  untyped_at k g' ∧ (c = Some k → Some k ∈ next).
Proof.
  intros Hun. unfold inferChannelType. destruct c as [c|]; [|done].
  destruct (Channels g !! c) as [ch|] eqn:Hch; [|done]. intros Hloop.
  assert (∀ l s s', (∀ x, x ∈ l → x ∈ Pins ch) →
    untyped_at k s.1 ∧ skeleton s.1 = skeleton g →
    for_range (infer_pin c) l s = Ok s' →
    (untyped_at k s'.1 ∧ skeleton s'.1 = skeleton g) ∧ s.2 ⊆ s'.2 ∧
    (c = k → l ≠ [] → Some k ∈ s'.2)) as Hgen.
  { induction l as [|x l IH]; intros [g1 nx1] s' Hl [Hu1 Hsk1]; simpl.
    { intros [= <-]. done. }
    intros ([g2 nx2] & Hx & Hrest)%bind_Ok.
    pose proof Hx as Hx'.
    apply infer_pin_Channels in Hx' as (Hsk2 & Hmono & _).
    apply untyped_at_pin with (k:=k) in Hx as [Hu2 Hk2]; [|done|].
    - apply IH in Hrest as (Hinv & Hsub & _); simpl.
      + split; [done|]. split; [set_solver|]. intros -> _.
        apply Hsub. by apply Hk2.
      + intros; apply Hl. by right.
      + split; [done|]. simpl in *. congruence.
    - intros ch1 Hch1. simpl in Hch1.
      destruct (skel_pins g g1 c ch Hsk1 Hch) as (ch1' & ? & Hp).
      simplify_eq. rewrite Hp. apply Hl. by left. }
  apply Hgen in Hloop as ([Hu' _] & _ & Hk); [|set_solver|done].
  split; [done|]. intros [= ->]. apply Hk; [done|].
  destruct Hun as (ch0 & Hch0 & _ & Hne & _). simplify_eq.
  intros Hnil. apply Hne. apply leibniz_equiv. by apply elements_empty_iff.
Qed.

(** X15. If a channel has pins in its cache and none of them is a declared
    pin of its node, [InferTypes] never returns nil: unless it fails for another
    reason, every step on the channel leaves its type nil and puts the
    channel back on the worklist. *)
Theorem InferTypes_undeclared_pins fuel g k ch :
  Channels g !! k = Some ch → Pins ch ≠ ∅ →
  (∀ np n, np ∈ Pins ch → Nodes g !! np_Node np = Some n →
           PartPins n !! np_Pin np = None) →
  ∀ g', InferTypes fuel g ≠ Ok g'.
Proof.
  intros Hch Hne Hun g' (g1 & g2 & H1 & H2 & _)%InferTypes_Ok_parts.
  revert H2. apply (flood_stuck (untyped_at k) (Some k)).
  - intros g3 c' g4 next Hu Hstep. by eapply untyped_at_step.
  - pose proof (InferTypes_setup_wiring g g1 H1) as [Hw Hdom].
    pose proof H1 as (_ & Hchans & _)%InferTypes_setup_Ok.
    exists (set_ChanType None ch). rewrite Hchans, lookup_fmap, Hch.
    do 3 (split; [done|]). intros np n1 Hnp Hn1. simpl in Hnp.
    pose proof (wiring_node g g1 (np_Node np) Hw) as Hk. rewrite Hn1 in Hk.
    destruct (Nodes g !! np_Node np) as [n|] eqn:Hn; [|done].
    injection Hk as _ Hpp _.
    apply not_elem_of_dom. rewrite (Hdom _ _ Hn1), Hpp.
    apply not_elem_of_dom. by eapply Hun.
  - by eapply initial_worklist.
Qed.

(** *** A graph without channels *)

(** X16. On a graph without channels whose declarations all parse,
    [InferTypes] returns nil without a single worklist step; it records no inference and
    no binding, and the type of every pin is its declared type with the
    type parameters replaced by the empty interface. *)
Theorem InferTypes_no_channels fuel g :
  Channels g = ∅ → declarations_parse g →
  ∃ g', InferTypes fuel g = Ok g' ∧ Channels g' = ∅ ∧ types g' = ∅ ∧
    dom (Nodes g') = dom (Nodes g) ∧
    ∀ k n, Nodes g !! k = Some n →
      ∃ n', Nodes g' !! k = Some n' ∧ typeParams n' = ∅ ∧
        ∀ pn, pinTypes n' !! pn =
          ty ← PartPins n !! pn;
          match NewType (NodeName n) ty with
          | inr t => Some (Lithify typeEmptyInterface t)
          | inl _ => None
          end.
Proof.
  intros Hempty Hparse.
  destruct (InferTypes_setup_parses g Hparse) as [g1 H1].
  pose proof H1 as (Htypes & Hchans & Hnodes)%InferTypes_setup_Ok.
  rewrite Hempty, fmap_empty in Hchans.
  exists (mkGraph (lithify_node <$> Nodes g1) ∅ ∅).
  split; [|split; [done|split; [done|split]]].
  - unfold InferTypes. rewrite H1. simpl.
    rewrite Hchans, map_to_list_empty. simpl.
    assert (flood fuel [] g1 = Ok g1) as -> by (by destruct fuel).
    simpl. unfold InferTypes_finish. cbv zeta.
    rewrite Hchans, map_to_list_empty. simpl.
    rewrite Htypes, map_to_list_empty. simpl. by rewrite Hchans.
  - apply set_eq; intros k. cbn [Nodes]. rewrite dom_fmap, !elem_of_dom.
    specialize (Hnodes k). destruct (Nodes g !! k) as [n|].
    + destruct Hnodes as (pts & _ & ->). split; eauto.
    + rewrite Hnodes. done.
  - intros k n Hn. specialize (Hnodes k). rewrite Hn in Hnodes.
    destruct Hnodes as (pts & Hfresh & Hk). cbn [Nodes].
    rewrite lookup_fmap, Hk. eexists. split; [done|]. split; [done|].
    intros pn. simpl. rewrite lookup_fmap.
    apply fresh_pin_types_char in Hfresh as [-> _].
    destruct (PartPins n !! pn) as [ty|]; simpl; [|done].
    by destruct (NewType (NodeName n) ty).
Qed.

(** *** The type of a channel is the type of one of its pins *)


Lemma skel_getPinType g g' r :
  skeleton g' = skeleton g →
  is_Some (getPinType g r) → is_Some (getPinType g' r).
Proof.
  intros Hsk [t (n & Hn & Hpt)%getPinType_Some].
  destruct (skel_typed g g' _ n Hsk Hn) as (n' & Hn' & Hd).
  apply elem_of_dom_2 in Hpt. rewrite <-Hd in Hpt.
  apply elem_of_dom in Hpt as [t' Ht']. exists t'.
  unfold getPinType. by rewrite Hn'.
Qed.

Lemma cached_typed_skeleton g g' :
  skeleton g' = skeleton g → cached_typed g → cached_typed g'.
Proof.
  intros Hsk Ht k ch' np n' Hch' Hnp Hn'.
  destruct (skel_pins g' g k ch' (eq_sym Hsk) Hch') as (ch & Hch & Hp).
  destruct (skel_typed g' g _ n' (eq_sym Hsk) Hn') as (n & Hn & Hd).
  rewrite <-Hp in Hnp. destruct (Ht k ch np n Hch Hnp Hn) as [t Hpt].
  apply elem_of_dom_2 in Hpt. rewrite Hd in Hpt. by apply elem_of_dom.
Qed.

Lemma typed_pin c g nx np g' nx' :
  adopted_ok g →
  (∀ ch, Channels g !! c = Some ch → np ∈ Pins ch) →
  infer_pin c (g, nx) np = Ok (g', nx') →
  adopted_ok g' ∧ (∀ k, typed_at k g → typed_at k g') ∧
  (cached_typed g → typed_at c g').
Proof.
  intros Ha Hin Hstep.
  apply infer_pin_Channels in Hstep as (Hsk & _ & n & ch & Hn & Hch & Hcase).
  destruct (ChanType ch) as [r|] eqn:Hr.
  - split; [|split].
    + intros k ch2 r2 Hch2 Hr2. rewrite Hcase in Hch2.
      destruct (Ha k ch2 r2 Hch2 Hr2) as [? ?]. split; [done|].
      by eapply skel_getPinType.
    + intros k (ch2 & r2 & Hch2 & Hr2). exists ch2, r2. by rewrite Hcase.
    + intros _. exists ch, r. by rewrite Hcase.
  - destruct Hcase as [Hchans _]. split; [|split].
    + intros k ch2 r2. rewrite Hchans.
      destruct (decide (k = c)) as [->|Hne].
      * rewrite lookup_insert_eq. intros [= <-]. simpl.
        destruct (pinTypes n !! np_Pin np) as [t|] eqn:Hpt; [|done].
        intros [= <-]. split; [by apply Hin|].
        apply (skel_getPinType g); [done|].
        exists t. unfold getPinType. by rewrite Hn.
      * rewrite lookup_insert_ne by done. intros Hch2 Hr2.
        destruct (Ha k ch2 r2 Hch2 Hr2) as [? ?]. split; [done|].
        by eapply skel_getPinType.
    + intros k (ch2 & r2 & Hch2 & Hr2). destruct (decide (k = c)) as [->|Hne].
      * congruence.
      * exists ch2, r2. by rewrite Hchans, lookup_insert_ne.
    + intros Ht. destruct (Ht c ch np n Hch (Hin ch Hch) Hn) as [t Hpt].
      rewrite Hpt in Hchans. eexists _, np. by rewrite Hchans, lookup_insert_eq.
Qed.

Lemma typed_step g c g' next :
  adopted_ok g → inferChannelType g c = Ok (g', next) →
  adopted_ok g' ∧ (∀ k, typed_at k g → typed_at k g') ∧
  (cached_typed g →
   ∀ k ch, c = Some k → Channels g !! k = Some ch → Pins ch ≠ ∅ →
           typed_at k g').
Proof.
  intros Ha Hstep.
  unfold inferChannelType in Hstep. destruct c as [c|]; [|done].
  destruct (Channels g !! c) as [ch|] eqn:Hch; [|done].
  assert (∀ l s s', (∀ x, x ∈ l → x ∈ Pins ch) →
    skeleton s.1 = skeleton g ∧ adopted_ok s.1 →
    for_range (infer_pin c) l s = Ok s' →
    (skeleton s'.1 = skeleton g ∧ adopted_ok s'.1) ∧
    (∀ k, typed_at k s.1 → typed_at k s'.1) ∧
    (cached_typed g → l ≠ [] → typed_at c s'.1)) as Hgen.
  { induction l as [|x l IH]; intros [g1 nx1] s' Hl (Hsk1 & Ha1); simpl.
    { intros [= <-]. done. }
    intros ([g2 nx2] & Hx & Hrest)%bind_Ok.
    pose proof Hx as Hx'.
    apply infer_pin_Channels in Hx' as (Hsk2 & _).
    apply typed_pin in Hx as (Ha2 & Hk2 & Hc2).
    - apply IH in Hrest as (Hinv & Hmono & _); simpl.
      + split; [done|]. split; [by auto|]. intros Ht _. apply Hmono.
        apply Hc2. by eapply cached_typed_skeleton.
      + intros; apply Hl. by right.
      + split; [simpl in *; congruence|done].
    - done.
    - intros ch1 Hch1. simpl in *.
      destruct (skel_pins g g1 c ch Hsk1 Hch) as (ch1' & ? & Hp).
      simplify_eq. rewrite Hp. apply Hl. by left. }
  apply Hgen in Hstep as ((_ & Ha') & Hmono & Hc); [|set_solver|done].
  split; [done|]. split; [done|]. intros Ht k ch0 [= <-] Hch0 Hne.
  apply Hc; [done|].
  simplify_eq. intros Hnil. apply Hne. apply leibniz_equiv.
  by apply elements_empty_iff.
Qed.

(** The flood fill types every channel of its worklist that has a pin. *)
Lemma flood_types fuel q g g' :
  adopted_ok g → flood fuel q g = Ok g' →
  adopted_ok g' ∧
  (cached_typed g →
   ∀ k ch, Channels g !! k = Some ch → Pins ch ≠ ∅ →
           Some k ∈ q ∨ typed_at k g → typed_at k g').
Proof.
  revert q g. induction fuel as [|fuel IH]; intros q g Ha.
  { destruct q; [|done]. intros [= <-]. split; [done|].
    intros _ k ch _ _ [[]%elem_of_nil|]; done. }
  destruct q as [|c q].
  { intros [= <-]. split; [done|].
    intros _ k ch _ _ [[]%elem_of_nil|]; done. }
  simpl. intros ([g1 next] & Hstep & Hrest)%bind_Ok.
  pose proof (inferChannelType_skeleton _ _ _ _ Hstep) as Hsk.
  apply typed_step in Hstep as (Ha1 & Hmono & Hc); [|done..].
  apply IH in Hrest as [Ha' Hall]; [|done..]. split; [done|].
  intros Ht k ch Hch Hne Hk.
  destruct (skel_pins g g1 k ch Hsk Hch) as (ch1 & Hch1 & Hp).
  apply (Hall (cached_typed_skeleton _ _ Hsk Ht) k ch1 Hch1); [by rewrite Hp|].
  destruct Hk as [[<-|Hq]%elem_of_cons|Hk].
  - right. by eapply Hc.
  - left. apply elem_of_app. by left.
  - right. by apply Hmono.
Qed.

(** X17. After a pass that returned nil, the type of a channel is the pin
    type of one of the pins of its cache, and a channel with an empty cache
    has no type; if the cached pins of the graph are declared by their
    parts, every channel with a pin in its cache has a type. *)
Theorem InferTypes_channel_type_is_pin_type fuel g g' :
  InferTypes fuel g = Ok g' →
  (∀ c ch' r, Channels g' !! c = Some ch' → ChanType ch' = Some r →
     r ∈ Pins ch' ∧ ∃ t, getPinType g' r = Some t ∧ channel_type g' c = Some t) ∧
  (∀ c ch, Channels g !! c = Some ch → Pins ch = ∅ → channel_type g' c = None) ∧
  (pins_declared g →
   ∀ c ch, Channels g !! c = Some ch → Pins ch ≠ ∅ →
           is_Some (channel_type g' c)).
Proof.
  intros Hrun. pose proof (InferTypes_wiring _ _ _ Hrun) as [Hw _].
  apply InferTypes_Ok_parts in Hrun as (g1 & g2 & H1 & H2 & H3).
  pose proof (InferTypes_setup_wiring g g1 H1) as [Hw1 Hdom1].
  pose proof H1 as (_ & Hchans1 & _)%InferTypes_setup_Ok.
  assert (adopted_ok g1) as Ha1.
  { intros k ch r. rewrite Hchans1, lookup_fmap.
    by intros (ch0 & _ & ->)%fmap_Some. }
  pose proof (InferTypes_finish_skeleton _ _ H3) as Hsk3.
  pose proof (InferTypes_finish_Channels _ _ H3) as Hch3.
  assert (∀ c ch, Channels g !! c = Some ch →
            ∃ ch', Channels g' !! c = Some ch' ∧ Pins ch' = Pins ch) as Hpins.
  { intros c ch Hch. pose proof (wiring_chan g g' c Hw) as Hc.
    rewrite Hch in Hc. destruct (Channels g' !! c) as [ch'|]; [|done].
    injection Hc as _ Hp. eauto. }
  assert (adopted_ok g2 → adopted_ok g') as Hfin.
  { intros Ha2 k ch r. rewrite Hch3. intros Hch Hr.
    destruct (Ha2 k ch r Hch Hr) as [? ?]. split; [done|].
    by eapply skel_getPinType. }
  assert (∀ c ch' r, adopted_ok g' → Channels g' !! c = Some ch' →
            ChanType ch' = Some r →
            r ∈ Pins ch' ∧
            ∃ t, getPinType g' r = Some t ∧ channel_type g' c = Some t) as Hct.
  { intros c ch' r Ha' Hch' Hr. destruct (Ha' c ch' r Hch' Hr) as [Hin [t Ht]].
    split; [done|]. exists t. split; [done|].
    unfold channel_type. rewrite Hch'. simpl. rewrite Hr. done. }
  destruct (flood_types _ _ _ _ Ha1 H2) as [Ha2 Htyped].
  pose proof (Hfin Ha2) as Ha'.
  split; [|split].
  - intros c ch' r Hch' Hr. by apply Hct.
  - intros c ch Hch Hempty. destruct (Hpins c ch Hch) as (ch' & Hch' & Hp).
    unfold channel_type. rewrite Hch'. simpl.
    destruct (ChanType ch') as [r|] eqn:Hr; [|done].
    destruct (Ha' c ch' r Hch' Hr) as [Hin _]. set_solver.
  - intros Hdecl c ch Hch Hne.
    assert (cached_typed g1) as Ht1.
    { intros k ch1 np n1 Hch1 Hnp Hn1. apply elem_of_dom.
      rewrite (Hdom1 _ _ Hn1).
      rewrite Hchans1, lookup_fmap in Hch1.
      apply fmap_Some in Hch1 as (ch0 & Hch0 & ->). simpl in Hnp.
      specialize (Hdecl k ch0 Hch0 np Hnp). unfold pin_declared in Hdecl.
      pose proof (wiring_node g g1 (np_Node np) Hw1) as Hk. rewrite Hn1 in Hk.
      destruct (Nodes g !! np_Node np) as [n|]; [|done].
      injection Hk as _ Hpp _. by rewrite Hpp. }
    assert (Channels g1 !! c = Some (set_ChanType None ch)) as Hc1
      by (by rewrite Hchans1, lookup_fmap, Hch).
    destruct (Htyped Ht1 c _ Hc1 Hne) as (ch2 & r & Hch2 & Hr).
    { left. by eapply initial_worklist. }
    rewrite <-Hch3 in Hch2.
    destruct (Hct c ch2 r Ha' Hch2 Hr) as [_ (t & _ & ->)]. eauto.
Qed.

(** *** Where a pass can dereference nil *)


Lemma for_range_Panic {A S} (P : S → Prop) (body : S → A → outcome S) l s :
  (∀ s x s', x ∈ l → P s → body s x = Ok s' → P s') →
  P s → for_range body l s = Panic →
  ∃ s1 x, x ∈ l ∧ P s1 ∧ body s1 x = Panic.
Proof.
  revert s. induction l as [|y l IH]; intros s Hstep Hs; simpl; [done|].
  destruct (body s y) as [s1| | |] eqn:Hy; simpl; try done.
  - intros Hrest. destruct (IH s1) as (s2 & x & Hx & Hs2 & Hp); [| |done|].
    + intros ???? ; apply Hstep. by right.
    + eapply Hstep; [by left|done..].
    + exists s2, x. split; [by right|done].
  - intros _. exists s, y. split; [by left|done].
Qed.

Lemma applyTypeParams_no_panic n tys : applyTypeParams n tys ≠ Panic.
Proof.
  unfold applyTypeParams.
  destruct (for_range _ _ _) as [res| | |] eqn:Hloop; try done.
  apply (for_range_Panic (λ _, True)) in Hloop as (s1 & [pn pt] & _ & _ & Hp);
    [|done..].
  unfold refine_pin in Hp. simpl in Hp.
  destruct (Refine tys pt) as [|[pt' []]]; simpl in Hp; try done.
  by case_decide.
Qed.

Lemma cached_exist_skeleton g g' :
  skeleton g' = skeleton g → cached_exist g → cached_exist g'.
Proof.
  intros Hsk He k ch' Hch' np Hnp.
  destruct (skel_pins g' g k ch' (eq_sym Hsk) Hch') as (ch & Hch & Hp).
  rewrite <-Hp in Hnp. destruct (He k ch Hch np Hnp) as [n Hn]. simpl in *.
  destruct (skel_typed g g' _ n Hsk Hn) as (n' & -> & _). eauto.
Qed.

Lemma no_dangling_skeleton g g' :
  skeleton g' = skeleton g → no_dangling g → no_dangling g'.
Proof.
  intros Hsk Hd k n' Hn' p cn Hcn.
  pose proof (skel_node g' g k (eq_sym Hsk)) as Hk. rewrite Hn' in Hk.
  destruct (Nodes g !! k) as [n|] eqn:Hn; [|done].
  injection Hk as _ _ Hc _. rewrite <-Hc in Hcn.
  destruct (Hd k n Hn p cn Hcn) as [?|[?|[ch Hch]]]; [by left|by right; left|].
  right; right. destruct (skel_pins g g' cn ch Hsk Hch) as (ch' & -> & _). eauto.
Qed.


Lemma registered_skeleton g g' c :
  skeleton g' = skeleton g → registered g c → registered g' c.
Proof.
  intros Hsk (k & -> & [ch Hch]). exists k. split; [done|].
  destruct (skel_pins g g' k ch Hsk Hch) as (ch' & -> & _). eauto.
Qed.

Lemma infer_pin_safe c g nx np :
  cached_exist g → adopted_ok g → no_dangling g →
  (∃ ch, Channels g !! c = Some ch ∧ np ∈ Pins ch) →
  (∀ x, x ∈ nx → registered g x) →
  infer_pin c (g, nx) np ≠ Panic ∧
  ∀ g' nx', infer_pin c (g, nx) np = Ok (g', nx') →
            ∀ x, x ∈ nx' → registered g x.
Proof.
  intros He Ha Hd (ch & Hch & Hnp) Hnx. unfold infer_pin; cbn [fst snd].
  destruct (He c ch Hch np Hnp) as [n Hn]. simpl in Hn. rewrite Hn, Hch.
  destruct (ChanType ch) as [r|] eqn:Hr.
  - destruct (Ha c ch r Hch Hr) as [_ [ctype Hctype]]. rewrite Hctype.
    set (tys := (Infer (types g) ctype (pinTypes n !! np_Pin np)).1).
    destruct (Refine tys ctype) as [|[ctype' changed]] eqn:Href; [done|].
    set (g1 := setPinType r ctype' (set_types tys g)).
    assert (getPinType (set_types tys g) r = Some ctype) as Hctype' by done.
    pose proof (setPinType_skeleton _ r ctype' ctype Hctype') as Hsk1.
    fold g1 in Hsk1.
    destruct (skel_typed (set_types tys g) g1 _ n Hsk1 Hn) as (n1 & Hn1 & _).
    rewrite Hn1.
    pose proof (applyTypeParams_no_panic n1 tys) as Hnp1.
    destruct (applyTypeParams n1 tys) as [[n2 nxcn]| | |] eqn:Happ; try done.
    simpl. split; [done|]. intros g' nx' [= <- <-] x.
    rewrite elem_of_union, elem_of_map.
    intros [(cn & -> & Hcn)|Hx]; [|by apply Hnx].
    apply applyTypeParams_char in Happ as (_ & _ & _ & _ & _ & _ & Hnext).
    apply Hnext in Hcn as (pn & pt & pt' & _ & _ & Hconn & Hne1 & Hne2).
    destruct (Connections n1 !! pn) as [cn'|] eqn:Hc1; simpl in Hconn; [|done].
    subst cn'.
    assert (no_dangling g1) as Hd1 by (by apply (no_dangling_skeleton g)).
    destruct (Hd1 _ n1 Hn1 pn cn Hc1) as [?|[?|[ch1 Hch1]]]; [done..|].
    assert (is_Some (Channels g !! cn)) as Hreg by (by exists ch1).
    exists cn. split; [|done]. unfold chan_ptr. by rewrite decide_True.
  - split; [done|]. intros g' nx' [= <- <-] x.
    rewrite elem_of_union, elem_of_singleton. intros [->|Hx]; [|by apply Hnx].
    exists c. eauto.
Qed.

Lemma inferChannelType_safe g c :
  cached_exist g → adopted_ok g → no_dangling g → registered g c →
  inferChannelType g c ≠ Panic ∧
  ∀ g' next, inferChannelType g c = Ok (g', next) →
             ∀ x, x ∈ next → registered g' x.
Proof.
  intros He Ha Hd (k & -> & [ch Hch]). unfold inferChannelType. rewrite Hch.
  set (P := λ s : Graph * gset (option string),
         skeleton s.1 = skeleton g ∧ adopted_ok s.1 ∧
         ∀ x, x ∈ s.2 → registered g x).
  assert (∀ s x s', x ∈ elements (Pins ch) → P s →
            infer_pin k s x = Ok s' → P s') as Hkeep.
  { intros [g1 nx1] np [g2 nx2] Hnp%elem_of_elements (Hsk1 & Ha1 & Hn1) Hstep.
    unfold P. simpl in *.
    destruct (skel_pins g g1 k ch Hsk1 Hch) as (ch1 & Hch1 & Hp).
    pose proof Hstep as (Hsk2 & _)%infer_pin_Channels.
    split; [congruence|]. split.
    - eapply typed_pin in Hstep as (? & _); [done|done|].
      intros ch' ?. simplify_eq. by rewrite Hp.
    - intros x Hx. apply (registered_skeleton g1); [done|].
      assert (∃ ch, Channels g1 !! k = Some ch ∧ np ∈ Pins ch) as Hin
        by (exists ch1; by rewrite Hp).
      assert (∀ y, y ∈ nx1 → registered g1 y) as Hreg.
      { intros y Hy. apply (registered_skeleton g); [done|]. by apply Hn1. }
      by eapply (proj2 (infer_pin_safe k g1 nx1 np
                (cached_exist_skeleton _ _ Hsk1 He) Ha1
                (no_dangling_skeleton _ _ Hsk1 Hd) Hin Hreg)). }
  assert (P (g, ∅)) as HP0 by (split; [done|split; [done|set_solver]]).
  split.
  - intros Hloop.
    apply (for_range_Panic P) in Hloop
      as ([g1 nx1] & np & Hnp%elem_of_elements & (Hsk1 & Ha1 & Hn1) & Hp);
      [|done..].
    simpl in *.
    destruct (skel_pins g g1 k ch Hsk1 Hch) as (ch1 & Hch1 & Hpins).
    revert Hp. apply infer_pin_safe.
    + by apply (cached_exist_skeleton g).
    + done.
    + by apply (no_dangling_skeleton g).
    + exists ch1. by rewrite Hpins.
    + intros y Hy. apply (registered_skeleton g); [done|]. by apply Hn1.
  - intros g' next Hloop.
    apply (for_range_inv P) in Hloop as (Hsk' & _ & Hn'); [|done..].
    intros x Hx. apply (registered_skeleton g); [done|]. by apply Hn'.
Qed.

Lemma flood_safe fuel q g :
  cached_exist g → adopted_ok g → no_dangling g →
  (∀ x, x ∈ q → registered g x) → flood fuel q g ≠ Panic.
Proof.
  revert q g. induction fuel as [|fuel IH]; intros q g He Ha Hd Hq.
  { by destruct q. }
  destruct q as [|c q]; [done|]. simpl.
  destruct (inferChannelType_safe g c He Ha Hd) as [Hnp Hnext].
  { apply Hq. by left. }
  destruct (inferChannelType g c) as [[g1 next]| | |] eqn:Hstep; try done.
  simpl. pose proof (inferChannelType_skeleton _ _ _ _ Hstep) as Hsk.
  apply IH.
  - by apply (cached_exist_skeleton g).
  - by eapply typed_step in Hstep as (? & _).
  - by apply (no_dangling_skeleton g).
  - intros x [Hx|Hx%elem_of_elements]%elem_of_app.
    + apply (registered_skeleton g); [done|]. apply Hq. by right.
    + by eapply Hnext.
Qed.

(** X18. On a graph whose cached pins name registered nodes and whose
    connection entries name registered channels (or nothing, or the
    sentinel), the
    flood fill of [InferTypes] dereferences no nil pointer.  A panic of
    [InferTypes] then comes from its last loop: the flood fill has returned,
    and the inference map holds a type parameter scoped to a name that is not
    a registered node. *)
Theorem InferTypes_panics_only_in_last_loop fuel g :
  cached_exist g → no_dangling g → InferTypes fuel g = Panic →
  ∃ g2 tp, (g1 ← InferTypes_setup g;
            flood fuel (Some <$> (map_to_list (Channels g1)).*1) g1) = Ok g2 ∧
           is_Some (types g2 !! tp) ∧ Nodes g !! Scope tp = None.
Proof.
  intros He Hd. unfold InferTypes.
  destruct (InferTypes_setup g) as [g1| | |] eqn:H1; simpl; try done.
  - pose proof (InferTypes_setup_wiring g g1 H1) as [Hw1 _].
    pose proof H1 as (_ & Hchans1 & _)%InferTypes_setup_Ok.
    assert (∀ k, is_Some (Nodes g1 !! k) ↔ is_Some (Nodes g !! k)) as Hnodes.
    { intros k. pose proof (wiring_node g g1 k Hw1) as Hk.
      destruct (Nodes g1 !! k), (Nodes g !! k); simpl in Hk; try done;
        split; by eauto. }
    assert (cached_exist g1) as He1.
    { intros k ch1. rewrite Hchans1, lookup_fmap.
      intros (ch & Hch & ->)%fmap_Some np Hnp. simpl in *.
      apply Hnodes. by apply (He k ch Hch np Hnp). }
    assert (no_dangling g1) as Hd1.
    { intros k n1 Hn1 p cn Hcn.
      pose proof (wiring_node g g1 k Hw1) as Hk. rewrite Hn1 in Hk.
      destruct (Nodes g !! k) as [n|] eqn:Hn; [|done].
      injection Hk as _ _ Hc. rewrite Hc in Hcn.
      destruct (Hd k n Hn p cn Hcn) as [?|[?|Hreg]]; [by left|by right; left|].
      right; right. rewrite Hchans1, lookup_fmap. by apply fmap_is_Some. }
    assert (adopted_ok g1) as Ha1.
    { intros k ch r. rewrite Hchans1, lookup_fmap.
      by intros (ch0 & _ & ->)%fmap_Some. }
    pose proof (flood_safe fuel (Some <$> (map_to_list (Channels g1)).*1) g1
                  He1 Ha1 Hd1) as Hflood.
    destruct (flood fuel _ g1) as [g2| | |] eqn:H2; simpl; try done.
    + intros Hfin. exists g2. unfold InferTypes_finish in Hfin.
      cbv zeta in Hfin.
      set (g3 := foldl lithify_channel g2 (map_to_list (Channels g2))) in *.
      destruct (for_range publish _ _) as [?| | |] eqn:Hloop; try done.
      apply (for_range_Panic
               (λ m, ∀ k, is_Some (m !! k) ↔ is_Some (Nodes g !! k)))
        in Hloop as (m & [tp typ] & Hin%elem_of_map_to_list & Hm & Hp).
      * exists tp. split; [done|]. split.
        -- assert (types g3 = types g2) as <-; [|by eauto].
           unfold g3. clear. generalize (map_to_list (Channels g2)).
           intros l. revert g2. induction l as [|kc l IH]; intros g2; [done|].
           simpl. rewrite IH. unfold lithify_channel.
           destruct (ChanType kc.2); [|done]. by destruct (getPinType g2 _).
        -- unfold publish in Hp. simpl in Hp.
           destruct (m !! Scope tp) eqn:Hs; [done|].
           apply eq_None_not_Some. rewrite <-Hm, Hs. by intros [].
      * intros m b m' _ Hm Hstep k. unfold publish in Hstep.
        destruct (m !! Scope b.1) as [n|] eqn:Hn; [|done].
        injection Hstep as <-. rewrite <-Hm.
        destruct (decide (k = Scope b.1)) as [->|Hne].
        -- rewrite lookup_insert_eq, Hn. split; eauto.
        -- by rewrite lookup_insert_ne.
      * intros k. rewrite lookup_fmap, fmap_is_Some.
        pose proof (flood_skeleton _ _ _ _ H2) as Hsk2.
        pose proof (lithify_channels_skeleton g2 (map_to_list (Channels g2)))
          as Hsk3. fold g3 in Hsk3.
        rewrite <-Hnodes.
        pose proof (skel_node g1 g3 k) as Hk. rewrite Hsk3, Hsk2 in Hk.
        specialize (Hk eq_refl).
        destruct (Nodes g3 !! k), (Nodes g1 !! k); simpl in Hk; try done;
          split; by eauto.
    + intros _. exfalso. apply Hflood; [|done].
      intros x (k & -> & ([k' ch'] & -> & Hin)%list_elem_of_fmap)
        %list_elem_of_fmap.
      apply elem_of_map_to_list in Hin. exists k'. eauto.
  - intros _. exfalso. unfold InferTypes_setup in H1.
    destruct (for_range reset_node _ _) as [?| | |] eqn:Hloop; try done.
    apply (for_range_Panic (λ _, True)) in Hloop as (m & [k n] & _ & _ & Hp);
      [|done..].
    unfold reset_node in Hp. simpl in Hp.
    destruct (for_range (new_pin_type (NodeName n)) _ _) as [?| | |] eqn:Hl2;
      try done.
    apply (for_range_Panic (λ _, True)) in Hl2 as (m2 & [pn ty] & _ & _ & Hp2);
      [|done..].
    unfold new_pin_type in Hp2. by destruct (NewType _ _).
Qed.

End pass.

Section invariants.
Context {Src : Source}.
Implicit Types (g : Graph) (n : Node) (ch : Channel) (np : NodePin).

(** *** The invariant of the bookkeeping operations *)

Lemma fresh_cached_exist g :
  names_cached g → caches_fresh g → cached_exist g.
Proof.
  intros [Hnn _] Hfresh k ch Hch np Hnp. simpl.
  rewrite (fresh_cache g k ch Hfresh Hch) in Hnp.
  destruct (wired_pins_node_exists g k np Hnn Hnp) as (n & -> & _). eauto.
Qed.

(** Disconnecting the pins of channels that leave the registry keeps the
    connection entries free of dangling names, when every pin that names a
    leaving channel is disconnected. *)
Lemma no_dangling_disconnect g (X : gset NodePin) nodes chans :
  no_dangling g →
  (∀ k, is_Some (nodes !! k) → nodes !! k = Nodes g !! k) →
  (∀ k ch, chans !! k = Some ch → is_Some (Channels g !! k)) →
  (∀ key n p cn, nodes !! key = Some n → Connections n !! p = Some cn →
     is_Some (Channels g !! cn) → chans !! cn = None →
     mkNodePin key p ∈ X) →
  no_dangling (mkGraph (disconnect_all X nodes) chans (types g)).
Proof.
  intros Hd Hnodes Hsub Hgone key n'. cbn [Nodes].
  rewrite disconnect_all_lookup. intros (n & Hn & ->)%fmap_Some p cn.
  rewrite lookup_disconnected. case_decide as HX.
  { intros [= <-]. by right; left. }
  intros Hcn. cbn [Channels].
  assert (Nodes g !! key = Some n) as Hgn.
  { rewrite <-Hnodes; [done|by eauto]. }
  destruct (Hd key n Hgn p cn Hcn) as [?|[?|Hreg]]; [by left|by right; left|].
  right; right. destruct (chans !! cn) as [ch|] eqn:Hch; [by eauto|].
  destruct HX. by eapply Hgone.
Qed.

(** X23. On a graph with cached names, fresh pin caches, no channel under
    the sentinel and no dangling connection entry, [DeleteChannel] of a
    registered channel returns a graph with the same four properties: in
    particular no connection entry names the deleted channel any more. *)
Theorem DeleteChannel_keeps_invariants g k ch :
  names_cached g → sentinel_free g → caches_fresh g → no_dangling g →
  Channels g !! k = Some ch →
  ∃ g', DeleteChannel g ch = Some g' ∧
    names_cached g' ∧ sentinel_free g' ∧ caches_fresh g' ∧ no_dangling g' ∧
    ∀ key n' p, Nodes g' !! key = Some n' → Connections n' !! p ≠ Some k.
Proof.
  intros Hnames Hsent Hfresh Hd Hch. pose proof Hnames as [Hnn Hcn].
  pose proof (fresh_cached_exist g Hnames Hfresh) as He.
  pose proof (Hcn k ch Hch) as Hname. simpl in Hname.
  rewrite DeleteChannel_Some by (intros np Hnp; by apply (He k ch Hch np)).
  rewrite Hname. eexists. split; [done|].
  assert (∀ key n p, Nodes g !! key = Some n → Connections n !! p = Some k →
            mkNodePin key p ∈ Pins ch) as Hwired.
  { intros key n p Hn Hc. rewrite (fresh_cache g k ch Hfresh Hch).
    apply elem_of_wired_pins. exists key, n. split; [done|]. split; [|done].
    simpl. symmetry. by apply Hnn in Hn. }
  split; [|split; [|split; [|split]]].
  - split; cbn [Nodes Channels].
    + intros key n'. rewrite disconnect_all_lookup.
      intros (n & Hn & ->)%fmap_Some. simpl. by apply Hnn in Hn.
    + intros k2 c2 [_ Hc2]%lookup_delete_Some. by apply Hcn in Hc2.
  - unfold sentinel_free in *. cbn [Channels].
    apply lookup_delete_None. by right.
  - apply caches_fresh_alt. intros k2 c2. cbn [Channels].
    intros [Hne Hc2]%lookup_delete_Some.
    rewrite (fresh_cache g k2 c2 Hfresh Hc2).
    apply set_eq; intros [key pin]. rewrite !elem_of_wired_pins. split.
    + intros (key' & n & Hn & Hnm & Hc); cbn [np_Node np_Pin] in *.
      exists key', (disconnected (Pins ch) key' n). cbn [Nodes].
      rewrite disconnect_all_lookup, Hn. split; [done|]. split; [done|].
      rewrite lookup_disconnected, decide_False; [done|].
      intros Hin. rewrite (fresh_cache g k ch Hfresh Hch) in Hin.
      destruct (wired_pins_node_exists g k _ Hnn Hin) as (n2 & Hn2 & _ & Hc2').
      cbn [np_Node np_Pin] in *. congruence.
    + intros (key' & n' & Hn' & Hnm & Hc); cbn [np_Node np_Pin Nodes] in *.
      rewrite disconnect_all_lookup in Hn'.
      apply fmap_Some in Hn' as (n & Hn & ->).
      rewrite lookup_disconnected in Hc. case_decide.
      * unfold sentinel_free in Hsent. congruence.
      * by exists key', n.
  - apply no_dangling_disconnect; [done|done| |].
    + intros k2 c2 [_ Hc2]%lookup_delete_Some. eauto.
    + intros key n p cn Hn Hc [c Hc'] Hgone.
      apply lookup_delete_None in Hgone as [<-|Hnone]; [|congruence].
      by eapply Hwired.
  - intros key n' p. cbn [Nodes]. rewrite disconnect_all_lookup.
    intros (n & Hn & ->)%fmap_Some. rewrite lookup_disconnected.
    case_decide as HX.
    + intros [= Hk]. unfold sentinel_free in Hsent. congruence.
    + intros Hc. apply HX. by eapply Hwired.
Qed.

(** *** DeleteNode and RefreshChannelsPins keep the connection entries sound *)

Lemma refreshed_no_dangling g :
  names_cached g → no_dangling g → no_dangling (refreshed g).
Proof.
  intros Hnames Hd. pose proof Hnames as [Hnn _].
  unfold refreshed. cbv zeta.
  apply (no_dangling_disconnect g); [done|done| |].
  - intros k ch [Hch _]%map_lookup_filter_Some.
    rewrite rebuild_caches_lookup in Hch.
    apply fmap_Some in Hch as (ch0 & -> & _). eauto.
  - intros key n p cn Hn Hc [ch0 Hch0] Hgone.
    apply doomed_pin; [done|]. exists n, cn. do 3 (split; [by eauto|]).
    apply map_lookup_filter_None in Hgone as [Hnone|Hsmall].
    + by rewrite rebuild_caches_lookup, Hch0 in Hnone.
    + specialize (Hsmall (set_Pins (λ _, wired_pins g cn) ch0)).
      rewrite rebuild_caches_lookup, Hch0 in Hsmall. simpl in Hsmall.
      specialize (Hsmall eq_refl). lia.
Qed.

(** X24. On a graph whose objects cache their names, [RefreshChannelsPins]
    keeps the connection entries free of dangling names: if every entry
    is empty, the sentinel or the name of a registered channel before, so
    it is afterwards, although channels were pruned. *)
Theorem RefreshChannelsPins_keeps_no_dangling g :
  names_cached g → no_dangling g →
  ∃ g', RefreshChannelsPins g = Some g' ∧ no_dangling g'.
Proof.
  intros Hnames Hd. exists (refreshed g).
  split; [by apply RefreshChannelsPins_refreshed|].
  by apply refreshed_no_dangling.
Qed.

Lemma DeleteNode_no_dangling g n b g' :
  names_cached g → sentinel_free g → caches_fresh g →
  Nodes g !! NodeName n = Some n → no_dangling g →
  DeleteNode g n b = Some g' → no_dangling g'.
Proof.
  intros Hnames Hsent Hfresh Hn Hd. pose proof Hnames as [Hnn Hcn].
  rewrite (DeleteNode_result g n b Hnames Hsent Hfresh Hn). intros [= <-].
  apply (no_dangling_disconnect g); [done| | |].
  - intros k [n' [Hne _]%lookup_delete_Some]. by rewrite lookup_delete_ne.
  - intros k ch [Hch _]%map_lookup_filter_Some.
    rewrite lookup_fmap in Hch. apply fmap_Some in Hch as (ch0 & -> & _). eauto.
  - intros key n' p cn [Hne Hn']%lookup_delete_Some Hc [ch0 Hch0] Hgone.
    apply (marked_pins g n b Hnames Hsent Hfresh Hn).
    apply map_lookup_filter_None in Hgone as [Hnone|Hmarked].
    { by rewrite lookup_fmap, Hch0 in Hnone. }
    specialize (Hmarked (without_node (NodeName n) ch0)).
    rewrite lookup_fmap, Hch0 in Hmarked. specialize (Hmarked eq_refl).
    simpl in Hmarked. apply dec_stable in Hmarked.
    apply (marked_names g n b Hnames Hsent Hfresh Hn) in Hmarked
      as (Hb & Hp & ch1 & Hch1 & Hsmall).
    simplify_eq. exists cn, ch0. do 4 (split; [done|]).
    simpl. apply elem_of_filter. split.
    + simpl. congruence.
    + rewrite (fresh_cache g cn ch0 Hfresh Hch0).
      apply elem_of_wired_pins. exists key, n'. split; [done|].
      split; [|done]. simpl. symmetry. by apply Hnn in Hn'.
Qed.

(** X10. On a graph with cached names, fresh pin caches and no channel under
    the sentinel, [DeleteNode] of a registered node, with or without cleanup,
    returns a graph that again has cached names, fresh pin caches and no
    channel under the sentinel; and if no connection entry was dangling
    before, none is afterwards. *)
Theorem DeleteNode_keeps_invariants g n b :
  names_cached g → sentinel_free g → caches_fresh g →
  Nodes g !! NodeName n = Some n →
  ∃ g', DeleteNode g n b = Some g' ∧
        names_cached g' ∧ sentinel_free g' ∧ caches_fresh g' ∧
        (no_dangling g → no_dangling g').
Proof.
  intros Hnames Hsent Hfresh Hn.
  destruct (DeleteNode_Some g n b Hnames Hsent Hfresh Hn) as (g' & Hg' & _).
  exists g'. split; [done|]. split; [|split; [|split]].
  - by eapply DeleteNode_names.
  - by eapply DeleteNode_sentinel.
  - by eapply DeleteNode_fresh.
  - intros Hd. by eapply DeleteNode_no_dangling.
Qed.

(** X11. On such a graph, if moreover every channel has at least two pins
    in its cache, [DeleteNode] with cleanup does what taking the node out
    of the registry and calling [RefreshChannelsPins] does; every channel it
    leaves has at least two pins, and a further [RefreshChannelsPins]
    changes nothing. *)
Theorem DeleteNode_as_refresh g n :
  names_cached g → sentinel_free g → caches_fresh g →
  Nodes g !! NodeName n = Some n →
  map_Forall (λ _ ch, 2 ≤ size (Pins ch)) (Channels g) →
  DeleteNode g n true
  = RefreshChannelsPins (set_Nodes (delete (NodeName n)) g) ∧
  ∃ g', DeleteNode g n true = Some g' ∧
        map_Forall (λ _ ch, 2 ≤ size (Pins ch)) (Channels g') ∧
        RefreshChannelsPins g' = Some g'.
Proof.
  intros Hnames Hsent Hfresh Hn Hbig.
  assert (names_cached (set_Nodes (delete (NodeName n)) g)) as Hnames'.
  { destruct Hnames as [Hnn Hcn]. split; [|done].
    intros k n' Hn'. cbn [Nodes set_Nodes] in Hn'.
    apply lookup_delete_Some in Hn' as [_ Hn']. by apply Hnn in Hn'. }
  pose proof (DeleteNode_refreshed g n true Hnames Hsent Hfresh Hn eq_refl Hbig)
    as Hdel.
  split; [by rewrite RefreshChannelsPins_refreshed|].
  eexists. split; [done|]. split.
  - intros k ch Hch. by eapply refreshed_pruned.
  - rewrite RefreshChannelsPins_refreshed by (by apply refreshed_names).
    by rewrite refreshed_idemp.
Qed.

End invariants.

(** ** Passes on the documents *)

Lemma InferTypes_more_fuel `{Src : Source} fuel k (g : Graph) :
  InferTypes fuel g ≠ OutOfFuel → InferTypes (fuel + k) g = InferTypes fuel g.
Proof.
  unfold InferTypes. destruct (InferTypes_setup g) as [g1| | |]; simpl; try done.
  intros Hfin. rewrite flood_mono; [done|]. intros Hf. by rewrite Hf in Hfin.
Qed.

(** X19. A nil channel on the worklist makes the flood fill dereference nil,
    whatever the graph: the pass cannot return nil.  A connection entry that
    names no channel puts one there: the document [dangling_output], whose
    pin [Y.out] is connected to the unregistered name ghost, is loaded by
    [LoadJSON] with that entry left in place, and [InferTypes] panics on the
    loaded graph once the type of [Y.out] has been refined, with every bound
    of at least three iterations. *)
Theorem InferTypes_dangling_connection :
  (∀ (Src : Source) fuel q (g g' : Graph), None ∈ q → flood fuel q g ≠ Ok g') ∧
  LoadJSON (E:=string) (inr (document dangling_output))
    = Some (inr (loaded dangling_output)) ∧
  (n ← Nodes (loaded dangling_output) !! "Y";
   @Connections texpr_source n !! "out") = Some "ghost" ∧
  ∀ k, InferTypes (3 + k) (loaded dangling_output) = Panic.
Proof.
  split; [intros; by apply flood_nil_channel|].
  split; [by_compute|]. split; [by_compute|]. intros k.
  assert (InferTypes 3 (loaded dangling_output) = Panic) as Hrun by by_compute.
  rewrite InferTypes_more_fuel; [done|]. by rewrite Hrun.
Qed.

Lemma LoadJSON_wellformed_witness :
  DocChannels null_channel !! "c" = Some None ∧
  LoadJSON (E:=string) (inr null_channel) = None ∧
  sentinel_free broadcast_gather ∧
  ∃ g', LoadJSON (E:=string) (inr (document broadcast_gather)) = Some (inr g') ∧
        names_cached g' ∧ caches_fresh g'.
Proof.
  assert (DocChannels null_channel !! "c" = Some None) as Hnull by by_compute.
  assert (sentinel_free broadcast_gather) as Hsent by by_compute.
  split; [exact Hnull|]. split.
  { apply (proj1 (LoadJSON_wellformed (E:=string))). left. by exists "c". }
  split; [exact Hsent|].
  destruct (proj2 (proj2 (LoadJSON_wellformed (E:=string))) broadcast_gather)
    as (g' & Hload & Hnames & _ & _ & Hrest).
  exists g'. split; [exact Hload|]. split; [exact Hnames|].
  exact (proj1 (proj2 (Hrest Hsent))).
Defined.

Lemma RefreshChannelsPins_frame_witness :
  names_cached one_pin_channel ∧
  ∃ g', RefreshChannelsPins one_pin_channel = Some g' ∧
        types g' = types one_pin_channel.
Proof.
  assert (names_cached one_pin_channel) as Hnames by by_compute.
  split; [exact Hnames|].
  destruct (RefreshChannelsPins_frame one_pin_channel Hnames)
    as (g' & Hg' & Ht & _).
  exists g'. split; [exact Hg'|exact Ht].
Defined.

Lemma RefreshChannelsPins_ignores_caches_witness :
  Nodes (set_Channels reset_caches one_pin_channel) = Nodes one_pin_channel ∧
  types (set_Channels reset_caches one_pin_channel) = types one_pin_channel ∧
  reset_caches (Channels (set_Channels reset_caches one_pin_channel))
    = reset_caches (Channels one_pin_channel) ∧
  RefreshChannelsPins (set_Channels reset_caches one_pin_channel)
    = RefreshChannelsPins one_pin_channel.
Proof.
  assert (reset_caches (Channels (set_Channels reset_caches one_pin_channel))
          = reset_caches (Channels one_pin_channel)) as Hc by by_compute.
  split; [reflexivity|]. split; [reflexivity|]. split; [exact Hc|].
  exact (RefreshChannelsPins_ignores_caches _ _ eq_refl eq_refl Hc).
Defined.

Lemma DeleteChannel_twice_witness :
  DeleteChannel generic_to_int (channel "c" [("X", "out"); ("Y", "in")])
    = Some (default generic_to_int
              (DeleteChannel generic_to_int
                 (channel "c" [("X", "out"); ("Y", "in")]))) ∧
  DeleteChannel
    (default generic_to_int
       (DeleteChannel generic_to_int (channel "c" [("X", "out"); ("Y", "in")])))
    (channel "c" [("X", "out"); ("Y", "in")])
  = Some (default generic_to_int
            (DeleteChannel generic_to_int
               (channel "c" [("X", "out"); ("Y", "in")]))).
Proof.
  assert (DeleteChannel generic_to_int (channel "c" [("X", "out"); ("Y", "in")])
    = Some (default generic_to_int
              (DeleteChannel generic_to_int
                 (channel "c" [("X", "out"); ("Y", "in")])))) as Hdel
    by by_compute.
  split; [exact Hdel|]. exact (DeleteChannel_twice _ _ _ Hdel).
Defined.

Lemma DeleteNode_keeps_invariants_witness :
  names_cached generic_to_int ∧ sentinel_free generic_to_int ∧
  caches_fresh generic_to_int ∧
  Nodes generic_to_int !! "X" = Some (node "X" [("out", "$T")] [("out", "c")]) ∧
  ∃ g', DeleteNode generic_to_int (node "X" [("out", "$T")] [("out", "c")]) true
        = Some g' ∧ caches_fresh g'.
Proof.
  assert (names_cached generic_to_int) as H1 by by_compute.
  assert (sentinel_free generic_to_int) as H2 by by_compute.
  assert (caches_fresh generic_to_int) as H3 by by_compute.
  assert (Nodes generic_to_int !! "X"
          = Some (node "X" [("out", "$T")] [("out", "c")])) as H4 by by_compute.
  do 4 (split; [assumption|]).
  destruct (DeleteNode_keeps_invariants generic_to_int
              (node "X" [("out", "$T")] [("out", "c")]) true H1 H2 H3 H4)
    as (g' & Hg' & _ & _ & Hf & _).
  exists g'. split; [exact Hg'|exact Hf].
Defined.

Lemma DeleteChannel_keeps_invariants_witness :
  names_cached generic_to_int ∧ sentinel_free generic_to_int ∧
  caches_fresh generic_to_int ∧ no_dangling generic_to_int ∧
  Channels generic_to_int !! "c"
    = Some (channel "c" [("X", "out"); ("Y", "in")]) ∧
  ∃ g', DeleteChannel generic_to_int (channel "c" [("X", "out"); ("Y", "in")])
        = Some g' ∧ no_dangling g'.
Proof.
  assert (names_cached generic_to_int) as H1 by by_compute.
  assert (sentinel_free generic_to_int) as H2 by by_compute.
  assert (caches_fresh generic_to_int) as H3 by by_compute.
  assert (no_dangling generic_to_int) as H4 by by_compute.
  assert (Channels generic_to_int !! "c"
          = Some (channel "c" [("X", "out"); ("Y", "in")])) as H5 by by_compute.
  do 5 (split; [assumption|]).
  destruct (DeleteChannel_keeps_invariants generic_to_int "c" _ H1 H2 H3 H4 H5)
    as (g' & Hg' & _ & _ & _ & Hd & _).
  exists g'. split; [exact Hg'|exact Hd].
Defined.

Lemma RefreshChannelsPins_keeps_no_dangling_witness :
  names_cached broadcaster ∧ no_dangling broadcaster ∧
  ∃ g', RefreshChannelsPins broadcaster = Some g' ∧ no_dangling g'.
Proof.
  assert (names_cached broadcaster) as H1 by by_compute.
  assert (no_dangling broadcaster) as H2 by by_compute.
  do 2 (split; [assumption|]).
  exact (RefreshChannelsPins_keeps_no_dangling broadcaster H1 H2).
Defined.

Lemma DeleteNode_as_refresh_witness :
  names_cached generic_to_int ∧ sentinel_free generic_to_int ∧
  caches_fresh generic_to_int ∧
  Nodes generic_to_int !! "X" = Some (node "X" [("out", "$T")] [("out", "c")]) ∧
  map_Forall (λ _ ch, 2 ≤ size (Pins ch)) (Channels generic_to_int) ∧
  DeleteNode generic_to_int (node "X" [("out", "$T")] [("out", "c")]) true
  = RefreshChannelsPins (set_Nodes (delete "X") generic_to_int).
Proof.
  assert (names_cached generic_to_int) as H1 by by_compute.
  assert (sentinel_free generic_to_int) as H2 by by_compute.
  assert (caches_fresh generic_to_int) as H3 by by_compute.
  assert (Nodes generic_to_int !! "X"
          = Some (node "X" [("out", "$T")] [("out", "c")])) as H4 by by_compute.
  assert (map_Forall (λ _ ch, 2 ≤ size (Pins ch)) (Channels generic_to_int))
    as H5 by by_compute.
  do 5 (split; [assumption|]).
  exact (proj1 (DeleteNode_as_refresh generic_to_int
                  (node "X" [("out", "$T")] [("out", "c")]) H1 H2 H3 H4 H5)).
Defined.

Lemma InferTypes_keeps_wiring_witness :
  InferTypes 11 (loaded broadcast_gather)
    = Ok (after_pass 11 (loaded broadcast_gather)) ∧
  wiring (after_pass 11 (loaded broadcast_gather))
    = wiring (loaded broadcast_gather).
Proof.
  assert (InferTypes 11 (loaded broadcast_gather)
          = Ok (after_pass 11 (loaded broadcast_gather))) as Hrun by by_compute.
  split; [exact Hrun|]. exact (proj1 (InferTypes_keeps_wiring _ _ _ Hrun)).
Defined.

Lemma InferTypes_bad_declaration_witness :
  Nodes bad_declaration !! "X"
    = Some (node "X" [("out", "$")] [("out", "nil")]) ∧
  PartPins (node "X" [("out", "$")] [("out", "nil")]) !! "out" = Some "$" ∧
  @NewType texpr_source "X" "$" = inl "empty type parameter" ∧
  ∃ k' n' pn' ty' e,
    Nodes bad_declaration !! k' = Some n' ∧ PartPins n' !! pn' = Some ty' ∧
    NewType (NodeName n') ty' = inl e ∧
    InferTypes 0 bad_declaration = Raise (SourceError e).
Proof.
  assert (Nodes bad_declaration !! "X"
          = Some (node "X" [("out", "$")] [("out", "nil")])) as H1 by by_compute.
  assert (PartPins (node "X" [("out", "$")] [("out", "nil")]) !! "out"
          = Some "$") as H2 by by_compute.
  assert (@NewType texpr_source "X" "$" = inl "empty type parameter") as H3
    by reflexivity.
  do 3 (split; [assumption|]).
  exact (proj1 (InferTypes_bad_declaration bad_declaration) 0 _ _ _ _ _ H1 H2 H3).
Defined.


Lemma InferTypes_undeclared_pins_witness :
  Channels (loaded undeclared_pins) !! "c"
    = Some (mkChannel "c" {[mkNodePin "X" "a"; mkNodePin "Y" "b"]} None) ∧
  Pins (mkChannel "c" {[mkNodePin "X" "a"; mkNodePin "Y" "b"]} None) ≠ ∅ ∧
  ∀ g', InferTypes 50 (loaded undeclared_pins) ≠ Ok g'.
Proof.
  assert (Channels (loaded undeclared_pins) !! "c"
    = Some (mkChannel "c" {[mkNodePin "X" "a"; mkNodePin "Y" "b"]} None)) as H1
    by by_compute.
  assert (Pins (mkChannel "c" {[mkNodePin "X" "a"; mkNodePin "Y" "b"]} None) ≠ ∅)
    as H2 by by_compute.
  do 2 (split; [assumption|]).
  apply (InferTypes_undeclared_pins 50 _ "c" _ H1 H2).
  intros np n Hnp Hn. revert n Hn.
  apply elem_of_union in Hnp as [->%elem_of_singleton| ->%elem_of_singleton].
  - intros n Hn.
    assert (Nodes (loaded undeclared_pins) !! "X"
            = Some (mkNode "X" (list_to_map [("out", "int")])
                      (list_to_map [("a", "c")]) ∅ ∅)) as HX by by_compute.
    simpl in Hn. rewrite HX in Hn. injection Hn as <-. reflexivity.
  - intros n Hn.
    assert (Nodes (loaded undeclared_pins) !! "Y"
            = Some (mkNode "Y" (list_to_map [("in", "int")])
                      (list_to_map [("b", "c")]) ∅ ∅)) as HY by by_compute.
    simpl in Hn. rewrite HY in Hn. injection Hn as <-. reflexivity.
Defined.

Lemma InferTypes_no_channels_witness :
  Channels no_channels = ∅ ∧ declarations_parse no_channels ∧
  Nodes no_channels !! "X"
    = Some (node "X" [("in", "int"); ("out", "$T")]
                     [("in", "nil"); ("out", "nil")]) ∧
  ∃ g' n', InferTypes 0 no_channels = Ok g' ∧ types g' = ∅ ∧
    Nodes g' !! "X" = Some n' ∧ typeParams n' = ∅ ∧
    pinTypes n' !! "in" = Some (TName "int") ∧
    pinTypes n' !! "out" = Some (TName "interface{}").
Proof.
  assert (Channels no_channels = ∅) as H1 by by_compute.
  assert (declarations_parse no_channels) as H2 by by_compute.
  assert (Nodes no_channels !! "X"
          = Some (node "X" [("in", "int"); ("out", "$T")]
                           [("in", "nil"); ("out", "nil")])) as H3 by by_compute.
  do 3 (split; [assumption|]).
  destruct (InferTypes_no_channels 0 no_channels H1 H2)
    as (g' & Hrun & _ & Ht & _ & Hpins).
  destruct (Hpins "X" _ H3) as (n' & Hn' & Hparams & Htypes).
  exists g', n'. split; [exact Hrun|]. split; [exact Ht|].
  split; [exact Hn'|]. split; [exact Hparams|].
  split; [exact (Htypes "in")|exact (Htypes "out")].
Defined.

Lemma InferTypes_channel_type_is_pin_type_witness :
  InferTypes 11 (loaded broadcast_gather)
    = Ok (after_pass 11 (loaded broadcast_gather)) ∧
  pins_declared (loaded broadcast_gather) ∧
  Channels (loaded broadcast_gather) !! "channel3"
    = Some (mkChannel "channel3"
              {[mkNodePin "Gather" "output";
                mkNodePin "Print every input" "inputs"]} None) ∧
  is_Some (channel_type (after_pass 11 (loaded broadcast_gather)) "channel3").
Proof.
  assert (InferTypes 11 (loaded broadcast_gather)
          = Ok (after_pass 11 (loaded broadcast_gather))) as Hrun by by_compute.
  assert (pins_declared (loaded broadcast_gather)) as Hdecl by by_compute.
  assert (Channels (loaded broadcast_gather) !! "channel3"
    = Some (mkChannel "channel3"
              {[mkNodePin "Gather" "output";
                mkNodePin "Print every input" "inputs"]} None)) as Hch
    by by_compute.
  do 3 (split; [assumption|]).
  apply (proj2 (proj2 (InferTypes_channel_type_is_pin_type _ _ _ Hrun))
           Hdecl "channel3" _ Hch).
  by_compute.
Defined.

Lemma InferTypes_panics_only_in_last_loop_witness :
  cached_exist misnamed_node ∧ no_dangling misnamed_node ∧
  InferTypes 5 misnamed_node = Panic ∧
  ∃ (g2 : @Graph texpr_source) tp,
    is_Some (types g2 !! tp) ∧ Nodes misnamed_node !! Scope tp = None.
Proof.
  assert (cached_exist misnamed_node) as H1 by by_compute.
  assert (no_dangling misnamed_node) as H2 by by_compute.
  assert (InferTypes 5 misnamed_node = Panic) as H3 by by_compute.
  do 3 (split; [assumption|]).
  destruct (InferTypes_panics_only_in_last_loop 5 misnamed_node H1 H2 H3)
    as (g2 & tp & _ & Hty & Hnone).
  exists g2, tp. split; [exact Hty|exact Hnone].
Defined.

(** ** The channel editor *)

Section view_handlers.
Import view.
Context (Atoi : string → option Z).
Context (render : gmap string Channel → option Channel → bool).

Local Abbreviation handler := (ChannelHandler Atoi render).

Lemma identifierRE_nonempty s : identifierRE s = true → s ≠ "".
Proof. by destruct s. Qed.

Lemma handler_cases chans name r :
  (name ≠ "new" ∧ chans !! name = None ∧
   handler chans name r = (chans, HttpError 404)) ∨
  ((name = "new" ∨ is_Some (chans !! name)) ∧
   ((Method r ≠ "POST" ∧ handler chans name r = show render chans (chans !! name)) ∨
    (Method r = "POST" ∧ ¬ valid_form Atoi r ∧
     handler chans name r = (chans, HttpError 400)) ∨
    (Method r = "POST" ∧
     ∃ form ci, Form r = Some form ∧ identifierRE (form "Name") = true ∧
       Atoi (form "Cap") = Some ci ∧ (0 ≤ ci)%Z ∧
       let e0 := default (mkChannel "" "" 0) (chans !! name) in
       let update (e' : Channel) :=
         match chans !! name with
         | Some _ => <[name := e']> chans
         | None => chans
         end in
       (form "Name" = Name e0 ∧
        handler chans name r
        = show render (update (mkChannel (Name e0) (form "Type") ci))
               (Some (mkChannel (Name e0) (form "Type") ci))) ∨
       (form "Name" ≠ Name e0 ∧
        handler chans name r
        = (<[form "Name" := mkChannel (form "Name") (form "Type") ci]>
             (delete (Name e0)
                (update (mkChannel (form "Name") (form "Type") ci))),
           SeeOther (form "Name")))))).
Proof.
  assert (name ≠ "new" ∧ chans !! name = None ∨
          (name = "new" ∨ is_Some (chans !! name))) as [[Hnew Hnone]|Hacc].
  { destruct (decide (name = "new")); [by right; left|].
    destruct (chans !! name); [right; right; by eauto|by left]. }
  { left. unfold ChannelHandler.
    by rewrite bool_decide_true, Hnone, bool_decide_true by done. }
  right. split; [done|]. unfold ChannelHandler.
  assert (bool_decide (name ≠ "new") && bool_decide (chans !! name = None)
          = false) as ->.
  { destruct Hacc as [->|[e ->]]; [by rewrite bool_decide_false by naive_solver|].
    rewrite (bool_decide_false (Some e = None)) by done. apply andb_false_r. }
  case_bool_decide as Hm; [|by left]. right.
  destruct (Form r) as [form|] eqn:Hform.
  2: { left. split; [done|]. split; [|done].
       intros (? & ? & ? & _). congruence. }
  destruct (identifierRE (form "Name")) eqn:Hid; cbn [negb].
  2: { left. split; [done|]. split; [|done].
       intros (? & ? & ? & ? & _). simplify_eq. congruence. }
  destruct (Atoi (form "Cap")) as [ci|] eqn:Hcap.
  2: { left. split; [done|]. split; [|done].
       intros (? & ? & ? & ? & ? & _). by simplify_eq. }
  destruct (Z.ltb_spec ci 0) as [Hneg|Hpos].
  { left. split; [done|]. split; [|done].
    intros (? & ? & ? & ? & ? & ?). simplify_eq. lia. }
  right. split; [done|]. exists form, ci. do 4 (split; [done|]).
  cbv zeta. case_bool_decide; [left|right]; done.
Qed.

(** X20. The channel editor answers 404 exactly for a name that is neither [new]
    nor registered, and 400 exactly for a POST, to a name it accepts, whose
    form does not parse, names no identifier, or gives a capacity that is no
    integer or is negative; and a request answered by 400 or 404, or that
    is not a POST, leaves the registry as it was. *)
Theorem ChannelHandler_rejects chans name r :
  ((handler chans name r).2 = HttpError 404 ↔
     name ≠ "new" ∧ chans !! name = None) ∧
  ((handler chans name r).2 = HttpError 400 ↔
     (name = "new" ∨ is_Some (chans !! name)) ∧ Method r = "POST" ∧
     ¬ valid_form Atoi r) ∧
  ((handler chans name r).2 = HttpError 400 ∨
   (handler chans name r).2 = HttpError 404 ∨ Method r ≠ "POST" →
   (handler chans name r).1 = chans).
Proof.
  assert (∀ c e, (show render c e).2 ≠ HttpError 404 ∧
                 (show render c e).2 ≠ HttpError 400) as Hshow.
  { intros c e. unfold show; simpl. by destruct (render c e). }
  destruct (handler_cases chans name r)
    as [(Hnew & Hnone & ->)|[Hacc [[Hm ->]|[(Hm & Hbad & ->)|
         (Hm & form & ci & Hform & Hid & Hcap & Hpos & Hres)]]]].
  - simpl. split; [naive_solver|]. split; [|done].
    split; [done|]. intros ([?|[? ?]] & _); congruence.
  - destruct (Hshow chans (chans !! name)) as [H404 H400].
    split; [|split; [|done]].
    + split; [done|]. intros [? Hn]. destruct Hacc as [?|[? ?]]; congruence.
    + split; [done|]. naive_solver.
  - simpl. split; [|split; [|done]].
    + split; [done|]. intros [? Hn]. destruct Hacc as [?|[? ?]]; congruence.
    + naive_solver.
  - assert (valid_form Atoi r) as Hvalid by (exists form, ci; eauto).
    cbv zeta in Hres. destruct Hres as [[_ ->]|[_ ->]].
    + match goal with |- context [show render ?c ?e] =>
        destruct (Hshow c e) as [H404 H400] end.
      split; [|split].
      * split; [done|]. intros [? Hn]. destruct Hacc as [?|[? ?]]; congruence.
      * split; [done|]. naive_solver.
      * intros [?|[?|?]]; done.
    + simpl. split; [|split].
      * split; [done|]. intros [? Hn]. destruct Hacc as [?|[? ?]]; congruence.
      * split; [done|]. naive_solver.
      * intros [?|[?|?]]; done.
Qed.

Lemma handler_saves chans name r form ci :
  map_Forall (λ k c, Name c = k) chans →
  name = "new" ∨ is_Some (chans !! name) →
  Method r = "POST" → Form r = Some form →
  identifierRE (form "Name") = true →
  Atoi (form "Cap") = Some ci → (0 ≤ ci)%Z →
  let old := default "" (Name <$> chans !! name) in
  (handler chans name r).1
  = <[form "Name" := mkChannel (form "Name") (form "Type") ci]>
      (delete old chans) ∧
  (form "Name" ≠ old → (handler chans name r).2 = SeeOther (form "Name")) ∧
  (form "Name" = old →
   (handler chans name r).2 = Page ∨ (handler chans name r).2 = HttpError 500).
Proof.
  intros Hnames Hacc Hm Hform Hid Hcap Hpos.
  destruct (handler_cases chans name r)
    as [(Hnew & Hnone & _)|[_ [[Hm' _]|[(_ & Hbad & _)|
         (_ & form' & ci' & Hform' & _ & Hcap' & _ & Hres)]]]].
  - destruct Hacc as [?|[? ?]]; congruence.
  - done.
  - destruct Hbad. exists form, ci. eauto.
  - rewrite Hform in Hform'. injection Hform' as <-.
    rewrite Hcap in Hcap'. injection Hcap' as <-. cbv zeta in Hres. cbv zeta.
    destruct (chans !! name) as [e|] eqn:He; simpl in Hres; simpl.
    + assert (Name e = name) as Hkey by (by apply Hnames in He).
      rewrite Hkey in *.
      destruct Hres as [[Heq ->]|[Hne ->]]; unfold show; cbn [fst snd].
      * split; [by rewrite Heq, insert_delete_eq|]. split; [done|].
        intros _. destruct (render _ _); eauto.
      * split; [by rewrite delete_insert_eq|]. done.
    + destruct Hres as [[Heq ->]|[Hne ->]]; unfold show; cbn [fst snd Name] in *.
      * rewrite Heq in Hid. done.
      * done.
Qed.

(** X21. A POST that passes the checks, on a registry that holds every
    channel under its name: the registry afterwards is the one before without the
    edited channel and with the channel of the form under the name of the
    form, which replaces whatever channel had that name; a change of
    name is answered by a redirection to the new name. *)
Theorem ChannelHandler_saves chans name r form ci :
  map_Forall (λ k c, Name c = k) chans →
  name = "new" ∨ is_Some (chans !! name) →
  Method r = "POST" → Form r = Some form →
  identifierRE (form "Name") = true →
  Atoi (form "Cap") = Some ci → (0 ≤ ci)%Z →
  let old := default "" (Name <$> chans !! name) in
  (handler chans name r).1
  = <[form "Name" := mkChannel (form "Name") (form "Type") ci]>
      (delete old chans) ∧
  (form "Name" ≠ old → (handler chans name r).2 = SeeOther (form "Name")) ∧
  (form "Name" = old →
   (handler chans name r).2 = Page ∨ (handler chans name r).2 = HttpError 500).
Proof. apply handler_saves. Qed.

(** X22. Whatever the request, the channel editor keeps the registry well
    formed: every channel under its name, every name an identifier, no
    capacity negative. *)
Theorem ChannelHandler_well_formed chans name r :
  well_formed chans → well_formed (handler chans name r).1.
Proof.
  intros Hwf.
  destruct (handler_cases chans name r)
    as [(_ & _ & ->)|[Hacc [[Hm ->]|[(Hm & _ & ->)|
         (Hm & form & ci & Hform & Hid & Hcap & Hpos & _)]]]]; try done.
  assert (map_Forall (λ k c, Name c = k) chans) as Hnames.
  { intros k c Hc. by destruct (Hwf k c Hc). }
  destruct (handler_saves chans name r form ci) as [-> _]; try done.
  apply map_Forall_insert_2; [done|].
  intros k c [_ Hc]%lookup_delete_Some. by apply Hwf.
Qed.

(** *** The node editor *)

Context (TrimSpace : string → string) (Refresh : Node → Node * bool).
Context (renderNode : gmap string Node → Node → bool).

Local Abbreviation node_handler := (NodeHandler TrimSpace Refresh renderNode).

(** X25. The node editor answers 404 exactly for a name that is not
    registered, and leaves the registry as it was on that answer, on a
    request that is not a POST, on a form that does not parse and on a name
    that is empty once trimmed.  When [Refresh] fails the answer is 400 as
    well, but the node under the key has already been given the [Wait] flag
    and the code of the form, and holds what [Refresh] left. *)
Theorem NodeHandler_rejects nodes name r :
  ((node_handler nodes name r).2 = HttpError 404 ↔ nodes !! name = None) ∧
  (nodes !! name = None ∨ Method r ≠ "POST" ∨ Form r = None ∨
   (∃ form, Form r = Some form ∧ TrimSpace (form "Name") = "") →
   (node_handler nodes name r).1 = nodes) ∧
  (∀ n form, nodes !! name = Some n → Method r = "POST" →
     Form r = Some form → TrimSpace (form "Name") ≠ "" →
     (Refresh (edited form n)).2 = true →
     node_handler nodes name r
     = (<[name := (Refresh (edited form n)).1]> nodes, HttpError 400) ∧
     Wait (edited form n) = bool_decide (form "Wait" = "on") ∧
     (∀ c, NodePart n = Code c → NodePart (edited form n) = Code (form "Code"))).
Proof.
  assert (∀ m n, (showNode renderNode m n).2 ≠ HttpError 404) as Hshow.
  { intros m n. unfold showNode; simpl. by destruct (renderNode m n). }
  unfold NodeHandler. split; [|split].
  - destruct (nodes !! name) as [n|] eqn:Hn; [|done].
    split; [|done]. intros Hr. exfalso. revert Hr.
    case_bool_decide; [|by apply Hshow].
    destruct (Form r) as [form|]; [|done].
    case_bool_decide; [done|].
    destruct (Refresh (edited form n)).2; [done|].
    case_bool_decide; [by apply Hshow|done].
  - intros Hcase. destruct (nodes !! name) as [n|] eqn:Hn; [|done].
    destruct Hcase as [?|[Hm|[Hf|(form & Hf & Hnm)]]]; [done| | |].
    + by rewrite bool_decide_false.
    + rewrite Hf. by case_bool_decide.
    + rewrite Hf. case_bool_decide; [|done]. by rewrite bool_decide_true.
  - intros n form Hn Hm Hf Hnm Herr. rewrite Hn, Hf, Herr.
    rewrite bool_decide_true, bool_decide_false by done.
    split; [done|]. split; [done|]. intros c Hc. simpl. by rewrite Hc.
Qed.

(** X26. A POST that passes the checks and the refresh, on a registry that
    holds every node under its name, when [Refresh] leaves the name of the
    node alone: the registry afterwards is the one before without the
    edited node and with the refreshed node, under the trimmed name of the
    form and carrying it, which replaces whatever node had that name; a
    change of name is answered by a redirection to the new name.  The name
    is not checked beyond being non-empty. *)
Theorem NodeHandler_saves nodes name r n form :
  map_Forall (λ k n, NodeName n = k) nodes →
  nodes !! name = Some n → Method r = "POST" → Form r = Some form →
  TrimSpace (form "Name") ≠ "" →
  (Refresh (edited form n)).2 = false →
  NodeName (Refresh (edited form n)).1 = NodeName n →
  let n2 := (Refresh (edited form n)).1 in
  let nm := TrimSpace (form "Name") in
  (node_handler nodes name r).1
  = <[nm := mkNode nm (Wait n2) (NodePart n2)]> (delete name nodes) ∧
  (nm ≠ name → (node_handler nodes name r).2 = SeeOther nm) ∧
  (nm = name →
   (node_handler nodes name r).2 = Page ∨
   (node_handler nodes name r).2 = HttpError 500).
Proof.
  intros Hnames Hn Hm Hf Hnm Herr Hkeep. cbv zeta.
  pose proof (Hnames name n Hn) as Hname. simpl in Hname.
  unfold NodeHandler. rewrite Hn, Hf, Herr, Hkeep, Hname.
  rewrite bool_decide_true, bool_decide_false by done.
  case_bool_decide as Heq.
  - unfold showNode; cbn [fst snd]. split; [|split; [done|]].
    + rewrite Heq, insert_delete_eq. f_equal.
      destruct (Refresh (edited form n)).1 as [nn w p] eqn:Hr. simpl in *.
      congruence.
    + intros _. destruct (renderNode _ _); eauto.
  - cbn [fst snd]. split; [|split; [done|done]].
    by rewrite delete_insert_eq.
Qed.

End view_handlers.

Lemma ChannelHandler_rejects_witness :
  (view.ChannelHandler view.example_Atoi (λ _ _, true) view.example_registry "baz"
     view.example_request).2 = view.HttpError 404.
Proof.
  apply (proj1 (ChannelHandler_rejects view.example_Atoi (λ _ _, true)
                  view.example_registry "baz" view.example_request)).
  split; [discriminate|reflexivity].
Defined.

Lemma ChannelHandler_saves_witness :
  map_Forall (λ k c, view.Name c = k) view.example_registry ∧
  (view.ChannelHandler view.example_Atoi (λ _ _, true) view.example_registry "foo"
     view.example_request).1
  = <["bar" := view.mkChannel "bar" "string" 1]> (delete "foo" view.example_registry).
Proof.
  assert (map_Forall (λ k c, view.Name c = k) view.example_registry) as Hnames
    by by_compute.
  split; [exact Hnames|].
  assert (is_Some (view.example_registry !! "foo")) as Hfound by by_compute.
  exact (proj1 (ChannelHandler_saves view.example_Atoi (λ _ _, true)
                  view.example_registry "foo" view.example_request view.example_form 1
                  Hnames (or_intror Hfound) eq_refl eq_refl eq_refl eq_refl
                  (Z.le_0_1))).
Defined.

Lemma NodeHandler_rejects_witness :
  (view.NodeHandler (λ s, s) (λ n, (n, true)) (λ _ _, true) view.example_nodes "bar"
     view.example_request).2 = view.HttpError 404.
Proof.
  apply (proj1 (NodeHandler_rejects (λ s, s) (λ n, (n, true)) (λ _ _, true)
                  view.example_nodes "bar" view.example_request)).
  reflexivity.
Defined.

Lemma NodeHandler_saves_witness :
  map_Forall (λ k n, view.NodeName n = k) view.example_nodes ∧
  (view.NodeHandler (λ s, s) (λ n, (n, false)) (λ _ _, true) view.example_nodes "foo"
     view.example_request).1
  = <["bar" := view.mkNode "bar" false (view.Code "")]> (delete "foo" view.example_nodes).
Proof.
  assert (map_Forall (λ k n, view.NodeName n = k) view.example_nodes) as Hnames
    by by_compute.
  split; [exact Hnames|].
  assert (view.example_nodes !! "foo" = Some (view.mkNode "foo" false (view.Code "old")))
    as Hfoo by by_compute.
  exact (proj1 (NodeHandler_saves (λ s, s) (λ n, (n, false)) (λ _ _, true)
                  view.example_nodes "foo" view.example_request _ view.example_form
                  Hnames Hfoo eq_refl eq_refl ltac:(discriminate)
                  eq_refl eq_refl)).
Defined.

Lemma ChannelHandler_well_formed_witness :
  view.well_formed view.example_registry ∧
  view.well_formed (view.ChannelHandler view.example_Atoi (λ _ _, true) view.example_registry "foo"
                 view.example_request).1.
Proof.
  assert (view.well_formed view.example_registry) as Hwf by by_compute.
  split; [exact Hwf|].
  exact (ChannelHandler_well_formed view.example_Atoi (λ _ _, true)
           view.example_registry "foo" view.example_request Hwf).
Defined.

